(** * BarCat: ordering reconciliation, membership and storage routines

    A shallow embedding of the sidebar's reconciliation engine
    ([reconcileSpaceTabOrdering], [scheduleReconcileRetry], the membership
    handlers and the bookmark matching of [loadTabs] in the sidebar script),
    of [Utils.addArchivedTab] and [Utils.getPinnedUrlKey] (utils.js), and of
    the duplicate-folder merge of [LocalStorage] (background.js).

    Conventions.
    - Tab, group and timer identifiers are JavaScript numbers that only ever
      hold integers; they are values of [Z].  The value [0] is the one falsy
      identifier ([!id]); [null] is [None] where the source can hold it.
    - [Array], [Set] and [Map] values are lists, [gset] and [gmap].
    - The host browser is an external collaborator.  Its tab strip is a list
      of tabs in index order; its answer to a batched move is an input of the
      model (accepted, or rejected with a thrown value). *)

From Stdlib Require Import Ascii.
From stdpp Require Import gmap strings list sorting pretty.

Open Scope Z_scope.

(** ** JavaScript array helpers *)

Section JsArray.
Context {A : Type}.

(** [Array.prototype.sort(cmp)]: a stable sort; [cmp a b <= 0] keeps [a]
    before [b]. *)
Fixpoint js_insert (cmp : A → A → Z) (x : A) (l : list A) : list A :=
  match l with
  | [] => [x]
  | y :: r => if bool_decide (cmp x y ≤ 0) then x :: y :: r
              else y :: js_insert cmp x r
  end.

Definition js_sort (cmp : A → A → Z) (l : list A) : list A :=
  foldr (js_insert cmp) [] l.

(** [arr.indexOf(x)] / [arr.findIndex(p)]: [-1] when absent. *)
Fixpoint findIndex_from (p : A → bool) (i : Z) (l : list A) : Z :=
  match l with
  | [] => -1
  | x :: r => if p x then i else findIndex_from p (i + 1) r
  end.

Definition findIndex (p : A → bool) (l : list A) : Z := findIndex_from p 0 l.

(** [arr.find(p)] *)
Fixpoint js_find (p : A → bool) (l : list A) : option A :=
  match l with
  | [] => None
  | x :: r => if p x then Some x else js_find p r
  end.
End JsArray.

Definition includesZ (l : list Z) (x : Z) : bool := bool_decide (x ∈ l).

Definition indexOf (l : list Z) (x : Z) : Z := findIndex (λ y, bool_decide (y = x)) l.

(** [String.prototype.includes] *)
Fixpoint str_includes (needle hay : string) : bool :=
  if String.prefix needle hay then true
  else match hay with
       | EmptyString => false
       | String _ rest => str_includes needle rest
       end.

(** ** [uniqPreserveOrder] *)

Fixpoint uniq_loop (seen : gset Z) (ids : list Z) : list Z :=
  match ids with
  | [] => []
  | id :: rest =>
      if bool_decide (id = 0) then uniq_loop seen rest
      else if bool_decide (id ∈ seen) then uniq_loop seen rest
      else id :: uniq_loop ({[id]} ∪ seen) rest
  end.

Definition uniqPreserveOrder (ids : list Z) : list Z := uniq_loop ∅ ids.

(** ** Data model *)

(** A space of the persisted store; [sid] and [sname] are its [id] and
    [name].  A missing array is read as the empty one by the source
    ([space.spaceBookmarks ?? []]), so the two arrays are lists. *)
Record Space := mkSpace {
  sid : Z;
  sname : string;
  spaceBookmarks : list Z;
  temporaryTabs : list Z;
  lastTab : option Z;
}.

Definition set_spaceBookmarks (l : list Z) (s : Space) : Space :=
  mkSpace (sid s) (sname s) l (temporaryTabs s) (lastTab s).
Definition set_temporaryTabs (l : list Z) (s : Space) : Space :=
  mkSpace (sid s) (sname s) (spaceBookmarks s) l (lastTab s).
Definition set_lastTab (t : option Z) (s : Space) : Space :=
  mkSpace (sid s) (sname s) (spaceBookmarks s) (temporaryTabs s) t.

(** A tab as the host reports it ([chrome.tabs.Tab]); [tab_id] is its [id]. *)
Record Tab := mkTab {
  tab_id : Z;
  index : Z;
  pinned : bool;
  groupId : Z;
  url : string;
}.

(** ** The host tab strip

    The tab strip of the window is the list of its tabs from left to right;
    the [index] the host reports for a tab is its position. *)
Record HostTab := mkHostTab {
  h_id : Z;
  h_pinned : bool;
  h_groupId : Z;
  h_url : string;
}.

Definition report (i : Z) (t : HostTab) : Tab :=
  mkTab (h_id t) i (h_pinned t) (h_groupId t) (h_url t).

(** [chrome.tabs.query({})] and [chrome.tabs.query({ groupId })] *)
Fixpoint report_from (i : Z) (w : list HostTab) : list Tab :=
  match w with
  | [] => []
  | t :: r => report i t :: report_from (i + 1) r
  end.

Definition tabs_query_all (w : list HostTab) : list Tab := report_from 0 w.

Definition tabs_query_groupId (w : list HostTab) (g : Z) : list Tab :=
  filter (λ t, groupId t = g) (tabs_query_all w).

(** [chrome.tabs.move(ids, { index })]: the listed tabs that exist leave
    their places and are put back as one block, in the order of [ids],
    starting at [index].  Group and pinned state are left as they are. *)
Definition tabs_move (ids : list Z) (start : Z) (w : list HostTab) : list HostTab :=
  let moved := omap (λ i, js_find (λ t, bool_decide (h_id t = i)) w) ids in
  let rest := filter (λ t, h_id t ∉ ids) w in
  take (Z.to_nat start) rest ++ moved ++ drop (Z.to_nat start) rest.

(** The tabs of a group that are not host-pinned. *)
Definition in_group (g : Z) (t : HostTab) : Prop := h_groupId t = g ∧ h_pinned t = false.

Global Instance in_group_dec g t : Decision (in_group g t).
Proof. unfold in_group. apply _. Defined.

(** What a later host-order query yields for a group: the ids of its tabs
    that are not host-pinned, by index. *)
Definition host_group_order (w : list HostTab) (g : Z) : list Z :=
  tab_id <$> filter (λ t, pinned t = false)
    (js_sort (λ a b, index a - index b) (tabs_query_groupId w g)).

(** ** Sidebar state *)

(** A value caught from a rejected host call: [null]/[undefined], or an
    object with [message] and the text [toString()] gives. *)
Inductive Thrown :=
  | ThrownNullish
  | ThrownError (message : string) (text : string).

(** [(error && (error.message || error.toString()))
       ? (error.message || error.toString()) : ''] *)
Definition error_message (e : Thrown) : string :=
  match e with
  | ThrownNullish => ""
  | ThrownError m t => if bool_decide (m = "") then t else m
  end.

Inductive Source := arcify | chrome.

Record Opts := mkOpts {
  source : Source;
  movedTabId : option Z;
  _retryAttempt : Z;
}.

(** [opts = {}] after destructuring with its defaults *)
Definition default_opts : Opts := mkOpts arcify None 0.

Inductive TimerAction :=
  | UnmarkSyncing (ids : list Z)
  | RetryReconcile (spaceId : Z) (opts : Opts) (attempt : Z).

Record Timer := mkTimer {
  timeoutId : Z;
  delayMs : Z;
  action : TimerAction;
}.

Record RetryEntry := mkRetryEntry {
  r_timeoutId : Z;
  r_attempt : Z;
  r_opts : Opts;
}.

Inductive LogEntry :=
  | LogReordered (spaceId : Z) (from to : list Z)
  | LogScheduledRetry (spaceId attempt delay : Z)
  | WarnGaveUp (spaceId : Z) (message : string)
  | WarnRetryFailed (e : Thrown)
  | ErrorMovingTabs (e : Thrown).

(** The module-level state of the sidebar together with the parts of the
    host and of the document that reconciliation reads or writes.
    - [storage]: every value written under the [spaces] key, latest first;
    - [timers]: the pending [setTimeout] callbacks;
    - [domTemp]: for a rendered space, the tab ids of the rows of its
      temporary container, top to bottom;
    - [moveCalls]: the [chrome.tabs.move] calls issued, latest first. *)
Record State := mkState {
  spaces : list Space;
  window : list HostTab;
  storage : list (list Space);
  syncingToChrome : gset Z;
  timers : list Timer;
  nextTimeoutId : Z;
  reconcileRetryBySpace : gmap Z RetryEntry;
  domTemp : gmap Z (list Z);
  invertTabOrder : bool;
  moveCalls : list (list Z * Z);
  log : list LogEntry;
}.

Definition set_spaces v (st : State) : State :=
  mkState v (window st) (storage st) (syncingToChrome st) (timers st)
    (nextTimeoutId st) (reconcileRetryBySpace st) (domTemp st)
    (invertTabOrder st) (moveCalls st) (log st).
Definition set_window v (st : State) : State :=
  mkState (spaces st) v (storage st) (syncingToChrome st) (timers st)
    (nextTimeoutId st) (reconcileRetryBySpace st) (domTemp st)
    (invertTabOrder st) (moveCalls st) (log st).
Definition set_storage v (st : State) : State :=
  mkState (spaces st) (window st) v (syncingToChrome st) (timers st)
    (nextTimeoutId st) (reconcileRetryBySpace st) (domTemp st)
    (invertTabOrder st) (moveCalls st) (log st).
Definition set_syncingToChrome v (st : State) : State :=
  mkState (spaces st) (window st) (storage st) v (timers st)
    (nextTimeoutId st) (reconcileRetryBySpace st) (domTemp st)
    (invertTabOrder st) (moveCalls st) (log st).
Definition set_timers v n (st : State) : State :=
  mkState (spaces st) (window st) (storage st) (syncingToChrome st) v
    n (reconcileRetryBySpace st) (domTemp st)
    (invertTabOrder st) (moveCalls st) (log st).
Definition set_reconcileRetryBySpace v (st : State) : State :=
  mkState (spaces st) (window st) (storage st) (syncingToChrome st) (timers st)
    (nextTimeoutId st) v (domTemp st)
    (invertTabOrder st) (moveCalls st) (log st).
Definition set_domTemp v (st : State) : State :=
  mkState (spaces st) (window st) (storage st) (syncingToChrome st) (timers st)
    (nextTimeoutId st) (reconcileRetryBySpace st) v
    (invertTabOrder st) (moveCalls st) (log st).
Definition set_moveCalls v (st : State) : State :=
  mkState (spaces st) (window st) (storage st) (syncingToChrome st) (timers st)
    (nextTimeoutId st) (reconcileRetryBySpace st) (domTemp st)
    (invertTabOrder st) v (log st).
Definition add_log (e : LogEntry) (st : State) : State :=
  mkState (spaces st) (window st) (storage st) (syncingToChrome st) (timers st)
    (nextTimeoutId st) (reconcileRetryBySpace st) (domTemp st)
    (invertTabOrder st) (moveCalls st) (e :: log st).

(** [setTimeout(callback, delay)] and [clearTimeout(id)] *)
Definition setTimeout (delay : Z) (a : TimerAction) (st : State) : Z * State :=
  let tid := nextTimeoutId st in
  (tid, set_timers (timers st ++ [mkTimer tid delay a]) (tid + 1) st).

Definition clearTimeout (tid : Z) (st : State) : State :=
  set_timers (filter (λ t, timeoutId t ≠ tid) (timers st)) (nextTimeoutId st) st.

(** [saveSpaces()] *)
Definition saveSpaces (st : State) : State :=
  set_storage (spaces st :: storage st) st.

(** [spaces.find(s => s.id === spaceId)], and an in-place change of the
    object it returns. *)
Definition find_space (spaceId : Z) (l : list Space) : option Space :=
  js_find (λ s, bool_decide (sid s = spaceId)) l.

Fixpoint update_space (spaceId : Z) (f : Space → Space) (l : list Space) : list Space :=
  match l with
  | [] => []
  | s :: r => if bool_decide (sid s = spaceId) then f s :: r
              else s :: update_space spaceId f r
  end.

(** [markTabsSyncingToChrome(tabIds, ttlMs = 600)] *)
Definition markTabsSyncingToChrome (tabIds : list Z) (st : State) : State :=
  let ids := uniqPreserveOrder tabIds in
  let st1 := set_syncingToChrome (list_to_set ids ∪ syncingToChrome st) st in
  (setTimeout 600 (UnmarkSyncing ids) st1).2.

(** [unmarkTabsSyncingToChrome(tabIds)] *)
Definition unmarkTabsSyncingToChrome (tabIds : list Z) (st : State) : State :=
  set_syncingToChrome (syncingToChrome st ∖ list_to_set (uniqPreserveOrder tabIds)) st.

(** [scheduleReconcileRetry(spaceId, opts, attempt, delayMs, reason)] *)
Definition scheduleReconcileRetry (spaceId : Z) (opts : Opts) (attempt delay : Z)
    (st : State) : State :=
  let st1 :=
    match reconcileRetryBySpace st !! spaceId with
    | Some existing =>
        if bool_decide (r_timeoutId existing = 0) then st
        else clearTimeout (r_timeoutId existing) st
    | None => st
    end in
  let '(tid, st2) := setTimeout delay (RetryReconcile spaceId opts attempt) st1 in
  let st3 := set_reconcileRetryBySpace
               (<[spaceId := mkRetryEntry tid attempt opts]> (reconcileRetryBySpace st2)) st2 in
  add_log (LogScheduledRetry spaceId attempt delay) st3.

(** ** [reconcileSpaceTabOrdering] *)

(** The answer of the host to the batched [chrome.tabs.move]. *)
Inductive MoveOutcome :=
  | MoveAccepted
  | MoveRejected (e : Thrown).

(** How the call ends: it returns, or the caught value is rethrown. *)
Inductive Completion :=
  | Returned
  | Threw (e : Thrown).

(** The block run when [source === 'chrome']: temporary order taken from the
    host, and the moved bookmark tab forced to the end of the bookmark
    block when it sits after the first temporary tab. *)
Definition take_chrome_order (moved : option Z) (chromeOrder : list Z) (space : Space) : Space :=
  let bookmarkSet : gset Z := list_to_set (spaceBookmarks space) in
  let chromeTemps := filter (λ id, id ∉ bookmarkSet) chromeOrder in
  let space1 := set_temporaryTabs (uniqPreserveOrder chromeTemps) space in
  match moved with
  | Some m =>
      if bool_decide (m ≠ 0) && bool_decide (m ∈ bookmarkSet) then
        let movedIndex := indexOf chromeOrder m in
        let firstTempIndex := findIndex (λ id, bool_decide (id ∉ bookmarkSet)) chromeOrder in
        if bool_decide (firstTempIndex ≠ -1) && bool_decide (movedIndex ≠ -1)
           && bool_decide (movedIndex > firstTempIndex)
        then set_spaceBookmarks (filter (λ id, id ≠ m) (spaceBookmarks space1) ++ [m]) space1
        else space1
      else space1
  | None => space1
  end.

(** The space record as the rest of the call sees it: changed only when the
    host initiated the reorder. *)
Definition apply_source (opts : Opts) (chromeOrder : list Z) (space : Space) : Space :=
  match source opts with
  | chrome => take_chrome_order (movedTabId opts) chromeOrder space
  | arcify => space
  end.

Definition desiredBookmarks (present : gset Z) (space : Space) : list Z :=
  uniqPreserveOrder (filter (λ id, id ∈ present) (spaceBookmarks space)).

Definition desiredTemps (present : gset Z) (space : Space) : list Z :=
  uniqPreserveOrder
    (filter (λ id, id ∈ present ∧ id ∉ desiredBookmarks present space) (temporaryTabs space)).

Definition desiredGroupOrder (present : gset Z) (space : Space) : list Z :=
  uniqPreserveOrder (desiredBookmarks present space ++ desiredTemps present space).

(** [a.length === b.length && a.every((id, idx) => id === b[idx])] *)
Definition isSameOrder (current desired : list Z) : bool :=
  bool_decide (length current = length desired)
  && forallb (λ p, bool_decide (desired !! p.1 = Some p.2)) (imap pair current).

(** [tempContainer.appendChild(el)] for the row found by
    [querySelector('[data-tab-id=...]')], when there is one. *)
Fixpoint remove_first (id : Z) (rows : list Z) : list Z :=
  match rows with
  | [] => []
  | r :: rest => if bool_decide (r = id) then rest else r :: remove_first id rest
  end.

Definition reappend (rows : list Z) (id : Z) : list Z :=
  if bool_decide (id ∈ rows) then remove_first id rows ++ [id] else rows.

Definition update_temp_dom (spaceId : Z) (temps : list Z) (st : State) : State :=
  match domTemp st !! spaceId with
  | Some rows =>
      let domTempOrder := if invertTabOrder st then reverse temps else temps in
      set_domTemp (<[spaceId := foldl reappend rows domTempOrder]> (domTemp st)) st
  | None => st
  end.

(** The [catch] block around the move. *)
Definition on_move_error (spaceId : Z) (src : Source) (moved : option Z) (attempt : Z)
    (desired : list Z) (e : Thrown) (st : State) : State * Completion :=
  let st1 := unmarkTabsSyncingToChrome desired st in
  let message := error_message e in
  let isChromeMidDrag := str_includes "Tabs cannot be edited right now" message in
  if isChromeMidDrag then
    let nextAttempt := attempt + 1 in
    if bool_decide (nextAttempt ≤ 12) then
      let delay := Z.min 1200 (200 + nextAttempt * 100) in
      (scheduleReconcileRetry spaceId (mkOpts src moved 0) nextAttempt delay st1, Returned)
    else (add_log (WarnGaveUp spaceId message) st1, Returned)
  else (add_log (ErrorMovingTabs e) st1, Threw e).

(** Every unpinned tab of the group is in one of the two arrays. *)
Definition tracked (space : Space) (groupOrder : list Z) : Prop :=
  Forall (λ x, x ∈ spaceBookmarks space ∨ x ∈ temporaryTabs space) groupOrder.

(** The order the specification states for a group after a reconcile: the
    bookmark array then the temporary array, each cut down to the ids
    present in the group and deduplicated. *)
Definition stated_order (groupOrder : list Z) (space : Space) : list Z :=
  let present : gset Z := list_to_set groupOrder in
  uniqPreserveOrder (filter (λ id, id ∈ present) (spaceBookmarks space))
  ++ uniqPreserveOrder (filter (λ id, id ∈ present) (temporaryTabs space)).

(** The same with the temporary ids that are also bookmark ids left out, as
    [desiredTemps] does. *)
Definition settled_order (groupOrder : list Z) (space : Space) : list Z :=
  let present : gset Z := list_to_set groupOrder in
  uniqPreserveOrder (filter (λ id, id ∈ present) (spaceBookmarks space))
  ++ uniqPreserveOrder
       (filter (λ id, id ∈ present ∧ id ∉ spaceBookmarks space) (temporaryTabs space)).

(** The three stages of the body once the group is known to hold an
    unpinned tab: the [source === 'chrome'] block, the guarded move with its
    [catch], and the tail run unless the caught value was rethrown. *)
Definition source_step (spaceId : Z) (opts : Opts) (chromeOrder : list Z) (st : State) : State :=
  match source opts with
  | chrome => set_spaces (update_space spaceId
                (apply_source opts chromeOrder) (spaces st)) st
  | arcify => st
  end.

Definition move_step (spaceId : Z) (opts : Opts) (host : MoveOutcome)
    (currentGroupOrder desired : list Z) (groupStartIndex : Z) (st : State)
    : State * Completion :=
  if isSameOrder currentGroupOrder desired then (st, Returned)
  else
    let st_m := markTabsSyncingToChrome desired st in
    let st_c := set_moveCalls ((desired, groupStartIndex) :: moveCalls st_m) st_m in
    match host with
    | MoveAccepted =>
        (add_log (LogReordered spaceId currentGroupOrder desired)
           (set_window (tabs_move desired groupStartIndex (window st_c)) st_c), Returned)
    | MoveRejected e =>
        on_move_error spaceId (source opts) (movedTabId opts) (_retryAttempt opts)
          desired e st_c
    end.

Definition finish_step (spaceId : Z) (temps : list Z) (r : State * Completion)
    : State * Completion :=
  match r.2 with
  | Threw e => r
  | Returned => (update_temp_dom spaceId temps (saveSpaces r.1), Returned)
  end.

Definition reconcileSpaceTabOrdering (spaceId : Z) (opts : Opts) (host : MoveOutcome)
    (st : State) : State * Completion :=
  match find_space spaceId (spaces st) with
  | None => (st, Returned)
  | Some space =>
    if bool_decide (spaceId = 0) then (st, Returned) else
    let groupTabs := js_sort (λ a b, index a - index b) (tabs_query_groupId (window st) spaceId) in
    let groupTabsUnpinned := filter (λ t, pinned t = false) groupTabs in
    match groupTabsUnpinned with
    | [] => (st, Returned)
    | first :: _ =>
      let tabsInGroupSet : gset Z := list_to_set (tab_id <$> groupTabsUnpinned) in
      let chromeOrder := tab_id <$> groupTabsUnpinned in
      let st1 := source_step spaceId opts chromeOrder st in
      let space1 := apply_source opts chromeOrder space in
      let temps := desiredTemps tabsInGroupSet space1 in
      let desired := desiredGroupOrder tabsInGroupSet space1 in
      let currentGroupOrder := tab_id <$> groupTabsUnpinned in
      finish_step spaceId temps
        (move_step spaceId opts host currentGroupOrder desired (index first) st1)
    end
  end.

(** The callback of a retry timer: the map entry goes, the reconcile runs
    again with the recorded attempt, and what it throws is logged. *)
Definition retry_callback (spaceId : Z) (opts : Opts) (attempt : Z) (host : MoveOutcome)
    (st : State) : State :=
  let st1 := set_reconcileRetryBySpace (delete spaceId (reconcileRetryBySpace st)) st in
  let '(st2, c) := reconcileSpaceTabOrdering spaceId
                     (mkOpts (source opts) (movedTabId opts) attempt) host st1 in
  match c with
  | Returned => st2
  | Threw e => add_log (WarnRetryFailed e) st2
  end.

(** A pending timer fires: it leaves the pending list and its callback runs. *)
Definition fire_timer (t : Timer) (host : MoveOutcome) (st : State) : State :=
  let st1 := set_timers (filter (λ u, timeoutId u ≠ timeoutId t) (timers st))
               (nextTimeoutId st) st in
  match action t with
  | UnmarkSyncing ids =>
      set_syncingToChrome (syncingToChrome st1 ∖ list_to_set ids) st1
  | RetryReconcile spaceId opts attempt => retry_callback spaceId opts attempt host st1
  end.

(** In the host order [cur] some id that is not a bookmark id comes before
    the first occurrence of [b]. *)
Definition after_a_temporary (bookmarks cur : list Z) (b : Z) : Prop :=
  ∃ l1 t l2, cur = l1 ++ t :: l2 ∧ (t ∉ bookmarks) ∧ (b ∉ l1) ∧ b ∈ l2.

(** [b] is last in the bookmark array and the other ids keep their order. *)
Definition moved_to_end (before after : list Z) (b : Z) : Prop :=
  after = filter (λ id, id ≠ b) before ++ [b].

(** ** Membership handlers

    The handlers below are modelled for what they write to the two arrays
    of a space (and [lastTab]); their bookmark, pinned-state and document
    effects do not touch the arrays. *)

(** [spaceBookmarks(S)] and [temporaryTabs(S)] share no id. *)
Definition disjoint_arrays (s : Space) : Prop :=
  Forall (λ x, x ∉ temporaryTabs s) (spaceBookmarks s).

Definition push_if_absent (l : list Z) (x : Z) : list Z :=
  if includesZ l x then l else l ++ [x].

(** [moveTabToPinned(space, tab)], its first three lines. *)
Definition moveTabToPinned_arrays (tabId : Z) (space : Space) : Space :=
  let s1 := set_temporaryTabs (filter (λ id, id ≠ tabId) (temporaryTabs space)) space in
  set_spaceBookmarks (push_if_absent (spaceBookmarks s1) tabId) s1.

(** [moveTabToTemp(space, tab)], the block that moves the id. *)
Definition moveTabToTemp_arrays (tabId : Z) (space : Space) : Space :=
  let s1 := set_spaceBookmarks (filter (λ id, id ≠ tabId) (spaceBookmarks space)) space in
  set_temporaryTabs (push_if_absent (temporaryTabs s1) tabId) s1.

(** The drop of a tab row on the pinned section ([handleBookmarkOperations]). *)
Definition dropOnPinned_arrays (isBookmarkOnly : bool) (tabId : Z) (space : Space) : Space :=
  if negb isBookmarkOnly && bool_decide (tabId ≠ 0)
  then moveTabToPinned_arrays tabId space else space.

(** Removing an id from both arrays of a space. *)
Definition forget_tab (tabId : Z) (s : Space) : Space :=
  set_temporaryTabs (filter (λ id, id ≠ tabId) (temporaryTabs s))
    (set_spaceBookmarks (filter (λ id, id ≠ tabId) (spaceBookmarks s)) s).

(** [handleTabRemove(tabId)] and the host-pinned branch of
    [handleTabUpdate]: the id leaves every space. *)
Definition handleTabRemove_arrays (tabId : Z) (sps : list Space) : list Space :=
  forget_tab tabId <$> sps.

Definition holds_tab (tabId : Z) (s : Space) : bool :=
  includesZ (temporaryTabs s) tabId || includesZ (spaceBookmarks s) tabId.

Fixpoint update_first (p : Space → bool) (f : Space → Space) (l : list Space) : list Space :=
  match l with
  | [] => []
  | s :: r => if p s then f s :: r else s :: update_first p f r
  end.

(** [moveTabToSpace(tabId, spaceId, pinned)]: used for a created tab and
    for a move between spaces. *)
Definition moveTabToSpace_arrays (tabId spaceId : Z) (isPinned : bool)
    (sps : list Space) : list Space :=
  let sps1 :=
    match js_find (holds_tab tabId) sps with
    | Some sourceSpace =>
        if bool_decide (sid sourceSpace ≠ spaceId)
        then update_first (holds_tab tabId)
               (λ s, set_lastTab None (forget_tab tabId s)) sps
        else sps
    | None => sps
    end in
  update_space spaceId
    (λ space,
       let s1 := set_lastTab (Some tabId) (forget_tab tabId space) in
       if isPinned then set_spaceBookmarks (spaceBookmarks s1 ++ [tabId]) s1
       else set_temporaryTabs (temporaryTabs s1 ++ [tabId]) s1)
    sps1.

(** [processTabMove(tabId, moveInfo)], the block run when the host moved the
    tab into the group of another space ([newGroupId = tab.groupId]). *)
Definition processTabMove_arrays (tabId newGroupId : Z) (sps : list Space) : list Space :=
  match js_find (holds_tab tabId) sps, find_space newGroupId sps with
  | Some sourceSpace, Some destSpace =>
      if bool_decide (sid sourceSpace ≠ sid destSpace)
      then update_space newGroupId (moveTabToTemp_arrays tabId)
             (update_first (holds_tab tabId)
                (λ s, set_lastTab None (forget_tab tabId s)) sps)
      else sps
  | _, _ => sps
  end.

(** The click on a bookmark row whose URL is open in some tab
    ([existingTab]): the branch "Tab exists, just activate it" of the
    [mousedown] listener set up by [createTabElement]. *)
Definition openBookmark_existingTab (isPinned : bool) (existingTab : Tab) (st : State) : State :=
  match find_space (groupId existingTab) (spaces st) with
  | Some _ =>
      saveSpaces (set_spaces
        (update_space (groupId existingTab)
           (λ space,
              let s1 := set_lastTab (Some (tab_id existingTab)) space in
              if isPinned && negb (includesZ (spaceBookmarks s1) (tab_id existingTab))
              then set_spaceBookmarks (spaceBookmarks s1 ++ [tab_id existingTab]) s1
              else s1)
           (spaces st)) st)
  | None => st
  end.

(** ** Events of the sidebar

    The pending retry timers of a space, and the events that change the
    state: a reconciliation request, a pending timer that fires, and any
    other handler or host change, which rewrites the store, the tab strip
    and the document but no timer. *)
Definition is_retry_for (s : Z) (t : Timer) : Prop :=
  match action t with
  | RetryReconcile s' _ _ => s' = s
  | UnmarkSyncing _ => False
  end.

Global Instance is_retry_for_dec s t : Decision (is_retry_for s t).
Proof. unfold is_retry_for. destruct (action t); apply _. Defined.

Definition pending_retries (s : Z) (st : State) : list Timer :=
  filter (is_retry_for s) (timers st).

Inductive Event :=
  | EvReconcile (spaceId : Z) (opts : Opts) (host : MoveOutcome)
  | EvTimer (tid : Z) (host : MoveOutcome)
  | EvOther (sp : list Space) (w : list HostTab) (dom : gmap Z (list Z)).

Definition step (ev : Event) (st : State) : option State :=
  match ev with
  | EvReconcile s o h => Some (reconcileSpaceTabOrdering s o h st).1
  | EvTimer tid h =>
      match js_find (λ t, bool_decide (timeoutId t = tid)) (timers st) with
      | Some t => Some (fire_timer t h st)
      | None => None
      end
  | EvOther sp w dom => Some (set_domTemp dom (set_window w (set_spaces sp st)))
  end.

(** The state when the sidebar script is loaded. *)
Definition boot (sp : list Space) (w : list HostTab) (dom : gmap Z (list Z))
    (invert : bool) : State :=
  mkState sp w [] ∅ [] 1 ∅ dom invert [] [].

Inductive reachable : State → Prop :=
  | reachable_boot sp w dom invert : reachable (boot sp w dom invert)
  | reachable_step st ev st' :
      reachable st → step ev st = Some st' → reachable st'.

(** Every pending timer has a fresh positive id, and the retry map names
    the pending retry timer of each space. *)
Definition retry_inv (st : State) : Prop :=
  0 < nextTimeoutId st
  ∧ Forall (λ t, 0 < timeoutId t < nextTimeoutId st) (timers st)
  ∧ NoDup (timeoutId <$> timers st)
  ∧ ∀ t, t ∈ timers st → ∀ s, is_retry_for s t →
      ∃ e, reconcileRetryBySpace st !! s = Some e ∧ r_timeoutId e = timeoutId t.

(** ** The archive of closed tabs ([Utils.addArchivedTab]) *)

Definition MAX_ARCHIVED_TABS : nat := 100.

Record ArchivedTab := mkArchivedTab {
  a_url : string;
  a_name : string;
  a_spaceId : Z;
  archivedAt : Z;
}.

(** [{ ...tabData, archivedAt: Date.now() }] *)
Definition stamp (now : Z) (t : ArchivedTab) : ArchivedTab :=
  mkArchivedTab (a_url t) (a_name t) (a_spaceId t) now.

(** The archive stored after [addArchivedTab(tabData)], from the archive
    read at its start and the value [now] of [Date.now()]. *)
Definition addArchivedTab (now : Z) (tabData : option ArchivedTab)
    (archivedTabs : list ArchivedTab) : list ArchivedTab :=
  match tabData with
  | None => archivedTabs
  | Some td =>
      if bool_decide (a_url td = "") || bool_decide (a_name td = "")
         || bool_decide (a_spaceId td = 0)
      then archivedTabs
      else
        match js_find (λ t, bool_decide (a_url t = a_url td)) archivedTabs with
        | Some existingTab => archivedTabs
        | None =>
            let pushed := archivedTabs ++ [stamp now td] in
            let sorted := js_sort (λ a b, archivedAt b - archivedAt a) pushed in
            if bool_decide (MAX_ARCHIVED_TABS < length sorted)%nat
            then take MAX_ARCHIVED_TABS sorted
            else sorted
        end
  end.

(** ** Bookmarks and the tabs that represent them ([loadTabs]) *)

(** A node of the bookmark tree ([chrome.bookmarks.BookmarkTreeNode]): a
    bookmark has a URL, a folder has children. *)
#[warnings="-register-all"] Inductive BookmarkNode :=
  | Bookmark (b_id : string) (b_title : string) (b_url : string) (b_dateAdded : Z)
  | Folder (b_id : string) (b_title : string) (b_dateAdded : Z)
           (b_children : list BookmarkNode).

Definition node_id (n : BookmarkNode) : string :=
  match n with Bookmark i _ _ _ | Folder i _ _ _ => i end.
Definition node_title (n : BookmarkNode) : string :=
  match n with Bookmark _ t _ _ | Folder _ t _ _ => t end.
Definition node_url (n : BookmarkNode) : option string :=
  match n with Bookmark _ _ u _ => Some u | Folder _ _ _ _ => None end.
Definition node_dateAdded (n : BookmarkNode) : Z :=
  match n with Bookmark _ _ _ d | Folder _ _ d _ => d end.
Definition node_children (n : BookmarkNode) : list BookmarkNode :=
  match n with Bookmark _ _ _ _ => [] | Folder _ _ _ c => c end.

(** Pinned Tab State, keyed by tab id. *)
Record PinnedState := mkPinnedState {
  pinnedUrl : option string;
  bookmarkId : option string;
}.

(** The part of a string before the first occurrence of a character
    ([s.split(c)[0]]). *)
Fixpoint before_char (c : Ascii.ascii) (s : string) : string :=
  match s with
  | EmptyString => EmptyString
  | String a rest => if bool_decide (a = c) then EmptyString
                     else String a (before_char c rest)
  end.

Section Matching.
(** [new URL(url)]: the origin and the pathname, or nothing when the
    constructor throws. *)
Variable parse_url : string → option (string * string).

(** [Utils.getPinnedUrlKey] *)
Definition getPinnedUrlKey (u : string) : string :=
  if bool_decide (u = "") then ""
  else match parse_url u with
       | Some (origin, pathname) => origin +:+ pathname
       | None => before_char "?"%char (before_char "#"%char u)
       end.

Variable tabs : list Tab.
Variable pinnedStatesById : gmap Z PinnedState.

(** [pinnedStatesById?.[t.id]?.bookmarkId === item.id] *)
Definition references (itemId : string) (t : Tab) : Prop :=
  (pinnedStatesById !! tab_id t) ≫= bookmarkId = Some itemId.

Global Instance references_dec itemId t : Decision (references itemId t).
Proof. unfold references. apply _. Defined.

Definition same_base (itemUrl : string) (t : Tab) : Prop :=
  getPinnedUrlKey (url t) = getPinnedUrlKey itemUrl.

Global Instance same_base_dec itemUrl t : Decision (same_base itemUrl t).
Proof. unfold same_base. apply _. Defined.

Definition byBookmarkId (itemId : string) : option Tab :=
  js_find (λ t, bool_decide (references itemId t)) tabs.

(** Modelled from the spec: [BookmarkUtils.findTabByUrl] (bookmark-utils.js
    is not among the sources), "a tab whose current URL exactly equals the
    bookmark's URL". *)
Definition findTabByUrl (l : list Tab) (u : string) : option Tab :=
  js_find (λ t, bool_decide (url t = u)) l.

Definition byBaseUrl (representedPinnedTabIds : gset Z) (itemUrl : string) : option Tab :=
  js_find (λ t, bool_decide (tab_id t ≠ 0)
                && bool_decide (tab_id t ∉ representedPinnedTabIds)
                && bool_decide (same_base itemUrl t)) tabs.

(** [byBookmarkId || byExactUrl || byBaseUrl] *)
Definition existingTab (representedPinnedTabIds : gset Z) (itemId itemUrl : string)
    : option Tab :=
  match byBookmarkId itemId with
  | Some t => Some t
  | None =>
      match findTabByUrl tabs itemUrl with
      | Some t => Some t
      | None => byBaseUrl representedPinnedTabIds itemUrl
      end
  end.

(** A rendered row of the pinned section: the bookmark and the tab that
    represents it, if any (a bookmark-only row otherwise).  The nesting
    of rows in folder elements is left out. *)
Record Row := mkRow {
  row_bookmarkId : string;
  row_url : string;
  row_tabId : option Z;
}.

Record LoadState := mkLoadState {
  representedPinnedTabIds : gset Z;
  processedUrls : gset string;
  rows : list Row;
}.

Variable invert : bool.
Variable pinnedUrls : gset string.

Definition itemsToRender {A} (l : list A) : list A :=
  if invert then reverse l else l.

(** The body of the loop of [processBookmarkNode] for one item; a folder
    runs the loop on its children with a [processedUrls] of its own. *)
Fixpoint processItem (item : BookmarkNode) (s : LoadState) : LoadState :=
  match item with
  | Folder _ title _ children =>
      if bool_decide (title = "_Favorites") then s
      else
        let inner :=
          foldl (λ acc f, f acc)
            (mkLoadState (representedPinnedTabIds s) ∅ (rows s))
            (itemsToRender (List.map processItem children)) in
        mkLoadState (representedPinnedTabIds inner) (processedUrls s) (rows inner)
  | Bookmark itemId _ itemUrl _ =>
      if bool_decide (itemUrl ∉ processedUrls s) && bool_decide (itemUrl ∉ pinnedUrls)
      then
        match existingTab (representedPinnedTabIds s) itemId itemUrl with
        | Some t =>
            mkLoadState ({[tab_id t]} ∪ representedPinnedTabIds s)
              ({[itemUrl]} ∪ processedUrls s)
              (rows s ++ [mkRow itemId itemUrl (Some (tab_id t))])
        | None =>
            mkLoadState (representedPinnedTabIds s)
              ({[itemUrl]} ∪ processedUrls s)
              (rows s ++ [mkRow itemId itemUrl None])
        end
      else s
  end.

(** [processBookmarkNode(spaceFolder, pinnedContainer)] *)
Definition processBookmarkNode (node : BookmarkNode) : LoadState :=
  foldl (λ acc f, f acc) (mkLoadState ∅ ∅ [])
    (itemsToRender (List.map processItem (node_children node))).

(** The bookmark entries that get a row, whatever tabs are open, as pairs
    of bookmark id and URL in the order of the rows.  The items of a
    folder are taken in the order they are handled, each with the rows it
    can give: a bookmark its own row, a subfolder the rows of its entries
    (none for a folder titled [_Favorites]).  A bookmark gives its row
    unless its URL is the URL of a host-pinned tab or a bookmark handled
    earlier in the same folder gave a row for that URL. *)
Fixpoint pick_entries (seen : gset string)
    (items : list (option string * list (string * string))) : list (string * string) :=
  match items with
  | [] => []
  | (Some itemUrl, own) :: rest =>
      if bool_decide (itemUrl ∉ seen) && bool_decide (itemUrl ∉ pinnedUrls)
      then own ++ pick_entries ({[itemUrl]} ∪ seen) rest
      else pick_entries seen rest
  | (None, inner) :: rest => inner ++ pick_entries seen rest
  end.

Fixpoint item_entries (item : BookmarkNode) : option string * list (string * string) :=
  match item with
  | Bookmark itemId _ itemUrl _ => (Some itemUrl, [(itemId, itemUrl)])
  | Folder _ title _ children =>
      (None, if bool_decide (title = "_Favorites") then []
             else pick_entries ∅ (itemsToRender (List.map item_entries children)))
  end.

Definition rendered_entries (node : BookmarkNode) : list (string * string) :=
  pick_entries ∅ (itemsToRender (List.map item_entries (node_children node))).
End Matching.

(** The bookmark of a row. *)
Definition row_entry (r : Row) : string * string := (row_bookmarkId r, row_url r).

(** The URLs that have given a row in a folder once one more item has been
    handled. *)
Definition seen_after (pinnedUrls : gset string) (e : option string * list (string * string))
    (seen : gset string) : gset string :=
  match e.1 with
  | Some itemUrl =>
      if bool_decide (itemUrl ∉ seen) && bool_decide (itemUrl ∉ pinnedUrls)
      then {[itemUrl]} ∪ seen else seen
  | None => seen
  end.

(** A step of the loop adds the rows of an item, from any load state. *)
Definition adds (pinnedUrls : gset string) (f : LoadState → LoadState)
    (e : option string * list (string * string)) : Prop :=
  ∀ s, row_entry <$> rows (f s)
       = (row_entry <$> rows s) ++ pick_entries pinnedUrls (processedUrls s) [e]
       ∧ processedUrls (f s) = seen_after pinnedUrls e (processedUrls s).

(** A space folder with two bookmarks of one address, a tab open on the
    address, and a tab whose Pinned Tab State names the second bookmark. *)
Definition repeated_bookmark_folder : BookmarkNode :=
  Folder "10" "Work" 100
    [Bookmark "11" "Doc" "https://docs.example/d/1" 110;
     Bookmark "14" "Doc again" "https://docs.example/d/1" 115].

Definition repeated_tabs : list Tab :=
  [mkTab 41 0 false 7 "https://docs.example/d/1";
   mkTab 43 1 false 7 "https://docs.example/d/1?tab=3"].

Definition repeated_states : gmap Z PinnedState :=
  <[43 := mkPinnedState (Some "https://docs.example/d/1") (Some "14")]> ∅.

(** The set of claimed tabs is the set of tabs of the rows rendered so far,
    and every row holds the choice made against the tabs claimed by the
    rows before it. *)
Definition load_inv (parse_url : string → option (string * string)) (tabs : list Tab)
    (states : gmap Z PinnedState) (s : LoadState) : Prop :=
  representedPinnedTabIds s = list_to_set (omap row_tabId (rows s))
  ∧ ∀ i row, rows s !! i = Some row →
      row_tabId row
      = tab_id <$> existingTab parse_url tabs states
                     (list_to_set (omap row_tabId (take i (rows s))))
                     (row_bookmarkId row) (row_url row).

(** ** Merging duplicate space folders ([LocalStorage])

    The bookmark store is read and written through the host by node id; on
    a tree whose ids are distinct every call of the routine succeeds, and
    the model gives the children of the folders as they are afterwards. *)

Definition is_folder (n : BookmarkNode) : bool :=
  match n with Folder _ _ _ _ => true | Bookmark _ _ _ _ => false end.

Definition set_children (c : list BookmarkNode) (n : BookmarkNode) : BookmarkNode :=
  match n with
  | Folder i t d _ => Folder i t d c
  | Bookmark _ _ _ _ => n
  end.

(** The children of the node with the given id change by [f]. *)
Fixpoint alter_children (id : string) (f : list BookmarkNode → list BookmarkNode)
    (l : list BookmarkNode) : list BookmarkNode :=
  match l with
  | [] => []
  | n :: r => if bool_decide (node_id n = id) then set_children (f (node_children n)) n :: r
              else n :: alter_children id f r
  end.

(** [chrome.bookmarks.getChildren(id)] among the nodes of a folder. *)
Definition children_of (id : string) (l : list BookmarkNode) : list BookmarkNode :=
  match js_find (λ n, bool_decide (node_id n = id)) l with
  | Some n => node_children n
  | None => []
  end.

(** [chrome.bookmarks.remove(id)] among the nodes of a folder. *)
Definition remove_node (id : string) (l : list BookmarkNode) : list BookmarkNode :=
  filter (λ n, node_id n ≠ id) l.

(** [targetChildren.some(targetItem => targetItem.url === sourceItem.url)] *)
Definition url_in (u : string) (targetChildren : list BookmarkNode) : bool :=
  bool_decide (Exists (λ t, node_url t = Some u) targetChildren).

(** [targetChildren.find(targetItem => !targetItem.url
                                      && targetItem.title === sourceItem.title)] *)
Definition subfolder_titled (title : string) (targetChildren : list BookmarkNode)
    : option BookmarkNode :=
  js_find (λ t, is_folder t && bool_decide (node_title t = title)) targetChildren.

(** One turn of the loop of [_mergeFolderContentsRecursive]: [targetChildren]
    is the list read when the call began, [live] the children of the target
    folder as they are now.  A moved node goes to the end of the target; a
    removed one is simply not added. *)
Fixpoint mergeItem (sourceItem : BookmarkNode) (targetChildren live : list BookmarkNode)
    : list BookmarkNode :=
  match sourceItem with
  | Bookmark _ _ u _ =>
      if url_in u targetChildren then live else live ++ [sourceItem]
  | Folder _ title _ sourceChildren =>
      match subfolder_titled title targetChildren with
      | Some existingTargetSubfolder =>
          alter_children (node_id existingTargetSubfolder)
            (λ sub, foldl (λ acc f, f sub acc) sub (List.map mergeItem sourceChildren))
            live
      | None => live ++ [sourceItem]
      end
  end.

(** [_mergeFolderContentsRecursive(sourceFolderId, targetFolderId)]: the
    children of the target afterwards, from the children of both. *)
Definition mergeFolderContents (sourceChildren targetChildren : list BookmarkNode)
    : list BookmarkNode :=
  foldl (λ acc item, mergeItem item targetChildren acc) targetChildren sourceChildren.

(** A source item that the target does not have yet: a bookmark with a new
    URL, a folder with a new title. *)
Definition is_new (targetChildren : list BookmarkNode) (sourceItem : BookmarkNode) : bool :=
  match sourceItem with
  | Bookmark _ _ u _ => negb (url_in u targetChildren)
  | Folder _ title _ _ =>
      match subfolder_titled title targetChildren with
      | Some _ => false
      | None => true
      end
  end.

(** A child of the target after the merge: the folder found for its title
    has taken in, one after the other, the source folders of that title. *)
Definition merged_child (sourceChildren targetChildren : list BookmarkNode)
    (t : BookmarkNode) : BookmarkNode :=
  match t with
  | Bookmark _ _ _ _ => t
  | Folder i title d c =>
      if bool_decide (node_id <$> subfolder_titled title targetChildren = Some i)
      then Folder i title d
             (foldl (λ sub s, mergeFolderContents (node_children s) sub) c
                (filter (λ s, is_folder s = true ∧ node_title s = title) sourceChildren))
      else t
  end.

(** The keys of [folderGroups] in insertion order. *)
Fixpoint first_occurrences (seen : list string) (l : list string) : list string :=
  match l with
  | [] => []
  | x :: r => if bool_decide (x ∈ seen) then first_occurrences seen r
              else x :: first_occurrences (x :: seen) r
  end.

Definition folderGroups (children : list BookmarkNode) : list (list BookmarkNode) :=
  let folders := filter (λ n, is_folder n = true) children in
  (λ name, filter (λ n, node_title n = name) folders)
    <$> first_occurrences [] (node_title <$> folders).

(** The body of the inner loop: one source folder merged into the target
    and then removed. *)
Definition merge_source (targetId : string) (live : list BookmarkNode)
    (sourceFolder : BookmarkNode) : list BookmarkNode :=
  let merged :=
    alter_children targetId
      (mergeFolderContents (children_of (node_id sourceFolder) live)) live in
  remove_node (node_id sourceFolder) merged.

Definition merge_group (live : list BookmarkNode) (group : list BookmarkNode)
    : list BookmarkNode :=
  if bool_decide (1 < length group)%nat then
    match js_sort (λ a b, node_dateAdded a - node_dateAdded b) group with
    | targetFolder :: sources => foldl (merge_source (node_id targetFolder)) live sources
    | [] => live
    end
  else live.

(** [mergeDuplicateSpaceFolders()]: the children of the BarCat folder
    afterwards. *)
Definition mergeDuplicateSpaceFolders (children : list BookmarkNode) : list BookmarkNode :=
  foldl merge_group children (folderGroups children).

(** What becomes of a child of the BarCat folder when the folders [sources]
    are merged into the folder [targetId]: a source is gone, the target
    holds the merged children, any other node is as before. *)
Definition group_view (targetId : string) (sources : list BookmarkNode)
    (n : BookmarkNode) : option BookmarkNode :=
  if bool_decide (node_id n ∈ node_id <$> sources) then None
  else Some (if bool_decide (node_id n = targetId)
             then set_children
                    (foldl (λ c s, mergeFolderContents (node_children s) c)
                       (node_children n) sources) n
             else n).

(** The folders of the BarCat folder that share a title. *)
Definition title_group (children : list BookmarkNode) (title : string) : list BookmarkNode :=
  filter (λ n, node_title n = title) (filter (λ n, is_folder n = true) children).

(** What becomes of a child of the BarCat folder after the whole routine. *)
Definition final_view (children : list BookmarkNode) (n : BookmarkNode)
    : option BookmarkNode :=
  match n with
  | Bookmark _ _ _ _ => Some n
  | Folder _ title _ _ =>
      let group := title_group children title in
      if bool_decide (1 < length group)%nat then
        match js_sort (λ a b, node_dateAdded a - node_dateAdded b) group with
        | targetFolder :: sources => group_view (node_id targetFolder) sources n
        | [] => Some n
        end
      else Some n
  end.

(** The same once the groups of the titles in [done] have been merged. *)
Definition partial_view (children : list BookmarkNode) (done : gset string)
    (n : BookmarkNode) : option BookmarkNode :=
  match n with
  | Bookmark _ _ _ _ => Some n
  | Folder _ title _ _ =>
      if bool_decide (title ∈ done) then final_view children n else Some n
  end.

(** ** Sample states

    A window with one host-pinned tab, the four tabs of group 7 out of
    order, and a tab of another group; the space of group 7 tracks all four
    of its tabs. *)
Definition sample_window : list HostTab :=
  [mkHostTab 9 true (-1) "https://mail.example/";
   mkHostTab 3 false 7 "https://c.example/";
   mkHostTab 1 false 7 "https://a.example/";
   mkHostTab 4 false 7 "https://d.example/";
   mkHostTab 2 false 7 "https://b.example/";
   mkHostTab 8 false 5 "https://x.example/"].

Definition sample_space : Space := mkSpace 7 "Work" [1; 2] [3; 4] None.

Definition sample_state : State :=
  mkState [sample_space] sample_window [] ∅ [] 1 ∅ (<[7 := [4; 3]]> ∅) true [] [].

(** Group 7 holds tabs 1 and 2, and the space knows tab 1 only. *)
Definition untracked_state : State :=
  mkState [mkSpace 7 "Work" [] [1] None]
    [mkHostTab 1 false 7 "https://a.example/"; mkHostTab 2 false 7 "https://b.example/"]
    [] ∅ [] 1 ∅ ∅ true [] [].

(** The contention error of the host. *)
Definition mid_drag_error : Thrown :=
  ThrownError "Tabs cannot be edited right now (user may be dragging a tab)." "Error".

(** The native tab strip holds the bookmark tabs of group 7 as 2, 1 while
    the space lists them as 1, 2, and the user dragged temporary tab 4
    between them: bookmark tab 1, and no other, now sits after a temporary
    tab. *)
Definition dragged_state : State :=
  mkState [mkSpace 7 "Work" [1; 2] [4] None]
    [mkHostTab 2 false 7 "https://b.example/"; mkHostTab 4 false 7 "https://d.example/";
     mkHostTab 1 false 7 "https://a.example/"]
    [] ∅ [] 1 ∅ ∅ true [] [].

(** The user dragged bookmark tab 1 behind temporary tab 4. *)
Definition bookmark_dragged_state : State :=
  mkState [mkSpace 7 "Work" [1; 2; 3] [4] None]
    [mkHostTab 2 false 7 "https://b.example/"; mkHostTab 3 false 7 "https://c.example/";
     mkHostTab 4 false 7 "https://d.example/"; mkHostTab 1 false 7 "https://a.example/"]
    [] ∅ [] 1 ∅ ∅ true [] [].

(** Tab 5 is open as a temporary tab of group 7 on the URL of a pinned
    bookmark row that has no tab of its own. *)
Definition same_url_state : State :=
  boot [mkSpace 7 "Work" [] [5] None]
    [mkHostTab 5 false 7 "https://a.example/"] ∅ true.

(** A full archive whose hundred records carry the stamps 2000 to 2099, and
    a tab closed when the clock reads 1000. *)
Definition full_archive : list ArchivedTab :=
  (λ i : nat, mkArchivedTab ("https://site.example/" +:+ pretty i) "Page" 7
                (2000 + Z.of_nat i)) <$> seq 0 100.

Definition closed_tab : ArchivedTab := mkArchivedTab "https://new.example/" "New" 7 0.

(** A reading of [new URL(url)] used for the samples only: origin
    [scheme://host] and pathname [/path] (or [/]).  It gives what the
    constructor gives on lower-case [http(s)://host/path?query#fragment]
    addresses without port, user information, dot segments or characters
    to escape, and on a text without a scheme, which both reject.  It also
    answers nothing on every other scheme ([about:], [mailto:], ...), which
    the constructor accepts: no sample uses it there. *)
Definition parse_http_url (u : string) : option (string * string) :=
  let scheme :=
    if String.prefix "https://" u then Some "https://"
    else if String.prefix "http://" u then Some "http://"
    else None in
  match scheme with
  | None => None
  | Some sch =>
      let rest := String.substring (String.length sch)
                    (String.length u - String.length sch) u in
      let hier := before_char "?"%char (before_char "#"%char rest) in
      let host := before_char "/"%char hier in
      let path := String.substring (String.length host)
                    (String.length hier - String.length host) hier in
      if bool_decide (host = "") then None
      else Some (sch +:+ host, if bool_decide (path = "") then "/" else path)
  end.

(** A space folder that holds the same address twice, once at its root and
    once in a nested folder, and one open tab on that address. *)
Definition twice_bookmarked_folder : BookmarkNode :=
  Folder "10" "Work" 100
    [Bookmark "11" "Doc" "https://docs.example/d/1" 110;
     Folder "12" "Later" 120
       [Bookmark "13" "Doc (copy)" "https://docs.example/d/1" 130]].

Definition doc_tabs : list Tab :=
  [mkTab 41 0 false 7 "https://docs.example/d/1"].

(** Tab 42 was opened from bookmark "11" and has since moved to another
    query; tab 41 is open on the address of the bookmark itself. *)
Definition doc_tabs2 : list Tab :=
  [mkTab 41 0 false 7 "https://docs.example/d/1";
   mkTab 42 1 false 7 "https://docs.example/d/1?tab=2"].

Definition doc_states : gmap Z PinnedState :=
  <[42 := mkPinnedState (Some "https://docs.example/d/1") (Some "11")]> ∅.

(** The BarCat folder with two folders named "Work".  The newer one holds a
    copy of a bookmark of the older one, a bookmark of its own, a nested
    folder "Docs" that the older one also has, and a nested folder "Misc"
    that it has not. *)
Definition duplicated_root : list BookmarkNode :=
  [Folder "20" "Work" 500
     [Bookmark "21" "Mail" "https://mail.example/" 501;
      Bookmark "22" "Wiki" "https://wiki.example/" 502;
      Folder "23" "Docs" 503
        [Bookmark "24" "Spec" "https://docs.example/spec" 504;
         Bookmark "25" "Plan" "https://docs.example/plan" 505];
      Folder "26" "Misc" 506 [Bookmark "27" "Map" "https://map.example/" 507]];
   Folder "30" "Home" 300 [Bookmark "31" "News" "https://news.example/" 301];
   Folder "40" "Work" 100
     [Bookmark "41" "Mail" "https://mail.example/" 101;
      Folder "43" "Docs" 103 [Bookmark "44" "Spec" "https://docs.example/spec" 104]]].

(** The BarCat folder with an empty folder "Work" and a newer folder "Work"
    that holds one address twice and two subfolders of one title. *)
Definition twin_source_root : list BookmarkNode :=
  [Folder "60" "Work" 100 [];
   Folder "61" "Work" 200
     [Bookmark "62" "A" "https://a.example/" 201;
      Bookmark "63" "A again" "https://a.example/" 202;
      Folder "64" "Docs" 203 [Bookmark "66" "Spec" "https://docs.example/spec" 204];
      Folder "65" "Docs" 205 [Bookmark "67" "Plan" "https://docs.example/plan" 206]]].

(** * Further routines of the sidebar, of [Utils], of the background worker
      and of [LocalStorage] *)

(** ** Reading the order back from the document
       ([handleBarCatOrderChangeAfterDropByTabId])

    A row of a container carries the tab id parsed from its [data-tab-id];
    a bookmark-only row has no such attribute. *)

(** A child of the pinned container as [getFlattenedPinnedSectionTabIds]
    sees it: a [.tab] row, a [.folder] with the ids of the rows of its
    [.folder-content] that carry a [data-tab-id] (no list when the folder
    has no such element), or any other element. *)
Inductive PinnedChild :=
  | PinnedRow (tabId : option Z)
  | PinnedFolder (folderContent : option (list Z))
  | PinnedOther.

Definition flatten_child (child : PinnedChild) : list Z :=
  match child with
  | PinnedRow (Some id) => [id]
  | PinnedRow None => []
  | PinnedFolder (Some folderTabs) => folderTabs
  | PinnedFolder None => []
  | PinnedOther => []
  end.

(** [getFlattenedPinnedSectionTabIds(spaceElement)]; the argument is the
    list of children of the pinned container, if there is one. *)
Definition getFlattenedPinnedSectionTabIds (pinnedContainer : option (list PinnedChild))
    : list Z :=
  match pinnedContainer with
  | None => []
  | Some children => uniqPreserveOrder (children ≫= flatten_child)
  end.

(** [getTempSectionTabIds(spaceElement)]; the argument is the list of the
    ids of the rows of the temporary container that carry one. *)
Definition getTempSectionTabIds (tempContainer : option (list Z)) : list Z :=
  match tempContainer with
  | None => []
  | Some tabRows => uniqPreserveOrder tabRows
  end.

(** [container.dataset.tabType] *)
Inductive TabType := TypePinned | TypeTemporary | TypeOther.

(** [invertTabOrder ? [...ids].reverse() : ids] *)
Definition displayToChromeOrder (invert : bool) (ids : list Z) : list Z :=
  if invert then reverse ids else ids.

(** The two branches that rewrite an array of the space from the document;
    nothing for a container of another type. *)
Definition order_from_dom (tabType : TabType) (invert : bool)
    (tempContainer : option (list Z)) (pinnedContainer : option (list PinnedChild))
    (space : Space) : option Space :=
  match tabType with
  | TypeTemporary =>
      let tempIdsDisplayOrder := getTempSectionTabIds tempContainer in
      let tempIdsChromeOrder := displayToChromeOrder invert tempIdsDisplayOrder in
      let existing := filter (λ id, id ∉ tempIdsChromeOrder) (temporaryTabs space) in
      Some (set_temporaryTabs (uniqPreserveOrder (tempIdsChromeOrder ++ existing)) space)
  | TypePinned =>
      let pinnedIdsDisplayOrder := getFlattenedPinnedSectionTabIds pinnedContainer in
      let pinnedIdsChromeOrder := displayToChromeOrder invert pinnedIdsDisplayOrder in
      let existing := filter (λ id, id ∉ pinnedIdsChromeOrder) (spaceBookmarks space) in
      Some (set_spaceBookmarks (uniqPreserveOrder (pinnedIdsChromeOrder ++ existing)) space)
  | TypeOther => None
  end.

(** [handleBarCatOrderChangeAfterDropByTabId(tabId, container)].  The
    container is given by the id of the [.space] element around it (none
    when there is no such element) and its type; the rows of the temporary
    container are those of [domTemp], the children of the pinned container
    are an argument. *)
Definition handleBarCatOrderChangeAfterDropByTabId (tabId : Z)
    (container : option (option Z * TabType))
    (pinnedContainer : option (list PinnedChild)) (host : MoveOutcome) (st : State)
    : State * Completion :=
  if bool_decide (tabId = 0) then (st, Returned) else
  match container with
  | None => (st, Returned)
  | Some (None, _) => (st, Returned)
  | Some (Some spaceId, tabType) =>
      match find_space spaceId (spaces st) with
      | None => (st, Returned)
      | Some space =>
          match order_from_dom tabType (invertTabOrder st) (domTemp st !! spaceId)
                  pinnedContainer space with
          | None => (st, Returned)
          | Some space' =>
              reconcileSpaceTabOrdering spaceId (mkOpts arcify (Some tabId) 0) host
                (set_spaces (update_space spaceId (λ _, space') (spaces st)) st)
          end
      end
  end.

(** ** The spaces built when the sidebar starts ([initSidebar])

    For each tab group of the host its tabs are queried and matched with
    the bookmarks of the folder of its title; [matched] is what
    [BookmarkUtils.matchTabsWithBookmarks] gave, with its [null] entries,
    and is absent when the group has no folder yet. *)
Definition init_space (groupId : Z) (title : string) (tabs : list Tab)
    (matched : option (list (option Z))) : Space :=
  let spaceBookmarks :=
    match matched with
    | None => []
    | Some ids => omap (λ id, id) ids
    end in
  mkSpace groupId title spaceBookmarks
    (tab_id <$> filter (λ tab, tab_id tab ∉ spaceBookmarks) tabs) None.

(** ** Who holds a tab ([moveTabToSpace])

    The first stage of [moveTabToSpace_arrays]: the tab has left the first
    space that holds it, unless that space is the target. *)
Definition after_source_removal (tabId spaceId : Z) (sps : list Space) : list Space :=
  match js_find (holds_tab tabId) sps with
  | Some sourceSpace =>
      if bool_decide (sid sourceSpace ≠ spaceId)
      then update_first (holds_tab tabId) (λ s, set_lastTab None (forget_tab tabId s)) sps
      else sps
  | None => sps
  end.

(** ** Moving to the next and to the previous tab of a space
       ([movToNextTabInSpace], [movToPrevTabInSpace]; the same two routines
       are in [Utils], called by the background worker) *)

(** The call [chrome.tabs.update(id, { active: true })] made, if any; the
    id is read from an array by index and is [undefined] out of range. *)
Inductive Activation :=
  | NoActivation
  | Activate (id : option Z).

Definition movToNextTabInSpace (tabId : Z) (sourceSpace : option Space) : Activation :=
  let temps := from_option temporaryTabs [] sourceSpace in
  let bookmarks := from_option spaceBookmarks [] sourceSpace in
  let indexInTemporaryTabs := findIndex (λ id, bool_decide (id = tabId)) temps in
  let indexInBookmarks := findIndex (λ id, bool_decide (id = tabId)) bookmarks in
  if bool_decide (indexInTemporaryTabs ≠ -1) then
    if bool_decide (indexInTemporaryTabs < Z.of_nat (length temps) - 1)
    then Activate (temps !! Z.to_nat (indexInTemporaryTabs + 1))
    else if bool_decide (0 < length bookmarks)%nat then Activate (bookmarks !! 0%nat)
    else Activate (temps !! 0%nat)
  else if bool_decide (indexInBookmarks ≠ -1) then
    if bool_decide (indexInBookmarks < Z.of_nat (length bookmarks) - 1)
    then Activate (bookmarks !! Z.to_nat (indexInBookmarks + 1))
    else if bool_decide (0 < length temps)%nat then Activate (temps !! 0%nat)
    else Activate (bookmarks !! 0%nat)
  else NoActivation.

Definition movToPrevTabInSpace (tabId : Z) (sourceSpace : option Space) : Activation :=
  let temps := from_option temporaryTabs [] sourceSpace in
  let bookmarks := from_option spaceBookmarks [] sourceSpace in
  let indexInTemporaryTabs := findIndex (λ id, bool_decide (id = tabId)) temps in
  let indexInBookmarks := findIndex (λ id, bool_decide (id = tabId)) bookmarks in
  if bool_decide (indexInTemporaryTabs ≠ -1) then
    if bool_decide (indexInTemporaryTabs > 0)
    then Activate (temps !! Z.to_nat (indexInTemporaryTabs - 1))
    else if bool_decide (0 < length bookmarks)%nat
    then Activate (bookmarks !! (length bookmarks - 1)%nat)
    else Activate (temps !! (length temps - 1)%nat)
  else if bool_decide (indexInBookmarks ≠ -1) then
    if bool_decide (indexInBookmarks > 0)
    then Activate (bookmarks !! Z.to_nat (indexInBookmarks - 1))
    else if bool_decide (0 < length temps)%nat
    then Activate (temps !! (length temps - 1)%nat)
    else Activate (bookmarks !! (length bookmarks - 1)%nat)
  else NoActivation.

(** The tabs of a space in the order the two routines walk them. *)
Definition space_cycle (space : Space) : list Z :=
  temporaryTabs space ++ spaceBookmarks space.

(** ** The archive: removal and restoring ([Utils.removeArchivedTab]) *)

Definition removeArchivedTab (url : string) (spaceId : Z)
    (archivedTabs : list ArchivedTab) : list ArchivedTab :=
  if bool_decide (url = "") || bool_decide (spaceId = 0) then archivedTabs
  else filter (λ tab, ¬ (a_url tab = url ∧ a_spaceId tab = spaceId)) archivedTabs.

(** What the stored archive satisfies between two calls: one record per
    URL, at most [MAX_ARCHIVED_TABS] records, newest first, each with a URL,
    a name and a space id. *)
Definition archive_ok (archive : list ArchivedTab) : Prop :=
  NoDup (a_url <$> archive)
  ∧ (length archive ≤ MAX_ARCHIVED_TABS)%nat
  ∧ StronglySorted (λ a b, archivedAt b ≤ archivedAt a) archive
  ∧ Forall (λ t, a_url t ≠ "" ∧ a_name t ≠ "" ∧ a_spaceId t ≠ 0) archive.

(** ** Pinned Tab State ([Utils.getPinnedTabState], [setPinnedTabState],
       [removePinnedTabState]): the object stored under
       [pinnedTabStatesById], keyed by tab id *)

(** [v || null] for a string that may be missing *)
Definition or_null (v : option string) : option string :=
  match v with
  | Some s => if bool_decide (s = "") then None else Some s
  | None => None
  end.

Definition getPinnedTabState (tabId : Z) (states : gmap Z PinnedState)
    : option PinnedState :=
  if bool_decide (tabId = 0) then None else states !! tabId.

Definition setPinnedTabState (tabId : Z) (state : option PinnedState)
    (states : gmap Z PinnedState) : gmap Z PinnedState :=
  match state with
  | None => states
  | Some s =>
      if bool_decide (tabId = 0) then states
      else <[tabId := mkPinnedState (or_null (pinnedUrl s)) (or_null (bookmarkId s))]> states
  end.

Definition removePinnedTabState (tabId : Z) (states : gmap Z PinnedState)
    : gmap Z PinnedState :=
  if bool_decide (tabId = 0) then states
  else match states !! tabId with
       | Some _ => delete tabId states
       | None => states
       end.

(** ** A closed tab ([handleTabRemove])

    Besides the state of the sidebar the routine writes the Pinned Tab
    States in storage and the map [collapsedFolderShownTabs], whose keys,
    the folder elements of the document, are named here by a string.
    [row] is what [document.querySelector] finds for the tab: nothing, or
    the row with the folder element that encloses it, if any.  The
    conversion of the row of a pinned tab into a bookmark-only row comes
    after the test of the active space and runs inside a [try] whose
    [catch] removes the row; it reads the bookmark store, where it creates
    the BarCat folder when there is none, and changes the document.  The
    bookmark store and the document are left out; the conversion writes
    nothing of what is modelled here. *)
Record RemoveState := mkRemoveState {
  sidebar : State;
  pinnedTabStates : gmap Z PinnedState;
  collapsedFolderShownTabs : gmap string (gset Z);
}.

Definition undefined_spaceBookmarks : Thrown :=
  ThrownError "Cannot read properties of undefined (reading 'spaceBookmarks')"
    "TypeError: Cannot read properties of undefined (reading 'spaceBookmarks')".

(** [collapsedFolderShownTabs.get(parentFolder)?.delete(tabId)] *)
Definition prune_shown (tabId : Z) (parentFolder : option string)
    (shown : gmap string (gset Z)) : gmap string (gset Z) :=
  match parentFolder with
  | Some folder =>
      match shown !! folder with
      | Some shownTabIds => <[folder := shownTabIds ∖ {[tabId]}]> shown
      | None => shown
      end
  | None => shown
  end.

Definition handleTabRemove (tabId : Z) (row : option (option string))
    (activeSpaceId : option Z) (rs : RemoveState) : RemoveState * Completion :=
  let states := removePinnedTabState tabId (pinnedTabStates rs) in
  match row with
  | None => (mkRemoveState (sidebar rs) states (collapsedFolderShownTabs rs), Returned)
  | Some parentFolder =>
      let shown := prune_shown tabId parentFolder (collapsedFolderShownTabs rs) in
      let st := sidebar rs in
      match activeSpaceId ≫= (λ a, find_space a (spaces st)) with
      | None => (mkRemoveState st states shown, Threw undefined_spaceBookmarks)
      | Some activeSpace =>
          (mkRemoveState
             (saveSpaces (set_spaces (handleTabRemove_arrays tabId (spaces st)) st))
             states shown,
           Returned)
      end
  end.

(** ** [Utils.getPinnedUrlKey] on an address the [URL] constructor rejects *)

Fixpoint has_char (c : Ascii.ascii) (s : string) : bool :=
  match s with
  | EmptyString => false
  | String a rest => bool_decide (a = c) || has_char c rest
  end.

(** ** [Utils.searchAndRemoveBookmark]

    The search walks the children of a folder in order and goes into a
    subfolder before it looks at the next child; the first bookmark with
    the URL is removed and the search stops.  The result is the folder as
    it is afterwards, or nothing when the routine returns [false]. *)
Fixpoint searchAndRemoveBookmark (tabUrl : string) (folder : BookmarkNode)
    : option BookmarkNode :=
  match folder with
  | Bookmark _ _ _ _ => None
  | Folder i title d items =>
      (λ found, Folder i title d found) <$>
      (fix go (items : list BookmarkNode) : option (list BookmarkNode) :=
         match items with
         | [] => None
         | item :: rest =>
             match item with
             | Bookmark _ _ u _ =>
                 if bool_decide (u = tabUrl) then Some rest
                 else cons item <$> go rest
             | Folder _ _ _ _ =>
                 match searchAndRemoveBookmark tabUrl item with
                 | Some item' => Some (item' :: rest)
                 | None => cons item <$> go rest
                 end
             end
         end) items
  end.

(** The URLs of the bookmarks under a node, in document order. *)
Fixpoint bookmark_urls (n : BookmarkNode) : list string :=
  match n with
  | Bookmark _ _ u _ => [u]
  | Folder _ _ _ items => concat (List.map bookmark_urls items)
  end.

(** The first occurrence of a value leaves a list. *)
Fixpoint without_first (u : string) (l : list string) : option (list string) :=
  match l with
  | [] => None
  | x :: r => if bool_decide (x = u) then Some r else cons x <$> without_first u r
  end.

(** ** The space of the active tab ([Utils.findActiveSpaceAndTab]) and the
       [NextTabInSpace] command of the background worker *)

Definition findActiveSpaceAndTab (stored : list Space) (foundTabs : list Tab)
    : option (Space * Tab) :=
  match foundTabs with
  | [] => None
  | foundTab :: _ =>
      match js_find (λ space, includesZ (temporaryTabs space) (tab_id foundTab)) stored with
      | Some spaceWithTempTab => Some (spaceWithTempTab, foundTab)
      | None =>
          match js_find (λ space, includesZ (spaceBookmarks space) (tab_id foundTab))
                  stored with
          | Some spaceWithBookmark => Some (spaceWithBookmark, foundTab)
          | None => None
          end
      end
  end.

Definition cannot_destructure : Thrown :=
  ThrownError "Cannot destructure property 'space' of 'undefined' as it is undefined."
    "TypeError: Cannot destructure property 'space' of 'undefined' as it is undefined.".

(** [Utils.findActiveSpaceAndTab().then(async ({ space, tab }) => ...)]:
    the activation made, or the value the promise is rejected with. *)
Definition nextTabInSpace_command (stored : list Space) (foundTabs : list Tab)
    : Activation + Thrown :=
  match findActiveSpaceAndTab stored foundTabs with
  | None => inr cannot_destructure
  | Some (space, tab) => inl (movToNextTabInSpace (tab_id tab) (Some space))
  end.

(** ** The auto-archive check of the background worker
       ([runAutoArchiveCheck]) *)

(** A tab as [chrome.tabs.query({ pinned: false })] reports it. *)
Record OpenTab := mkOpenTab {
  o_id : Z;
  o_url : string;
  o_title : string;
  o_active : bool;
  o_audible : bool;
  o_groupId : Z;
}.

Definition TAB_GROUP_ID_NONE : Z := -1.

(** An entry of a stored [spaceBookmarks] array as the check looks at it:
    a number (what the sidebar stores, a tab id), a string, an object with
    or without a [url], or [null]. *)
Inductive StoredBookmark :=
  | StoredNumber (id : Z)
  | StoredString (s : string)
  | StoredObject (u : option string)
  | StoredNull.

Definition add_bookmarked (acc : gset string) (bookmark : StoredBookmark) : gset string :=
  match bookmark with
  | StoredString s => {[s]} ∪ acc
  | StoredObject (Some u) => if bool_decide (u = "") then acc else {[u]} ∪ acc
  | StoredObject None => acc
  | StoredNumber _ => acc
  | StoredNull => acc
  end.

Definition bookmarkedUrls (stored : list (list StoredBookmark)) : gset string :=
  foldl (λ acc bookmarks, foldl add_bookmarked acc bookmarks) ∅ stored.

(** The arrays of the stored spaces as the sidebar writes them. *)
Definition stored_bookmarks (s : Space) : list StoredBookmark :=
  StoredNumber <$> spaceBookmarks s.

(** [!lastActivity || (now - lastActivity > idleThresholdMillis)] *)
Definition is_idle (now idleThresholdMillis : Z) (tabActivity : gmap Z Z) (tab : OpenTab)
    : bool :=
  match tabActivity !! o_id tab with
  | None => true
  | Some lastActivity =>
      bool_decide (lastActivity = 0) || bool_decide (now - lastActivity > idleThresholdMillis)
  end.

(** [updateTabLastActivity(tabId)] and [removeTabLastActivity(tabId)] on the
    stored object; [stamp] is the value of [Date.now()] at the write. *)
Definition updateTabLastActivity (tabId stamp : Z) (activityData : gmap Z Z) : gmap Z Z :=
  if bool_decide (tabId = 0) then activityData else <[tabId := stamp]> activityData.

Definition removeTabLastActivity (tabId : Z) (activityData : gmap Z Z) : gmap Z Z :=
  if bool_decide (tabId = 0) then activityData else delete tabId activityData.

(** The test a tab passes to be put on the list of tabs to archive, and the
    test of the second loop on its group. *)
Definition to_archive (now threshold : Z) (tabActivity : gmap Z Z) (urls : gset string)
    (stillOpen : Z → bool) (tab : OpenTab) : Prop :=
  o_audible tab = false ∧ o_active tab = false ∧ (o_url tab ∉ urls)
  ∧ is_idle now threshold tabActivity tab = true ∧ stillOpen (o_id tab) = true.

Global Instance to_archive_dec now threshold tabActivity urls stillOpen tab :
  Decision (to_archive now threshold tabActivity urls stillOpen tab).
Proof. unfold to_archive. apply _. Defined.

Definition in_a_group (tab : OpenTab) : Prop :=
  o_groupId tab ≠ 0 ∧ o_groupId tab ≠ TAB_GROUP_ID_NONE.

Global Instance in_a_group_dec tab : Decision (in_a_group tab).
Proof. unfold in_a_group. apply _. Defined.

(** The first loop: the tabs to archive, and the stored activity after it.
    [tabActivity] is the object read once before the loop; [stillOpen]
    tells whether [chrome.tabs.get] finds the tab; [clock] gives the value
    of [Date.now()] when the tab is handled. *)
Definition select_step (now idleThresholdMillis : Z) (tabActivity : gmap Z Z)
    (urls : gset string) (stillOpen : Z → bool) (clock : Z → Z)
    (acc : list OpenTab * gmap Z Z) (tab : OpenTab) : list OpenTab * gmap Z Z :=
  if o_audible tab || o_active tab
  then (acc.1, updateTabLastActivity (o_id tab) (clock (o_id tab)) acc.2)
  else if bool_decide (o_url tab ∈ urls)
  then (acc.1, updateTabLastActivity (o_id tab) (clock (o_id tab)) acc.2)
  else if is_idle now idleThresholdMillis tabActivity tab
  then if stillOpen (o_id tab) then (acc.1 ++ [tab], acc.2)
       else (acc.1, removeTabLastActivity (o_id tab) acc.2)
  else acc.

(** What a run leaves: the archive, the stored activity, and the tabs it
    closed, in order. *)
Record ArchiveRun := mkArchiveRun {
  run_archive : list ArchivedTab;
  run_activity : gmap Z Z;
  run_closed : list Z;
}.

(** [name: tab.title || tab.url] *)
Definition archive_name (tab : OpenTab) : string :=
  if bool_decide (o_title tab = "") then o_url tab else o_title tab.

(** The second loop. *)
Definition archive_step (clock : Z → Z) (acc : ArchiveRun) (tab : OpenTab) : ArchiveRun :=
  if bool_decide (o_groupId tab ≠ 0) && bool_decide (o_groupId tab ≠ TAB_GROUP_ID_NONE)
  then mkArchiveRun
         (addArchivedTab (clock (o_id tab))
            (Some (mkArchivedTab (o_url tab) (archive_name tab) (o_groupId tab) 0))
            (run_archive acc))
         (removeTabLastActivity (o_id tab) (run_activity acc))
         (run_closed acc ++ [o_id tab])
  else acc.

Record ArchiveSettings := mkArchiveSettings {
  autoArchiveEnabled : bool;
  autoArchiveIdleMinutes : Z;
}.

(** [runAutoArchiveCheck()], every host call being answered. *)
Definition runAutoArchiveCheck (settings : ArchiveSettings) (now : Z) (clock : Z → Z)
    (stored : list (list StoredBookmark)) (stillOpen : Z → bool) (tabs : list OpenTab)
    (tabActivity : gmap Z Z) (archive : list ArchivedTab) : ArchiveRun :=
  if negb (autoArchiveEnabled settings) || bool_decide (autoArchiveIdleMinutes settings ≤ 0)
  then mkArchiveRun archive tabActivity []
  else
    let idleThresholdMillis := autoArchiveIdleMinutes settings * 60 * 1000 in
    let selected :=
      foldl (select_step now idleThresholdMillis tabActivity (bookmarkedUrls stored)
               stillOpen clock) ([], tabActivity) tabs in
    foldl (archive_step clock) (mkArchiveRun archive selected.2 []) selected.1.

(** ** The recent tabs of the background worker (message [getRecentTabs]) *)

(** [arr.slice(0, n)]: a negative [n] counts from the end. *)
Definition slice0 {A} (n : Z) (l : list A) : list A :=
  if bool_decide (n < 0) then take (length l - Z.to_nat (- n)) l else take (Z.to_nat n) l.

(** [activityData[tab.id] || 0] *)
Definition lastActivity_of (activityData : gmap Z Z) (tab : OpenTab) : Z :=
  default 0 (activityData !! o_id tab).

(** The tabs sent back, each with its [lastActivity]; [limit] is
    [message.limit], absent or a number. *)
Definition getRecentTabs (limit : option Z) (activityData : gmap Z Z) (tabs : list OpenTab)
    : list (OpenTab * Z) :=
  let tabsWithActivity :=
    (λ tab, (tab, lastActivity_of activityData tab))
      <$> filter (λ tab, o_url tab ≠ "" ∧ o_title tab ≠ "") tabs in
  let n := match limit with
           | Some l => if bool_decide (l = 0) then 5 else l
           | None => 5
           end in
  slice0 n (js_sort (λ a b, b.2 - a.2) tabsWithActivity).

(** ** Folders of [LocalStorage]

    The routines read the children of a folder and create a node when the
    one they look for is missing; the host gives the new node its id and
    date, which are arguments here, and puts it last unless an index is
    given. *)

(** [item.url] read as a condition: a URL that is not empty. *)
Definition has_url (n : BookmarkNode) : bool :=
  match node_url n with
  | Some u => negb (bool_decide (u = ""))
  | None => false
  end.

(** [getOrCreateSpaceFolder(spaceName)] on the children of the BarCat
    folder: the node returned and the children afterwards. *)
Definition getOrCreateSpaceFolder (spaceName : string) (newId : string) (now : Z)
    (children : list BookmarkNode) : BookmarkNode * list BookmarkNode :=
  match js_find (λ f, bool_decide (node_title f = spaceName)) children with
  | Some spaceFolder => (spaceFolder, children)
  | None =>
      let spaceFolder := Folder newId spaceName now [] in
      (spaceFolder, children ++ [spaceFolder])
  end.

(** [getOrCreateFavoritesFolder()] on the same children: the folder is
    created at index 0. *)
Definition getOrCreateFavoritesFolder (newId : string) (now : Z)
    (children : list BookmarkNode) : BookmarkNode * list BookmarkNode :=
  match js_find (λ f, bool_decide (node_title f = "_Favorites") && negb (has_url f))
          children with
  | Some favoritesFolder => (favoritesFolder, children)
  | None =>
      let favoritesFolder := Folder newId "_Favorites" now [] in
      (favoritesFolder, favoritesFolder :: children)
  end.

(** [addFavoriteBookmark(url, title)] on the children of the favorites
    folder.  [url] is the address of a tab, which the host stores as it is
    given. *)
Definition addFavoriteBookmark (url title : string) (newId : string) (now : Z)
    (children : list BookmarkNode) : BookmarkNode * list BookmarkNode :=
  match js_find (λ b, bool_decide (node_url b = Some url)) children with
  | Some existing => (existing, children)
  | None =>
      let bookmark := Bookmark newId title url now in
      (bookmark, children ++ [bookmark])
  end.

(** [removeFavoriteBookmark(url)]: the value returned and the children
    afterwards. *)
Definition removeFavoriteBookmark (url : string) (children : list BookmarkNode)
    : bool * list BookmarkNode :=
  match js_find (λ b, bool_decide (node_url b = Some url)) children with
  | Some bookmark => (true, remove_node (node_id bookmark) children)
  | None => (false, children)
  end.

(** An archive of two records, the newer one first. *)
Definition small_archive : list ArchivedTab :=
  [mkArchivedTab "https://b.example/" "B" 7 2000;
   mkArchivedTab "https://a.example/" "A" 5 1000].

(** The loop of [searchAndRemoveBookmark] over the children of a folder. *)
Fixpoint searchAndRemove_items (tabUrl : string) (items : list BookmarkNode)
    : option (list BookmarkNode) :=
  match items with
  | [] => None
  | item :: rest =>
      match item with
      | Bookmark _ _ u _ =>
          if bool_decide (u = tabUrl) then Some rest
          else cons item <$> searchAndRemove_items tabUrl rest
      | Folder _ _ _ _ =>
          match searchAndRemoveBookmark tabUrl item with
          | Some item' => Some (item' :: rest)
          | None => cons item <$> searchAndRemove_items tabUrl rest
          end
      end
  end.

(** A space folder with a bookmark at its root and the same address, with
    another one, in a nested folder. *)
Definition nested_folder : BookmarkNode :=
  Folder "50" "Work" 100
    [Folder "51" "Later" 110
       [Bookmark "52" "Wiki" "https://wiki.example/" 111;
        Bookmark "53" "Doc" "https://docs.example/d/1" 112];
     Bookmark "54" "Doc" "https://docs.example/d/1" 120].

(** A window for the auto-archive samples: an idle tab of group 7, the
    active tab of that group and an idle tab outside every group. *)
Definition sample_open_tabs : list OpenTab :=
  [mkOpenTab 1 "https://idle.example/" "Idle" false false 7;
   mkOpenTab 2 "https://now.example/" "Now" true false 7;
   mkOpenTab 3 "https://loose.example/" "Loose" false false TAB_GROUP_ID_NONE].

Definition archive_hourly : ArchiveSettings := mkArchiveSettings true 60.

(** The children of a favorites folder, one address saved twice. *)
Definition sample_favorites : list BookmarkNode :=
  [Bookmark "11" "Mail" "https://mail.example/" 100;
   Bookmark "12" "News" "https://news.example/" 200;
   Bookmark "13" "Mail again" "https://mail.example/" 300].

(** ** The debounce of [handleTabMove]

    The state the handler and its timer touch: the flag and the two sets it
    tests, the map [pendingTabMoves] from a tab to [{ moveInfo, timeoutId }]
    ([moveInfo] by its [toIndex]), the timers of the handler still to fire
    (id and tab), the id the next [setTimeout] returns, and the calls of
    [processTabMove] so far. *)
Record MoveDebounce := mkMoveDebounce {
  isOpeningBookmark : bool;
  syncingTabs : gset Z;
  processingTabMoves : gset Z;
  pendingTabMoves : gmap Z (Z * Z);
  moveTimers : list (Z * Z);
  nextMoveTimeoutId : Z;
  processTabMove_calls : list (Z * Z);
}.

(** [handleTabMove(tabId, moveInfo)] *)
Definition handleTabMove (tabId toIndex : Z) (st : MoveDebounce) : MoveDebounce :=
  if isOpeningBookmark st then st
  else if bool_decide (tabId ∈ syncingTabs st) then st
  else if bool_decide (tabId ∈ processingTabMoves st) then st
  else
    let cleared :=
      match pendingTabMoves st !! tabId with
      | Some existingData => filter (λ t, t.1 ≠ existingData.2) (moveTimers st)
      | None => moveTimers st
      end in
    let timeoutId := nextMoveTimeoutId st in
    mkMoveDebounce (isOpeningBookmark st) (syncingTabs st) (processingTabMoves st)
      (<[tabId := (toIndex, timeoutId)]> (pendingTabMoves st))
      (cleared ++ [(timeoutId, tabId)]) (timeoutId + 1) (processTabMove_calls st).

(** The callback of the timer [timeoutId], which the host runs once and
    forgets.  [processTabMove] hands its work to callbacks of the host and
    returns, so the tab is taken out of [processingTabMoves] before any
    other event is handled. *)
Definition move_timer_fires (timeoutId : Z) (st : MoveDebounce) : option MoveDebounce :=
  match js_find (λ t, bool_decide (t.1 = timeoutId)) (moveTimers st) with
  | None => None
  | Some timer =>
      let tabId := timer.2 in
      let live := filter (λ t, t.1 ≠ timeoutId) (moveTimers st) in
      match pendingTabMoves st !! tabId with
      | Some data =>
          Some (mkMoveDebounce (isOpeningBookmark st) (syncingTabs st)
                  (processingTabMoves st ∖ {[tabId]})
                  (delete tabId (pendingTabMoves st))
                  live (nextMoveTimeoutId st)
                  (processTabMove_calls st ++ [(tabId, data.1)]))
      | None =>
          Some (mkMoveDebounce (isOpeningBookmark st) (syncingTabs st)
                  (processingTabMoves st) (pendingTabMoves st)
                  live (nextMoveTimeoutId st) (processTabMove_calls st))
      end
  end.

(** What happens to this state: a move reported by the host, a timer of the
    handler firing, and other code setting a timer of its own or changing
    the flag and the sets the handler tests. *)
Inductive MoveEvent :=
  | TabMoved (tabId toIndex : Z)
  | MoveTimerFires (timeoutId : Z)
  | TimerSetElsewhere
  | GuardsSet (opening : bool) (syncing processing : gset Z).

Definition move_event (st : MoveDebounce) (ev : MoveEvent) : option MoveDebounce :=
  match ev with
  | TabMoved tabId toIndex => Some (handleTabMove tabId toIndex st)
  | MoveTimerFires timeoutId => move_timer_fires timeoutId st
  | TimerSetElsewhere =>
      Some (mkMoveDebounce (isOpeningBookmark st) (syncingTabs st) (processingTabMoves st)
              (pendingTabMoves st) (moveTimers st) (nextMoveTimeoutId st + 1)
              (processTabMove_calls st))
  | GuardsSet opening syncing processing =>
      Some (mkMoveDebounce opening syncing processing
              (pendingTabMoves st) (moveTimers st) (nextMoveTimeoutId st)
              (processTabMove_calls st))
  end.

Fixpoint move_events (evs : list MoveEvent) (st : MoveDebounce) : option MoveDebounce :=
  match evs with
  | [] => Some st
  | ev :: rest => move_event st ev ≫= move_events rest
  end.

(** Every timer of the handler still to fire is the one its tab's pending
    entry names, and every pending entry names such a timer. *)
Definition debounce_inv (st : MoveDebounce) : Prop :=
  NoDup (moveTimers st).*1
  ∧ (∀ t, t ∈ moveTimers st → t.1 < nextMoveTimeoutId st)
  ∧ (∀ timeoutId tabId,
       (timeoutId, tabId) ∈ moveTimers st
       ↔ ∃ toIndex, pendingTabMoves st !! tabId = Some (toIndex, timeoutId)).

(** The sidebar as it starts. *)
Definition quiet_moves : MoveDebounce := mkMoveDebounce false ∅ ∅ ∅ [] 1 [].

(** Two moves of tab 3 in a row, a timer of other code, a move of tab 4 and
    the timer of tab 3 firing. *)
Definition sample_move_events : list MoveEvent :=
  [TabMoved 3 0; TabMoved 3 2; TimerSetElsewhere; TabMoved 4 1; MoveTimerFires 2].

(** ** The temporary section of [loadTabs]

    [spaceFolder] is the folder found for the space, if any; without one
    no bookmark row is made.  The temporary tabs that get an element are
    listed in the order their callbacks start. *)
Definition temporaryRows (invert : bool) (tabs : list Tab) (represented : gset Z)
    (space : Space) : list Z :=
  filter (λ tabId, is_Some (js_find (λ t, bool_decide (tab_id t = tabId)) tabs)
                   ∧ tabId ∉ represented)
    (if invert then reverse (temporaryTabs space) else temporaryTabs space).

Definition loadTabs (parse_url : string → option (string * string)) (tabs : list Tab)
    (pinnedStatesById : gmap Z PinnedState) (invert : bool) (pinnedUrls : gset string)
    (spaceFolder : option BookmarkNode) (space : Space) : list Row * list Z :=
  let pinned :=
    match spaceFolder with
    | Some node => processBookmarkNode parse_url tabs pinnedStatesById invert pinnedUrls node
    | None => mkLoadState ∅ ∅ []
    end in
  (rows pinned, temporaryRows invert tabs (representedPinnedTabIds pinned) space).

(** * Properties *)

(** Decide a closed proposition by evaluation. *)
Ltac by_compute := refine (bool_decide_unpack _ _); vm_compute; exact I.

(** ** Array helpers *)

Example uniqPreserveOrder_ex : uniqPreserveOrder [3; 0; 5; 3; 7; 5] = [3; 5; 7].
Proof. vm_compute. reflexivity. Qed.

Lemma elem_of_uniq_loop seen ids x :
  x ∈ uniq_loop seen ids ↔ x ∈ ids ∧ x ≠ 0 ∧ x ∉ seen.
Proof.
  revert seen. induction ids as [|y r IH]; intros seen; simpl.
  - rewrite elem_of_nil. tauto.
  - repeat case_bool_decide; rewrite ?elem_of_cons, ?IH,
      ?not_elem_of_union, ?not_elem_of_singleton;
      destruct (decide (x = y)); naive_solver.
Qed.

Lemma elem_of_uniqPreserveOrder ids x :
  x ∈ uniqPreserveOrder ids ↔ x ∈ ids ∧ x ≠ 0.
Proof. unfold uniqPreserveOrder. rewrite elem_of_uniq_loop. set_solver. Qed.

Lemma NoDup_uniq_loop seen ids : NoDup (uniq_loop seen ids).
Proof.
  revert seen. induction ids as [|y r IH]; intros seen; simpl.
  - constructor.
  - repeat case_bool_decide; auto.
    constructor; auto. rewrite elem_of_uniq_loop. set_solver.
Qed.

Lemma NoDup_uniqPreserveOrder ids : NoDup (uniqPreserveOrder ids).
Proof. apply NoDup_uniq_loop. Qed.

Lemma uniq_loop_id seen ids :
  NoDup ids → 0 ∉ ids → (∀ x, x ∈ ids → x ∉ seen) → uniq_loop seen ids = ids.
Proof.
  revert seen. induction ids as [|y r IH]; intros seen Hnd H0 Hs; simpl; [done|].
  apply NoDup_cons in Hnd as [Hy Hnd].
  rewrite bool_decide_eq_false_2 by set_solver.
  rewrite bool_decide_eq_false_2 by set_solver.
  f_equal. apply IH; set_solver.
Qed.

Lemma uniqPreserveOrder_id ids :
  NoDup ids → 0 ∉ ids → uniqPreserveOrder ids = ids.
Proof. intros. apply uniq_loop_id; set_solver. Qed.

Lemma uniqPreserveOrder_idemp ids :
  uniqPreserveOrder (uniqPreserveOrder ids) = uniqPreserveOrder ids.
Proof.
  apply uniqPreserveOrder_id; [apply NoDup_uniqPreserveOrder|].
  rewrite elem_of_uniqPreserveOrder. tauto.
Qed.

(** A list sorted for the comparator is left as it is by [js_sort]. *)
Lemma js_sort_sorted {A} (cmp : A → A → Z) (l : list A) :
  StronglySorted (λ a b, cmp a b ≤ 0) l → js_sort cmp l = l.
Proof.
  induction 1 as [|x l Hs IH Hx]; [done|].
  change (js_sort cmp (x :: l)) with (js_insert cmp x (js_sort cmp l)).
  rewrite IH. destruct l as [|y r]; simpl; [done|].
  rewrite bool_decide_eq_true_2; [done|]. by apply Forall_cons in Hx as [? _].
Qed.


(** [Array.prototype.sort] gives a permutation, sorted for a comparator that
    is total and transitive. *)

Section JsSort.
Context {A : Type} (cmp : A → A → Z).
Hypothesis cmp_total : ∀ a b, cmp a b ≤ 0 ∨ cmp b a ≤ 0.
Hypothesis cmp_trans : ∀ a b c, cmp a b ≤ 0 → cmp b c ≤ 0 → cmp a c ≤ 0.

Lemma js_insert_perm x l : js_insert cmp x l ≡ₚ x :: l.
Proof.
  induction l as [|y r IH]; simpl; [done|]. case_bool_decide; [done|].
  rewrite IH. apply Permutation_swap.
Qed.

Lemma js_sort_perm l : js_sort cmp l ≡ₚ l.
Proof.
  induction l as [|x r IH]; [done|].
  change (js_sort cmp (x :: r)) with (js_insert cmp x (js_sort cmp r)).
  by rewrite js_insert_perm, IH.
Qed.

Lemma js_insert_sorted x l :
  StronglySorted (λ a b, cmp a b ≤ 0) l →
  StronglySorted (λ a b, cmp a b ≤ 0) (js_insert cmp x l).
Proof.
  induction 1 as [|y r Hs IH Hy]; simpl; [repeat constructor|].
  case_bool_decide as Hxy.
  - constructor; [by constructor|]. constructor; [done|].
    eapply Forall_impl; [exact Hy|]. intros z Hz. by eapply cmp_trans.
  - constructor; [done|]. rewrite js_insert_perm. constructor; [|done].
    destruct (cmp_total x y); [done|lia].
Qed.

Lemma js_sort_strongly_sorted l : StronglySorted (λ a b, cmp a b ≤ 0) (js_sort cmp l).
Proof.
  induction l as [|x r IH]; [constructor|].
  change (js_sort cmp (x :: r)) with (js_insert cmp x (js_sort cmp r)).
  by apply js_insert_sorted.
Qed.
End JsSort.

Lemma StronglySorted_weaken {A} (R R' : relation A) l :
  (∀ a b, R a b → R' a b) → StronglySorted R l → StronglySorted R' l.
Proof.
  intros HR. induction 1 as [|x l Hs IH Hx]; constructor; [done|].
  eapply Forall_impl; [exact Hx|]. intros y. apply HR.
Qed.


(** [Array.prototype.find] *)

Lemma js_find_Some {A} (p : A → bool) l x :
  js_find p l = Some x → x ∈ l ∧ p x = true.
Proof.
  induction l as [|y r IH]; simpl; [done|]. destruct (p y) eqn:Hy.
  - intros [= ->]. split; [left|done].
  - intros [Hx Hp]%IH. split; [by right|done].
Qed.

Lemma js_find_None {A} (p : A → bool) l :
  js_find p l = None ↔ ∀ x, x ∈ l → p x = false.
Proof.
  induction l as [|y r IH]; simpl.
  - split; [|done]. intros _ x Hx. by apply elem_of_nil in Hx.
  - destruct (p y) eqn:Hy.
    + split; [done|]. intros H. specialize (H y (list_elem_of_here _ _)). congruence.
    + rewrite IH. split.
      * intros H x [->|Hx]%elem_of_cons; [done|by apply H].
      * intros H x Hx. apply H. by right.
Qed.

Lemma js_find_is_Some {A} (p : A → bool) l x :
  x ∈ l → p x = true → ∃ y, js_find p l = Some y.
Proof.
  intros Hx Hp. destruct (js_find p l) as [y|] eqn:Hf; [by exists y|].
  rewrite js_find_None in Hf. rewrite (Hf x Hx) in Hp. done.
Qed.


(** ** The host tab strip *)

Lemma report_from_index_ge i w : Forall (λ t, i ≤ index t) (report_from i w).
Proof.
  revert i. induction w as [|t r IH]; intros i; simpl; constructor; simpl; [lia|].
  eapply Forall_impl; [apply IH|]. simpl. intros; lia.
Qed.

Lemma report_from_sorted i w :
  StronglySorted (λ a b, index a - index b ≤ 0) (report_from i w).
Proof.
  revert i. induction w as [|t r IH]; intros i; simpl; constructor; [apply IH|].
  eapply Forall_impl; [apply (report_from_index_ge (i + 1))|]. simpl. intros; lia.
Qed.

Lemma StronglySorted_filter {A} (R : relation A) (P : A → Prop) `{∀ x, Decision (P x)} l :
  StronglySorted R l → StronglySorted R (filter P l).
Proof.
  induction 1 as [|x l Hs IH Hx]; [constructor|].
  rewrite filter_cons. case_decide; [|done].
  constructor; [done|]. apply Forall_forall. intros y Hy%list_elem_of_filter. rewrite Forall_forall in Hx. apply Hx. tauto.
Qed.

Lemma report_from_filter_ids i g w :
  tab_id <$> filter (λ t, pinned t = false) (filter (λ t, groupId t = g) (report_from i w))
  = h_id <$> filter (in_group g) w.
Proof.
  revert i. induction w as [|t r IH]; intros i; simpl; [done|].
  rewrite (filter_cons (in_group g)).
  rewrite (filter_cons (λ t, groupId t = g)). simpl.
  destruct (decide (in_group g t)) as [[Hg Hp]|Hn].
  - rewrite decide_True by done. rewrite filter_cons. simpl.
    rewrite decide_True by done. simpl. by rewrite IH.
  - destruct (decide (h_groupId t = g)) as [Hg|Hg]; [|apply IH].
    rewrite filter_cons. simpl. rewrite decide_False; [apply IH|].
    intros Hp. apply Hn. by split.
Qed.

Lemma host_group_order_alt w g :
  host_group_order w g = h_id <$> filter (in_group g) w.
Proof.
  unfold host_group_order, tabs_query_groupId, tabs_query_all.
  rewrite js_sort_sorted; [apply report_from_filter_ids|].
  apply StronglySorted_filter, report_from_sorted.
Qed.

Lemma filter_none {A} (P : A → Prop) `{∀ x, Decision (P x)} (l : list A) :
  (∀ x, x ∈ l → ¬ P x) → filter P l = [].
Proof.
  induction l as [|x l IH]; intros Hn; [done|].
  rewrite filter_cons_False by (apply Hn; left). apply IH. intros y Hy. apply Hn. by right.
Qed.

Lemma filter_all {A} (P : A → Prop) `{∀ x, Decision (P x)} (l : list A) :
  (∀ x, x ∈ l → P x) → filter P l = l.
Proof.
  induction l as [|x l IH]; intros Hn; [done|].
  rewrite filter_cons_True by (apply Hn; left). f_equal. apply IH. intros y Hy. apply Hn. by right.
Qed.

Lemma js_find_host_id w t :
  NoDup (h_id <$> w) → t ∈ w → js_find (λ u, bool_decide (h_id u = h_id t)) w = Some t.
Proof.
  induction w as [|u r IH]; intros Hnd Ht; [by apply elem_of_nil in Ht|].
  rewrite fmap_cons in Hnd. apply NoDup_cons in Hnd as [Hu Hnd]. simpl.
  apply elem_of_cons in Ht as [->|Ht].
  - by rewrite bool_decide_eq_true_2.
  - rewrite bool_decide_eq_false_2; [by apply IH|].
    intros Heq. apply Hu. rewrite Heq. by apply list_elem_of_fmap_2.
Qed.

Lemma moved_block g (w : list HostTab) (ids : list Z) :
  NoDup (h_id <$> w) →
  (∀ x, x ∈ ids → x ∈ h_id <$> filter (in_group g) w) →
  let moved : list HostTab := omap (λ i, js_find (λ t, bool_decide (h_id t = i)) w) ids in
  filter (in_group g) moved = moved ∧ h_id <$> moved = ids.
Proof.
  intros Hnd. induction ids as [|i r IH]; intros Hin; simpl; [done|].
  assert (Hi : i ∈ h_id <$> filter (in_group g) w) by (apply Hin; left).
  apply list_elem_of_fmap in Hi as (t & Hi & Ht). subst i.
  apply list_elem_of_filter in Ht as [Hg Ht].
  rewrite js_find_host_id by done. simpl.
  destruct IH as [IH1 IH2]; [intros x Hx; apply Hin; by right|].
  rewrite filter_cons_True by done. split; by f_equal.
Qed.

Lemma host_group_order_move ids start w g :
  NoDup (h_id <$> w) →
  (∀ x, x ∈ ids ↔ x ∈ host_group_order w g) →
  host_group_order (tabs_move ids start w) g = ids.
Proof.
  intros Hnd Hids. rewrite host_group_order_alt. unfold tabs_move.
  assert (Hrest : ∀ t, t ∈ filter (λ t, h_id t ∉ ids) w → ¬ in_group g t).
  { intros t [Hno Ht]%list_elem_of_filter Hg. apply Hno, Hids.
    rewrite host_group_order_alt. apply list_elem_of_fmap_2.
    by apply list_elem_of_filter. }
  rewrite !filter_app.
  rewrite (filter_none _ (take _ _)), (filter_none _ (drop _ _)).
  - rewrite app_nil_l, app_nil_r.
    destruct (moved_block g w ids Hnd) as [H1 H2].
    { intros x Hx. rewrite <- host_group_order_alt. by apply Hids. }
    by rewrite H1.
  - intros t Ht. apply Hrest. eapply subseteq_drop, Ht.
  - intros t Ht. apply Hrest. eapply subseteq_take, Ht.
Qed.

(** ** The desired order *)

Lemma isSameOrder_spec (current desired : list Z) :
  isSameOrder current desired = true ↔ current = desired.
Proof.
  unfold isSameOrder. rewrite andb_true_iff, bool_decide_eq_true. split.
  - intros [Hlen Hall]. apply Is_true_true_2, forallb_True in Hall.
    rewrite Forall_forall in Hall.
    apply list_eq_same_length with (length current); [done|done|].
    intros i x y _ Hx Hy.
    specialize (Hall (i, x) (elem_of_lookup_imap_2 pair _ _ _ Hx)).
    apply bool_decide_unpack in Hall. simpl in Hall. congruence.
  - intros ->. split; [done|]. apply Is_true_true_1, forallb_True, Forall_forall.
    intros p (i & x & -> & Hx)%elem_of_lookup_imap_1. by apply bool_decide_pack.
Qed.

Section Desired.
Variables (present : gset Z) (space : Space).

Lemma elem_of_desiredBookmarks x :
  x ∈ desiredBookmarks present space ↔ x ∈ spaceBookmarks space ∧ x ∈ present ∧ x ≠ 0.
Proof.
  unfold desiredBookmarks. rewrite elem_of_uniqPreserveOrder, list_elem_of_filter. tauto.
Qed.

Lemma elem_of_desiredTemps x :
  x ∈ desiredTemps present space ↔
  x ∈ temporaryTabs space ∧ x ∈ present ∧ (x ∉ spaceBookmarks space) ∧ x ≠ 0.
Proof.
  unfold desiredTemps. rewrite elem_of_uniqPreserveOrder, list_elem_of_filter.
  rewrite elem_of_desiredBookmarks. tauto.
Qed.

Lemma desiredGroupOrder_app :
  desiredGroupOrder present space
  = desiredBookmarks present space ++ desiredTemps present space.
Proof.
  unfold desiredGroupOrder. apply uniqPreserveOrder_id.
  - apply NoDup_app. split; [apply NoDup_uniqPreserveOrder|].
    split; [|apply NoDup_uniqPreserveOrder].
    intros x. rewrite elem_of_desiredBookmarks, elem_of_desiredTemps. tauto.
  - rewrite elem_of_app, elem_of_desiredBookmarks, elem_of_desiredTemps. tauto.
Qed.

Lemma elem_of_desiredGroupOrder x :
  x ∈ desiredGroupOrder present space ↔
  x ≠ 0 ∧ x ∈ present ∧ (x ∈ spaceBookmarks space ∨ x ∈ temporaryTabs space).
Proof.
  rewrite desiredGroupOrder_app, elem_of_app,
    elem_of_desiredBookmarks, elem_of_desiredTemps.
  destruct (decide (x ∈ spaceBookmarks space)); tauto.
Qed.

Lemma NoDup_desiredGroupOrder : NoDup (desiredGroupOrder present space).
Proof. apply NoDup_uniqPreserveOrder. Qed.
End Desired.

(** Two sets of present ids with the same members give the same order. *)
Lemma desiredGroupOrder_present (l1 l2 : list Z) space :
  (∀ x, x ∈ l1 ↔ x ∈ l2) →
  desiredGroupOrder (list_to_set l1) space = desiredGroupOrder (list_to_set l2) space.
Proof.
  intros H. replace (list_to_set l1 : gset Z) with (list_to_set l2 : gset Z); [done|].
  apply set_eq. intros x. rewrite !elem_of_list_to_set. by rewrite H.
Qed.

(** ** Running the reconcile *)

Lemma find_space_update spaceId f l space :
  (∀ s, sid (f s) = sid s) →
  find_space spaceId l = Some space →
  find_space spaceId (update_space spaceId f l) = Some (f space).
Proof.
  intros Hf. unfold find_space. induction l as [|s r IH]; simpl; [done|].
  case_bool_decide as Hs; simpl.
  - intros [= ->]. by rewrite bool_decide_eq_true_2 by (by rewrite Hf).
  - intros Hr. rewrite bool_decide_eq_false_2 by done. by apply IH.
Qed.

Lemma sid_take_chrome_order m cur s : sid (take_chrome_order m cur s) = sid s.
Proof. unfold take_chrome_order. repeat case_match; done. Qed.

Lemma sid_apply_source opts cur s : sid (apply_source opts cur s) = sid s.
Proof. unfold apply_source. case_match; [done|apply sid_take_chrome_order]. Qed.

(** The body, for a space that is found and a group that holds an unpinned
    tab. *)
Lemma reconcile_unfold spaceId opts host st space :
  find_space spaceId (spaces st) = Some space → spaceId ≠ 0 →
  host_group_order (window st) spaceId ≠ [] →
  let cur := host_group_order (window st) spaceId in
  let space1 := apply_source opts cur space in
  ∃ start,
    reconcileSpaceTabOrdering spaceId opts host st
    = finish_step spaceId (desiredTemps (list_to_set cur) space1)
        (move_step spaceId opts host cur (desiredGroupOrder (list_to_set cur) space1)
           start (source_step spaceId opts cur st)).
Proof.
  intros Hfind Hid Hcur. unfold reconcileSpaceTabOrdering, host_group_order in *.
  rewrite Hfind, bool_decide_eq_false_2 by done.
  destruct (filter _ (js_sort _ _)) as [|first rest]; [done|]. by exists (index first).
Qed.

Lemma source_step_find spaceId opts cur st space :
  find_space spaceId (spaces st) = Some space →
  find_space spaceId (spaces (source_step spaceId opts cur st))
  = Some (apply_source opts cur space).
Proof.
  intros Hfind. unfold source_step, apply_source.
  destruct (source opts) eqn:Hs; simpl; [done|].
  apply (find_space_update _ (λ s, match source opts with
          | arcify => s | chrome => take_chrome_order (movedTabId opts) cur s end)) in Hfind.
  - by rewrite Hs in Hfind.
  - intros s. rewrite Hs. apply sid_take_chrome_order.
Qed.

Lemma source_step_frame spaceId opts cur st :
  window (source_step spaceId opts cur st) = window st
  ∧ moveCalls (source_step spaceId opts cur st) = moveCalls st
  ∧ timers (source_step spaceId opts cur st) = timers st
  ∧ nextTimeoutId (source_step spaceId opts cur st) = nextTimeoutId st
  ∧ reconcileRetryBySpace (source_step spaceId opts cur st) = reconcileRetryBySpace st.
Proof. unfold source_step. by destruct (source opts). Qed.

Lemma scheduleReconcileRetry_frame spaceId o a d st :
  spaces (scheduleReconcileRetry spaceId o a d st) = spaces st
  ∧ window (scheduleReconcileRetry spaceId o a d st) = window st
  ∧ moveCalls (scheduleReconcileRetry spaceId o a d st) = moveCalls st.
Proof.
  unfold scheduleReconcileRetry, setTimeout, clearTimeout. simpl.
  repeat case_match; done.
Qed.

Lemma on_move_error_frame spaceId src m a desired e st :
  spaces (on_move_error spaceId src m a desired e st).1 = spaces st
  ∧ window (on_move_error spaceId src m a desired e st).1 = window st
  ∧ moveCalls (on_move_error spaceId src m a desired e st).1 = moveCalls st.
Proof.
  unfold on_move_error. destruct (str_includes _ _); [case_bool_decide|]; cbn [fst]; try done.
  by destruct (scheduleReconcileRetry_frame spaceId (mkOpts src m 0) (a + 1)
    (Z.min 1200 (200 + (a + 1) * 100)) (unmarkTabsSyncingToChrome desired st))
    as (-> & -> & ->).
Qed.

Lemma move_step_spaces spaceId opts host cur desired start st :
  spaces (move_step spaceId opts host cur desired start st).1 = spaces st.
Proof.
  unfold move_step. case_match; [done|]. destruct host; [done|].
  by rewrite (proj1 (on_move_error_frame _ _ _ _ _ _ _)).
Qed.

Lemma finish_step_frame spaceId temps r :
  spaces (finish_step spaceId temps r).1 = spaces r.1
  ∧ window (finish_step spaceId temps r).1 = window r.1
  ∧ moveCalls (finish_step spaceId temps r).1 = moveCalls r.1
  ∧ timers (finish_step spaceId temps r).1 = timers r.1
  ∧ nextTimeoutId (finish_step spaceId temps r).1 = nextTimeoutId r.1
  ∧ reconcileRetryBySpace (finish_step spaceId temps r).1 = reconcileRetryBySpace r.1.
Proof.
  unfold finish_step, update_temp_dom. destruct r as [s [|e]]; simpl; [|done].
  by case_match.
Qed.

(** No move is issued when the desired order is the current one. *)
Lemma move_step_same spaceId opts host cur start st :
  move_step spaceId opts host cur cur start st = (st, Returned).
Proof. unfold move_step. by rewrite (proj2 (isSameOrder_spec cur cur)). Qed.

(** An accepted move, when the orders differ. *)
Lemma move_step_accepted spaceId opts cur desired start st :
  cur ≠ desired →
  let r := move_step spaceId opts MoveAccepted cur desired start st in
  r.2 = Returned
  ∧ window r.1 = tabs_move desired start (window st)
  ∧ moveCalls r.1 = (desired, start) :: moveCalls st.
Proof.
  intros Hne. unfold move_step.
  destruct (isSameOrder cur desired) eqn:Hs; [by apply isSameOrder_spec in Hs|done].
Qed.

(** ** The host-initiated block *)

Lemma findIndex_from_none {A} (p : A → bool) i l :
  (∀ x, x ∈ l → p x = false) → findIndex_from p i l = -1.
Proof.
  revert i. induction l as [|x r IH]; intros i Hp; simpl; [done|].
  rewrite Hp by left. apply IH. intros y Hy. apply Hp. by right.
Qed.

Lemma findIndex_from_app_skip {A} (p : A → bool) i l1 l2 :
  (∀ x, x ∈ l1 → p x = false) →
  findIndex_from p i (l1 ++ l2) = findIndex_from p (i + Z.of_nat (length l1)) l2.
Proof.
  revert i. induction l1 as [|x r IH]; intros i Hp; simpl.
  - f_equal. lia.
  - rewrite Hp by left. rewrite IH by (intros y Hy; apply Hp; by right). f_equal. lia.
Qed.

Lemma findIndex_from_app_hit {A} (p : A → bool) i l1 l2 x :
  x ∈ l1 → p x = true →
  i ≤ findIndex_from p i (l1 ++ l2) < i + Z.of_nat (length l1).
Proof.
  revert i. induction l1 as [|y r IH]; intros i Hx Hp; [by apply elem_of_nil in Hx|].
  simpl. destruct (p y) eqn:Hy; [lia|].
  apply elem_of_cons in Hx as [->|Hx]; [congruence|].
  specialize (IH (i + 1) Hx Hp). lia.
Qed.

Lemma set_temporaryTabs_same s : set_temporaryTabs (temporaryTabs s) s = s.
Proof. by destruct s. Qed.

Lemma take_chrome_order_temps m cur s :
  temporaryTabs (take_chrome_order m cur s)
  = uniqPreserveOrder (filter (λ id, id ∉ spaceBookmarks s) cur).
Proof.
  assert (Hf : filter (λ id, id ∉ (list_to_set (spaceBookmarks s) : gset Z)) cur
               = filter (λ id, id ∉ spaceBookmarks s) cur).
  { apply list_filter_iff. intros x. by rewrite elem_of_list_to_set. }
  unfold take_chrome_order. rewrite Hf. repeat case_match; done.
Qed.

Lemma take_chrome_order_bookmarks_elem m cur s x :
  x ∈ spaceBookmarks (take_chrome_order m cur s) ↔ x ∈ spaceBookmarks s.
Proof.
  unfold take_chrome_order. repeat case_match; simpl; try done.
  rewrite elem_of_app, list_elem_of_filter, list_elem_of_singleton.
  match goal with H : bool_decide (_ ≠ 0) && _ = true |- _ =>
    apply andb_true_iff in H as [_ Hz%bool_decide_eq_true] end.
  rewrite elem_of_list_to_set in Hz.
  destruct (decide (x = z)); naive_solver.
Qed.

(** Once the host order is the desired one, the block changes nothing. *)
Lemma take_chrome_order_settled_gen m cur s1 :
  temporaryTabs s1 = uniqPreserveOrder (filter (λ id, id ∉ spaceBookmarks s1) cur) →
  let present : gset Z := list_to_set cur in
  take_chrome_order m (desiredBookmarks present s1 ++ desiredTemps present s1) s1 = s1.
Proof.
  intros Ht present.
  set (db := desiredBookmarks present s1). set (dt := desiredTemps present s1).
  assert (Hdb : ∀ x, x ∈ db → x ∈ spaceBookmarks s1).
  { intros x Hx. by apply elem_of_desiredBookmarks in Hx as (? & _). }
  assert (Hdt : ∀ x, x ∈ dt → x ∉ spaceBookmarks s1).
  { intros x Hx. by apply elem_of_desiredTemps in Hx as (_ & _ & ? & _). }
  assert (Htemps : dt = temporaryTabs s1).
  { unfold dt, desiredTemps. rewrite filter_all.
    - rewrite Ht. apply uniqPreserveOrder_idemp.
    - intros x Hx. rewrite Ht in Hx.
      apply elem_of_uniqPreserveOrder in Hx as [[Hb Hc]%list_elem_of_filter H0].
      split; [by apply elem_of_list_to_set|].
      rewrite elem_of_desiredBookmarks. tauto. }
  assert (Hfilter : filter (λ id, id ∉ (list_to_set (spaceBookmarks s1) : gset Z)) (db ++ dt) = dt).
  { rewrite filter_app, filter_none, filter_all; [done| |].
    - intros x Hx. rewrite elem_of_list_to_set. by apply Hdt.
    - intros x Hx. rewrite elem_of_list_to_set. intros Hn. by apply Hn, Hdb. }
  unfold take_chrome_order at 1. rewrite Hfilter.
  assert (Hu : uniqPreserveOrder dt = temporaryTabs s1).
  { rewrite <- Htemps. apply uniqPreserveOrder_idemp. }
  rewrite Hu, set_temporaryTabs_same.
  destruct m as [z|]; [|done].
  destruct (bool_decide (z ≠ 0) && bool_decide (z ∈ _)) eqn:Hz; [|done].
  apply andb_true_iff in Hz as [_ Hz%bool_decide_eq_true]. rewrite elem_of_list_to_set in Hz.
  match goal with |- (if ?c then _ else _) = _ => destruct c eqn:Hc end; [|done].
  exfalso.
  apply andb_true_iff in Hc as [Hc H3%bool_decide_eq_true].
  apply andb_true_iff in Hc as [H1%bool_decide_eq_true H2%bool_decide_eq_true].
  unfold indexOf, findIndex in *.
  rewrite (findIndex_from_app_skip _ 0 db dt) in H1, H3.
  2,3: intros x Hx; apply bool_decide_eq_false; rewrite elem_of_list_to_set;
       intros Hn; by apply Hn, Hdb.
  destruct dt as [|t dt'] eqn:Edt; [done|].
  simpl in H3. rewrite bool_decide_eq_true_2 in H3.
  2: { rewrite elem_of_list_to_set. apply Hdt. left. }
  destruct (decide (z ∈ db)) as [Hin|Hin].
  - pose proof (findIndex_from_app_hit (λ y, bool_decide (y = z)) 0 db (t :: dt') z Hin
      (bool_decide_eq_true_2 _ eq_refl)). lia.
  - apply H2. apply findIndex_from_none. intros x Hx. apply bool_decide_eq_false.
    intros ->. apply elem_of_app in Hx as [Hx|Hx]; [done|]. by apply (Hdt z).
Qed.


Lemma take_chrome_order_settled m cur s :
  let s1 := take_chrome_order m cur s in
  let present : gset Z := list_to_set cur in
  take_chrome_order m (desiredBookmarks present s1 ++ desiredTemps present s1) s1 = s1.
Proof.
  intros s1 present. apply take_chrome_order_settled_gen.
  unfold s1. rewrite take_chrome_order_temps. f_equal.
  apply list_filter_iff. intros x. by rewrite take_chrome_order_bookmarks_elem.
Qed.

(** ** Order after a reconcile *)

Lemma desired_covers opts cur space :
  0 ∉ cur →
  source opts = chrome ∨ tracked space cur →
  ∀ x, x ∈ desiredGroupOrder (list_to_set cur) (apply_source opts cur space) ↔ x ∈ cur.
Proof.
  intros H0 Hsrc x. rewrite elem_of_desiredGroupOrder, elem_of_list_to_set.
  split; [tauto|]. intros Hx.
  assert (x ≠ 0) by (intros ->; done). split; [done|]. split; [done|].
  unfold apply_source. destruct (source opts) eqn:Hs.
  - destruct Hsrc as [|Ht]; [done|]. unfold tracked in Ht.
    rewrite Forall_forall in Ht. by apply Ht.
  - rewrite take_chrome_order_bookmarks_elem, take_chrome_order_temps.
    rewrite elem_of_uniqPreserveOrder, list_elem_of_filter.
    destruct (decide (x ∈ spaceBookmarks space)); tauto.
Qed.

Section Accepted.
Variables (spaceId : Z) (opts : Opts) (st : State) (space : Space).
Hypothesis Hfind : find_space spaceId (spaces st) = Some space.
Hypothesis Hid : spaceId ≠ 0.
Hypothesis Hnd : NoDup (h_id <$> window st).
Hypothesis Hcur : host_group_order (window st) spaceId ≠ [].
Hypothesis H0 : 0 ∉ host_group_order (window st) spaceId.
Hypothesis Htracked :
  source opts = chrome ∨ tracked space (host_group_order (window st) spaceId).

Lemma reconcile_accepted :
  let cur := host_group_order (window st) spaceId in
  let space1 := apply_source opts cur space in
  let r := reconcileSpaceTabOrdering spaceId opts MoveAccepted st in
  r.2 = Returned
  ∧ find_space spaceId (spaces r.1) = Some space1
  ∧ host_group_order (window r.1) spaceId = desiredGroupOrder (list_to_set cur) space1.
Proof.
  intros cur space1 r.
  destruct (reconcile_unfold spaceId opts MoveAccepted st space Hfind Hid Hcur)
    as [start Hr].
  fold cur in Hr. fold space1 in Hr. unfold r. rewrite Hr. clear Hr r.
  set (desired := desiredGroupOrder (list_to_set cur) space1).
  set (st1 := source_step spaceId opts cur st).
  pose proof (source_step_frame spaceId opts cur st) as (Hw & _).
  pose proof (source_step_find spaceId opts cur st space Hfind) as Hf1.
  fold st1 in Hw, Hf1. fold space1 in Hf1.
  pose proof (move_step_spaces spaceId opts MoveAccepted cur desired start st1) as Hsp.
  destruct (decide (cur = desired)) as [Heq|Hne].
  - rewrite <- Heq in *. rewrite move_step_same in *. unfold finish_step. simpl.
    pose proof (finish_step_frame spaceId (desiredTemps (list_to_set cur) space1)
                  (st1, Returned)) as (Hs & Hw' & _).
    unfold finish_step in Hs, Hw'. simpl in Hs, Hw'.
    rewrite Hs, Hw', Hw. done.
  - pose proof (move_step_accepted spaceId opts cur desired start st1 Hne)
      as (Hc & Hw2 & _).
    destruct (move_step spaceId opts MoveAccepted cur desired start st1) as [st2 c] eqn:Hm.
    simpl in Hc, Hw2, Hsp. subst c.
    pose proof (finish_step_frame spaceId (desiredTemps (list_to_set cur) space1)
                  (st2, Returned)) as (Hs & Hw' & _).
    unfold finish_step in *. simpl in *.
    rewrite Hs, Hw', Hsp, Hw2, Hw. split; [done|]. split; [done|].
    apply host_group_order_move; [done|].
    apply desired_covers; done.
Qed.
End Accepted.

Lemma settled_order_desired cur space :
  0 ∉ cur →
  desiredGroupOrder (list_to_set cur) space = settled_order cur space.
Proof.
  intros H0. rewrite desiredGroupOrder_app. unfold settled_order. f_equal.
  unfold desiredTemps. f_equal. apply list_filter_iff. intros x.
  rewrite elem_of_desiredBookmarks, elem_of_list_to_set.
  split; [|tauto]. intros [Hx Hn]. split; [done|]. intros Hb. apply Hn.
  split; [done|]. split; [done|]. by intros ->.
Qed.

Lemma settled_order_present l1 l2 space :
  (∀ x, x ∈ l1 ↔ x ∈ l2) → settled_order l1 space = settled_order l2 space.
Proof.
  intros H. unfold settled_order.
  replace (list_to_set l1 : gset Z) with (list_to_set l2 : gset Z); [done|].
  apply set_eq. intros x. rewrite !elem_of_list_to_set. by rewrite H.
Qed.

(** C1 (amended): when every unpinned tab of the group is tracked by the
    space (always so when the host initiated the reorder) and the host
    accepts the move, the host order of the group's tabs that are not
    host-pinned is, after the call, the bookmark array followed by the
    temporary array without the ids that are bookmark ids, each filtered to
    the ids present in the group and deduplicated keeping first
    occurrences.  Host-pinned tabs are not part of that order. *)
Theorem reconcile_host_order spaceId opts st space :
  find_space spaceId (spaces st) = Some space →
  spaceId ≠ 0 →
  NoDup (h_id <$> window st) →
  host_group_order (window st) spaceId ≠ [] →
  0 ∉ host_group_order (window st) spaceId →
  source opts = chrome ∨ tracked space (host_group_order (window st) spaceId) →
  let r := reconcileSpaceTabOrdering spaceId opts MoveAccepted st in
  r.2 = Returned
  ∧ ∃ space',
      find_space spaceId (spaces r.1) = Some space'
      ∧ host_group_order (window r.1) spaceId
        = settled_order (host_group_order (window r.1) spaceId) space'
      ∧ ∀ x, x ∈ host_group_order (window r.1) spaceId →
             ∃ t, t ∈ window r.1 ∧ h_id t = x ∧ h_pinned t = false ∧ h_groupId t = spaceId.
Proof.
  intros Hfind Hid Hnd Hcur H0 Htr r.
  destruct (reconcile_accepted spaceId opts st space Hfind Hid Hnd Hcur H0 Htr)
    as (Hc & Hf & Ho).
  fold r in Hc, Hf, Ho. split; [done|].
  eexists. split; [exact Hf|]. split.
  - rewrite Ho at 1. rewrite settled_order_desired by done.
    apply settled_order_present. intros x. rewrite Ho. symmetry.
    by apply desired_covers.
  - intros x. rewrite host_group_order_alt.
    intros (t & -> & [[Hg Hp] Ht]%list_elem_of_filter)%list_elem_of_fmap.
    by exists t.
Qed.

(** C2 (amended): under the same conditions, a second call right after a
    call whose move the host accepted issues no host move: it finds the
    desired order equal to the host order. *)
Theorem reconcile_twice_no_move spaceId opts host2 st space :
  find_space spaceId (spaces st) = Some space →
  spaceId ≠ 0 →
  NoDup (h_id <$> window st) →
  host_group_order (window st) spaceId ≠ [] →
  0 ∉ host_group_order (window st) spaceId →
  source opts = chrome ∨ tracked space (host_group_order (window st) spaceId) →
  let st1 := (reconcileSpaceTabOrdering spaceId opts MoveAccepted st).1 in
  let r2 := reconcileSpaceTabOrdering spaceId opts host2 st1 in
  moveCalls r2.1 = moveCalls st1
  ∧ window r2.1 = window st1
  ∧ spaces r2.1 = spaces st1
  ∧ r2.2 = Returned.
Proof.
  intros Hfind Hid Hnd Hcur H0 Htr st1 r2.
  destruct (reconcile_accepted spaceId opts st space Hfind Hid Hnd Hcur H0 Htr)
    as (_ & Hf & Ho).
  fold st1 in Hf, Ho.
  set (cur := host_group_order (window st) spaceId) in *.
  set (space1 := apply_source opts cur space) in *.
  set (desired := desiredGroupOrder (list_to_set cur) space1) in *.
  pose proof (desired_covers opts cur space H0 Htr) as Hcov.
  fold space1 in Hcov. fold desired in Hcov.
  assert (Hd : desired ≠ []).
  { destruct cur as [|c cur'] eqn:Ec; [done|].
    intros Hd. assert (c ∈ desired) as Hc by (apply Hcov; left).
    rewrite Hd in Hc. by apply elem_of_nil in Hc. }
  assert (Hcur1 : host_group_order (window st1) spaceId ≠ []) by (by rewrite Ho).
  destruct (reconcile_unfold spaceId opts host2 st1 space1 Hf Hid Hcur1) as [start Hr].
  unfold r2. rewrite Hr. clear Hr. rewrite Ho.
  assert (Hs : apply_source opts desired space1 = space1).
  { unfold apply_source. destruct (source opts) eqn:Hsrc; [done|].
    unfold desired. rewrite desiredGroupOrder_app.
    unfold space1, apply_source. rewrite Hsrc. apply take_chrome_order_settled. }
  rewrite Hs.
  rewrite (desiredGroupOrder_present desired cur space1 Hcov). fold desired.
  rewrite move_step_same.
  pose proof (finish_step_frame spaceId (desiredTemps (list_to_set desired) space1)
                (source_step spaceId opts desired st1, Returned)) as (Hsp & Hw & Hm & _).
  pose proof (source_step_frame spaceId opts desired st1) as (Hw1 & Hm1 & _).
  cbn [fst] in Hsp, Hw, Hm.
  rewrite Hsp, Hw, Hm, Hw1, Hm1. repeat split; try done.
  - unfold source_step. destruct (source opts) eqn:Hsrc; [done|]. simpl.
    clear -Hf Hs. revert Hf. unfold find_space. generalize (spaces st1).
    induction l as [|s r IH]; simpl; [done|].
    case_bool_decide.
    + intros [= ->]. by rewrite Hs.
    + intros Hr. f_equal. by apply IH.
Qed.

(** C1, witness: the sample state, where the four tabs of group 7 are tracked. *)
Lemma reconcile_host_order_sample :
  let r := reconcileSpaceTabOrdering 7 default_opts MoveAccepted sample_state in
  r.2 = Returned
  ∧ ∃ space',
      find_space 7 (spaces r.1) = Some space'
      ∧ host_group_order (window r.1) 7
        = settled_order (host_group_order (window r.1) 7) space'
      ∧ ∀ x, x ∈ host_group_order (window r.1) 7 →
             ∃ t, t ∈ window r.1 ∧ h_id t = x ∧ h_pinned t = false ∧ h_groupId t = 7.
Proof.
  apply (reconcile_host_order 7 default_opts sample_state sample_space).
  - reflexivity.
  - lia.
  - by_compute.
  - vm_compute. discriminate.
  - by_compute.
  - right. by_compute.
Defined.

(** C1, as stated, fails: an unpinned tab of the group that is in neither
    array stays in the host order. *)
Lemma reconcile_host_order_untracked :
  let r := reconcileSpaceTabOrdering 7 default_opts MoveAccepted untracked_state in
  r.2 = Returned
  ∧ ∃ space',
      find_space 7 (spaces r.1) = Some space'
      ∧ host_group_order (window r.1) 7 = [1; 2]
      ∧ stated_order (host_group_order (window r.1) 7) space' = [1]
      ∧ host_group_order (window r.1) 7
        ≠ stated_order (host_group_order (window r.1) 7) space'.
Proof.
  vm_compute. split; [reflexivity|]. eexists. split; [reflexivity|].
  repeat split; discriminate.
Qed.

(** C2, witness: the sample state; the second call is even offered a rejection. *)
Lemma reconcile_twice_sample :
  let st1 := (reconcileSpaceTabOrdering 7 default_opts MoveAccepted sample_state).1 in
  let r2 := reconcileSpaceTabOrdering 7 default_opts (MoveRejected mid_drag_error) st1 in
  moveCalls r2.1 = moveCalls st1
  ∧ window r2.1 = window st1
  ∧ spaces r2.1 = spaces st1
  ∧ r2.2 = Returned.
Proof.
  apply (reconcile_twice_no_move 7 default_opts (MoveRejected mid_drag_error)
           sample_state sample_space).
  - reflexivity.
  - lia.
  - by_compute.
  - vm_compute. discriminate.
  - by_compute.
  - right. by_compute.
Defined.

(** C2, as stated, fails: with an untracked tab in the group the second
    call issues the move again. *)
Lemma reconcile_twice_untracked :
  let st1 := (reconcileSpaceTabOrdering 7 default_opts MoveAccepted untracked_state).1 in
  let r2 := reconcileSpaceTabOrdering 7 default_opts MoveAccepted st1 in
  window st1 = window untracked_state
  ∧ moveCalls st1 = [([1], 0)]
  ∧ moveCalls r2.1 = [([1], 0); ([1], 0)]
  ∧ moveCalls r2.1 ≠ moveCalls st1.
Proof. vm_compute. repeat split; discriminate. Qed.

(** C10: a space id that is not in the store, or a group with no unpinned
    tab, ends the call at once: the state (space records, storage, document,
    host calls, timers) is the one it started from. *)
Theorem reconcile_noop spaceId opts host st :
  find_space spaceId (spaces st) = None
  ∨ host_group_order (window st) spaceId = [] →
  reconcileSpaceTabOrdering spaceId opts host st = (st, Returned).
Proof.
  intros H. unfold reconcileSpaceTabOrdering.
  destruct (find_space spaceId (spaces st)) as [space|] eqn:Hf; [|done].
  destruct H as [|H]; [done|]. case_bool_decide; [done|].
  unfold host_group_order in H. apply fmap_nil_inv in H. by rewrite H.
Qed.

(** C10, witness: group 5 has no space; a group 7 with only a host-pinned tab. *)
Lemma reconcile_noop_sample :
  reconcileSpaceTabOrdering 5 default_opts MoveAccepted sample_state = (sample_state, Returned)
  ∧ reconcileSpaceTabOrdering 7 default_opts MoveAccepted
      (set_window [mkHostTab 9 true 7 "https://mail.example/"] sample_state)
    = (set_window [mkHostTab 9 true 7 "https://mail.example/"] sample_state, Returned).
Proof.
  split.
  - apply reconcile_noop. left. reflexivity.
  - apply reconcile_noop. right. vm_compute. reflexivity.
Defined.

(** ** A reorder made by the host *)

Lemma findIndex_from_range {A} (p : A → bool) i l :
  findIndex_from p i l = -1 ∨ i ≤ findIndex_from p i l.
Proof.
  revert i. induction l as [|x r IH]; intros i; simpl; [by left|].
  destruct (p x); [right; lia|]. destruct (IH (i + 1)); [by left|right; lia].
Qed.

Lemma findIndex_from_found {A} (p : A → bool) i l :
  0 ≤ i → findIndex_from p i l ≠ -1 ↔ ∃ x, x ∈ l ∧ p x = true.
Proof.
  revert i. induction l as [|x r IH]; intros i Hi; simpl.
  - split; [done|]. intros (x & Hx & _). by apply elem_of_nil in Hx.
  - destruct (p x) eqn:Hp.
    + split; [|lia]. intros _. exists x. split; [left|done].
    + rewrite IH by lia. split.
      * intros (y & Hy & Hpy). exists y. split; [by right|done].
      * intros (y & [->|Hy]%elem_of_cons & Hpy); [congruence|]. by exists y.
Qed.

Lemma after_a_temporary_index bm cur b i :
  0 ≤ i → b ∈ bm →
  (findIndex_from (λ id, bool_decide (id ∉ bm)) i cur ≠ -1
   ∧ findIndex_from (λ y, bool_decide (y = b)) i cur ≠ -1
   ∧ findIndex_from (λ y, bool_decide (y = b)) i cur
     > findIndex_from (λ id, bool_decide (id ∉ bm)) i cur)
  ↔ after_a_temporary bm cur b.
Proof.
  intros Hi Hb. revert i Hi. induction cur as [|x r IH]; intros i Hi.
  - simpl. split; [intros [? _]; done|].
    intros (l1 & t & l2 & H & _). by destruct l1.
  - simpl. case_bool_decide as Hx.
    + (* x is a temporary id *)
      assert (x ≠ b) by (intros ->; done).
      rewrite bool_decide_eq_false_2 by done. split.
      * intros (_ & Hq & _). apply findIndex_from_found in Hq as (y & Hy & Hyb); [|lia].
        apply bool_decide_eq_true in Hyb. subst y.
        exists [], x, r. repeat split; [done|apply not_elem_of_nil|done].
      * intros (l1 & t & l2 & Hc & Ht & Hn1 & H2).
        assert (b ∈ r) as Hbr.
        { destruct l1 as [|y l1]; simpl in Hc; inversion Hc; subst; [done|].
          apply elem_of_app. right. by right. }
        assert (Hq : findIndex_from (λ y, bool_decide (y = b)) (i + 1) r ≠ -1).
        { apply findIndex_from_found; [lia|]. exists b. split; [done|].
          by apply bool_decide_eq_true. }
        destruct (findIndex_from_range (λ y, bool_decide (y = b)) (i + 1) r); [done|].
        repeat split; [lia|done|lia].
    + (* x is a bookmark id *)
      assert (x ∈ bm) as Hxb by (destruct (decide (x ∈ bm)); tauto).
      case_bool_decide as Hxe.
      * subst x. split.
        -- intros (Hp & _ & Hgt).
           destruct (findIndex_from_range (λ id, bool_decide (id ∉ bm)) (i + 1) r); lia.
        -- intros (l1 & t & l2 & Hc & Ht & Hn1 & H2).
           destruct l1 as [|y l1]; simpl in Hc; inversion Hc; subst; [done|].
           exfalso. apply Hn1. left.
      * rewrite IH by lia. split.
        -- intros (l1 & t & l2 & -> & Ht & Hn1 & H2).
           exists (x :: l1), t, l2. repeat split; [done| |done].
           rewrite not_elem_of_cons. split; [congruence|done].
        -- intros (l1 & t & l2 & Hc & Ht & Hn1 & H2).
           destruct l1 as [|y l1]; simpl in Hc; inversion Hc; subst; [done|].
           apply not_elem_of_cons in Hn1 as [_ Hn1]. by exists l1, t, l2.
Qed.

(** What the block does to the two arrays. *)
Lemma take_chrome_order_bookmarks m cur s :
  (∀ b, m = Some b → b ≠ 0 → b ∈ spaceBookmarks s →
        after_a_temporary (spaceBookmarks s) cur b →
        moved_to_end (spaceBookmarks s) (spaceBookmarks (take_chrome_order m cur s)) b)
  ∧ ((∀ b, m = Some b → b = 0 ∨ (b ∉ spaceBookmarks s)
                          ∨ ¬ after_a_temporary (spaceBookmarks s) cur b) →
     spaceBookmarks (take_chrome_order m cur s) = spaceBookmarks s).
Proof.
  unfold take_chrome_order, moved_to_end.
  destruct m as [b|]; [|split; [intros; done|done]].
  destruct (bool_decide (b ≠ 0) && bool_decide (b ∈ _)) eqn:Hb.
  - apply andb_true_iff in Hb as [Hb0%bool_decide_eq_true Hbb%bool_decide_eq_true].
    rewrite elem_of_list_to_set in Hbb.
    pose proof (after_a_temporary_index (spaceBookmarks s) cur b 0 (Z.le_refl 0) Hbb) as Hiff.
    assert (Hp : ∀ l i, findIndex_from (λ id, bool_decide (id ∉ (list_to_set (spaceBookmarks s) : gset Z))) i l
                      = findIndex_from (λ id, bool_decide (id ∉ spaceBookmarks s)) i l).
    { induction l as [|x r IHl]; intros i; simpl; [done|].
      rewrite IHl. erewrite bool_decide_ext; [done|]. by rewrite elem_of_list_to_set. }
    unfold indexOf, findIndex. rewrite Hp.
    match goal with |- context [if ?c then _ else _] => destruct c eqn:Hc end.
    + split; [intros b' [= <-]; done|]. intros Hno. exfalso.
      apply andb_true_iff in Hc as [Hc H3%bool_decide_eq_true].
      apply andb_true_iff in Hc as [H1%bool_decide_eq_true H2%bool_decide_eq_true].
      destruct (Hno b eq_refl) as [|[|Hn]]; [done|done|]. apply Hn, Hiff. done.
    + split; [|done]. intros b' [= <-] _ _ Haft. exfalso.
      apply Hiff in Haft as (H1 & H2 & H3).
      rewrite !andb_false_iff, !bool_decide_eq_false in Hc. tauto.
  - split; [|done]. intros b' [= <-] Hb0 Hbb _. exfalso.
    rewrite andb_false_iff, !bool_decide_eq_false, elem_of_list_to_set in Hb. tauto.
Qed.

Lemma reconcile_find spaceId opts host st space :
  find_space spaceId (spaces st) = Some space → spaceId ≠ 0 →
  host_group_order (window st) spaceId ≠ [] →
  let r := reconcileSpaceTabOrdering spaceId opts host st in
  find_space spaceId (spaces r.1)
  = Some (apply_source opts (host_group_order (window st) spaceId) space)
  ∧ (r.2 = Returned → head (storage r.1) = Some (spaces r.1)).
Proof.
  intros Hfind Hid Hcur r.
  destruct (reconcile_unfold spaceId opts host st space Hfind Hid Hcur) as [start Hr].
  unfold r. rewrite Hr. clear Hr r.
  match goal with |- context [finish_step ?a ?b ?c] =>
    pose proof (finish_step_frame a b c) as (Hs & _); set (m := c) in * end.
  rewrite Hs. unfold m at 1. rewrite move_step_spaces. split.
  - by apply source_step_find.
  - unfold finish_step, update_temp_dom. destruct m as [s2 [|e]]; simpl; [|done].
    intros _. by case_match.
Qed.

(** C4 (amended): with source = 'chrome' the call recomputes temporaryTabs
    as the host's current group order minus the bookmark-tracked ids; and
    when the moved tab ([movedTabId]) is bookmark-tracked and sits after a
    temporary id in the host order, it is moved to the end of
    spaceBookmarks; otherwise spaceBookmarks is left as it was.  When the
    call returns, the store has been written to storage. *)
Theorem reconcile_chrome_source spaceId m a host st space :
  find_space spaceId (spaces st) = Some space →
  spaceId ≠ 0 →
  host_group_order (window st) spaceId ≠ [] →
  let cur := host_group_order (window st) spaceId in
  let bm := spaceBookmarks space in
  let r := reconcileSpaceTabOrdering spaceId (mkOpts chrome m a) host st in
  ∃ space',
    find_space spaceId (spaces r.1) = Some space'
    ∧ temporaryTabs space' = uniqPreserveOrder (filter (λ id, id ∉ bm) cur)
    ∧ (∀ b, m = Some b → b ≠ 0 → b ∈ bm → after_a_temporary bm cur b →
            moved_to_end bm (spaceBookmarks space') b)
    ∧ ((∀ b, m = Some b → b = 0 ∨ (b ∉ bm) ∨ ¬ after_a_temporary bm cur b) →
       spaceBookmarks space' = bm)
    ∧ (r.2 = Returned → head (storage r.1) = Some (spaces r.1)).
Proof.
  intros Hfind Hid Hcur cur bm r.
  destruct (reconcile_find spaceId (mkOpts chrome m a) host st space Hfind Hid Hcur)
    as [Hf Hst].
  fold r in Hf, Hst. fold cur in Hf. eexists. split; [exact Hf|].
  unfold apply_source. simpl.
  split; [apply take_chrome_order_temps|].
  pose proof (take_chrome_order_bookmarks m cur space) as [H1 H2].
  split; [exact H1|]. split; [exact H2|exact Hst].
Qed.

(** C4, witness: bookmark tab 1 was dragged behind temporary tab 4. *)
Lemma reconcile_chrome_source_sample :
  let r := reconcileSpaceTabOrdering 7 (mkOpts chrome (Some 1) 0) MoveAccepted
             bookmark_dragged_state in
  ∃ space',
    find_space 7 (spaces r.1) = Some space'
    ∧ temporaryTabs space' = [4]
    ∧ spaceBookmarks space' = [2; 3; 1]
    ∧ head (storage r.1) = Some (spaces r.1).
Proof.
  destruct (reconcile_chrome_source 7 (Some 1) 0 MoveAccepted bookmark_dragged_state
              (mkSpace 7 "Work" [1; 2; 3] [4] None))
    as (space' & Hf & Ht & Hmove & _ & Hst).
  - reflexivity.
  - lia.
  - vm_compute. discriminate.
  - exists space'. split; [exact Hf|]. split; [exact Ht|]. split.
    + apply (Hmove 1); [reflexivity|lia|by_compute|].
      exists [2; 3], 4, [1]. repeat split; by_compute.
    + apply Hst. reflexivity.
Defined.

(** C4, as stated, fails: the user dragged temporary tab 4 between the
    bookmark tabs 2 and 1, so that bookmark tab 1, and it alone, sits after
    the first temporary id in the host order.  The claim asks for
    spaceBookmarks [2; 1]; the call, whose moved tab is 4, leaves [1; 2]. *)
Lemma reconcile_chrome_other_bookmark_stays :
  let cur := host_group_order (window dragged_state) 7 in
  let r := reconcileSpaceTabOrdering 7 (mkOpts chrome (Some 4) 0) MoveAccepted
             dragged_state in
  cur = [2; 4; 1]
  ∧ (∀ b, b ∈ [1; 2] → after_a_temporary [1; 2] cur b ↔ b = 1)
  ∧ moved_to_end [1; 2] [2; 1] 1
  ∧ ∃ space',
      find_space 7 (spaces r.1) = Some space'
      ∧ spaceBookmarks space' = [1; 2]
      ∧ ¬ moved_to_end [1; 2] (spaceBookmarks space') 1.
Proof.
  assert (Hcur : host_group_order (window dragged_state) 7 = [2; 4; 1])
    by (vm_compute; reflexivity).
  rewrite Hcur. split; [done|]. split; [|split; [reflexivity|]].
  - intros b Hb. rewrite <- (after_a_temporary_index [1; 2] [2; 4; 1] b 0) by (done || lia).
    assert (Ht : findIndex_from (λ id, bool_decide (id ∉ [1; 2])) 0 [2; 4; 1] = 1)
      by (vm_compute; reflexivity).
    rewrite Ht. apply elem_of_cons in Hb as [->|Hb].
    + assert (H1 : findIndex_from (λ y, bool_decide (y = 1)) 0 [2; 4; 1] = 2)
        by (vm_compute; reflexivity).
      rewrite H1. split; [done|]. intros _. lia.
    + apply list_elem_of_singleton in Hb as ->.
      assert (H2 : findIndex_from (λ y, bool_decide (y = 2)) 0 [2; 4; 1] = 0)
        by (vm_compute; reflexivity).
      rewrite H2. split; [|done]. intros (_ & _ & H). lia.
  - eexists. split; [vm_compute; reflexivity|]. split; [reflexivity|].
    vm_compute. discriminate.
Qed.

(** ** Retry timers *)

Lemma retry_inv_boot sp w dom invert : retry_inv (boot sp w dom invert).
Proof.
  unfold retry_inv, boot. simpl. split; [lia|]. split; [constructor|].
  split; [constructor|]. intros t Ht. by apply elem_of_nil in Ht.
Qed.

Lemma retry_inv_frame st st' :
  timers st' = timers st → nextTimeoutId st' = nextTimeoutId st →
  reconcileRetryBySpace st' = reconcileRetryBySpace st →
  retry_inv st → retry_inv st'.
Proof. unfold retry_inv. by intros -> -> ->. Qed.

Lemma retry_inv_remove tid st :
  retry_inv st →
  retry_inv (set_timers (filter (λ t, timeoutId t ≠ tid) (timers st)) (nextTimeoutId st) st).
Proof.
  intros (Hn & Hall & Hnd & Hmap). unfold retry_inv. simpl.
  split; [done|]. split; [|split].
  - rewrite Forall_forall in *. intros t [_ Ht]%list_elem_of_filter. by apply Hall.
  - eapply sublist_NoDup; [exact Hnd|]. apply fmap_sublist, sublist_filter.
  - intros t [_ Ht]%list_elem_of_filter. by apply Hmap.
Qed.

Lemma retry_inv_mark ids st :
  retry_inv st → retry_inv (markTabsSyncingToChrome ids st).
Proof.
  intros (Hn & Hall & Hnd & Hmap). unfold retry_inv, markTabsSyncingToChrome, setTimeout.
  simpl. rewrite Forall_forall in Hall. split; [lia|]. split; [|split].
  - apply Forall_app. split.
    + apply Forall_forall. intros t Ht. specialize (Hall t Ht). lia.
    + constructor; [simpl; lia|constructor].
  - rewrite fmap_app. apply NoDup_app. split; [done|]. split; [|apply NoDup_singleton].
    intros x (t & -> & Ht)%list_elem_of_fmap. simpl. rewrite list_elem_of_singleton.
    specialize (Hall t Ht). lia.
  - intros t [Ht|Ht]%elem_of_app s Hs; [by apply Hmap|].
    apply list_elem_of_singleton in Ht. subst t. done.
Qed.

Lemma retry_inv_schedule s o a d st :
  retry_inv st → retry_inv (scheduleReconcileRetry s o a d st).
Proof.
  intros (Hn & Hall & Hnd & Hmap). rewrite Forall_forall in Hall.
  unfold scheduleReconcileRetry.
  set (st1 := match reconcileRetryBySpace st !! s with
              | Some existing => if bool_decide (r_timeoutId existing = 0) then st
                                 else clearTimeout (r_timeoutId existing) st
              | None => st end).
  assert (Hsub : ∀ t, t ∈ timers st1 → t ∈ timers st).
  { intros t. unfold st1. repeat case_match; try done.
    simpl. by intros [_ Ht]%list_elem_of_filter. }
  assert (Hnd1 : NoDup (timeoutId <$> timers st1)).
  { unfold st1. repeat case_match; try done. simpl.
    eapply sublist_NoDup; [exact Hnd|]. apply fmap_sublist, sublist_filter. }
  assert (Hnext : nextTimeoutId st1 = nextTimeoutId st).
  { unfold st1. repeat case_match; done. }
  assert (Hm1 : reconcileRetryBySpace st1 = reconcileRetryBySpace st).
  { unfold st1. repeat case_match; done. }
  assert (Hgone : ∀ t, t ∈ timers st1 → ¬ is_retry_for s t).
  { intros t Ht Hr. destruct (Hmap t (Hsub t Ht) s Hr) as (e & He & Hid).
    specialize (Hall t (Hsub t Ht)).
    unfold st1 in Ht. rewrite He in Ht.
    rewrite bool_decide_eq_false_2 in Ht by lia.
    simpl in Ht. apply list_elem_of_filter in Ht as [Hne _]. congruence. }
  unfold retry_inv, setTimeout. simpl. rewrite Hnext, Hm1.
  split; [lia|]. split; [|split].
  - apply Forall_app. split.
    + apply Forall_forall. intros t Ht. specialize (Hall t (Hsub t Ht)). lia.
    + constructor; [simpl; lia|constructor].
  - rewrite fmap_app. apply NoDup_app. split; [done|]. split; [|apply NoDup_singleton].
    intros x (t & -> & Ht)%list_elem_of_fmap. simpl. rewrite list_elem_of_singleton.
    specialize (Hall t (Hsub t Ht)). lia.
  - intros t [Ht|Ht]%elem_of_app s' Hs.
    + destruct (decide (s' = s)) as [->|Hne]; [by destruct (Hgone t Ht)|].
      rewrite lookup_insert_ne by done. by apply Hmap; [apply Hsub|].
    + apply list_elem_of_singleton in Ht. subst t. unfold is_retry_for in Hs.
      simpl in Hs. subst s'. rewrite lookup_insert_eq. by eexists.
Qed.

Lemma retry_inv_on_move_error spaceId src m a desired e st :
  retry_inv st → retry_inv (on_move_error spaceId src m a desired e st).1.
Proof.
  intros Hinv. unfold on_move_error.
  destruct (str_includes _ _); [case_bool_decide|]; cbn [fst].
  - apply retry_inv_schedule. by apply (retry_inv_frame st).
  - by apply (retry_inv_frame st).
  - by apply (retry_inv_frame st).
Qed.

Lemma retry_inv_move_step spaceId opts host cur desired start st :
  retry_inv st → retry_inv (move_step spaceId opts host cur desired start st).1.
Proof.
  intros Hinv. unfold move_step. case_match; [done|].
  pose proof (retry_inv_mark desired st Hinv) as Hm.
  destruct host as [|e]; cbn [fst].
  - by apply (retry_inv_frame (markTabsSyncingToChrome desired st)).
  - apply retry_inv_on_move_error.
    by apply (retry_inv_frame (markTabsSyncingToChrome desired st)).
Qed.

Lemma retry_inv_reconcile spaceId opts host st :
  retry_inv st → retry_inv (reconcileSpaceTabOrdering spaceId opts host st).1.
Proof.
  intros Hinv. unfold reconcileSpaceTabOrdering.
  destruct (find_space _ _); [|done]. case_bool_decide; [done|].
  destruct (filter _ (js_sort _ _)) as [|first rest]; [done|].
  match goal with |- context [finish_step ?a ?b ?c] =>
    pose proof (finish_step_frame a b c) as (_ & _ & _ & Ht & Hn & Hm);
    apply (retry_inv_frame c.1); try done end.
  apply retry_inv_move_step.
  pose proof (source_step_frame spaceId opts (tab_id <$> first :: rest) st)
    as (_ & _ & Ht' & Hn' & Hm').
  by apply (retry_inv_frame st).
Qed.

Lemma js_find_timer tid l t :
  js_find (λ u : Timer, bool_decide (timeoutId u = tid)) l = Some t →
  t ∈ l ∧ timeoutId t = tid.
Proof.
  induction l as [|u r IH]; simpl; [done|]. case_bool_decide.
  - intros [= ->]. split; [left|done].
  - intros [Ht ?]%IH. split; [by right|done].
Qed.

Lemma retry_inv_fire t host st :
  t ∈ timers st → retry_inv st → retry_inv (fire_timer t host st).
Proof.
  intros Ht Hinv. unfold fire_timer.
  pose proof (retry_inv_remove (timeoutId t) st Hinv) as Hrem.
  destruct (action t) as [ids|s o a] eqn:Ha.
  - by eapply retry_inv_frame; [..|exact Hrem].
  - unfold retry_callback.
    match goal with |- context [reconcileSpaceTabOrdering ?a ?b ?c ?d] =>
      pose proof (retry_inv_reconcile a b c d) as Hrec;
      destruct (reconcileSpaceTabOrdering a b c d) as [st2 c2] end.
    cbn [fst] in Hrec.
    assert (retry_inv st2) as H2; [apply Hrec|by destruct c2].
    destruct Hinv as (Hn & Hall & Hnd & Hmap).
    destruct Hrem as (Hn' & Hall' & Hnd' & Hmap').
    unfold retry_inv. simpl in *. split; [done|]. split; [done|]. split; [done|].
    intros t' Ht' s' Hs'. pose proof Ht' as Ht''.
    apply list_elem_of_filter in Ht' as [Hne Ht'].
    destruct (decide (s' = s)) as [->|Hns].
    + exfalso. destruct (Hmap t' Ht' s Hs') as (e & He & Hid).
      destruct (Hmap t Ht s) as (e2 & He2 & Hid2).
      { unfold is_retry_for. by rewrite Ha. }
      congruence.
    + rewrite lookup_delete_ne by done. by apply Hmap.
Qed.

Lemma retry_inv_step ev st st' :
  step ev st = Some st' → retry_inv st → retry_inv st'.
Proof.
  destruct ev as [s o h|tid h|sp w dom]; simpl.
  - intros [= <-]. apply retry_inv_reconcile.
  - destruct (js_find _ _) as [t|] eqn:Hf; [|done]. intros [= <-].
    apply js_find_timer in Hf as [Ht _]. by apply retry_inv_fire.
  - intros [= <-]. by apply retry_inv_frame.
Qed.

Lemma reachable_retry_inv st : reachable st → retry_inv st.
Proof.
  induction 1 as [|st ev st' _ IH Hstep]; [apply retry_inv_boot|].
  by eapply retry_inv_step.
Qed.

Lemma NoDup_constant (c : Z) (l : list Z) :
  NoDup l → (∀ x, x ∈ l → x = c) → (length l ≤ 1)%nat.
Proof.
  intros Hnd Hc. destruct l as [|x [|y r]]; simpl; [lia|lia|].
  exfalso. apply NoDup_cons in Hnd as [Hx _]. apply Hx.
  rewrite (Hc x) by left. rewrite <- (Hc y) by (right; left). left.
Qed.

Lemma retry_inv_at_most_one s st :
  retry_inv st → (length (pending_retries s st) ≤ 1)%nat.
Proof.
  intros (Hn & Hall & Hnd & Hmap). unfold pending_retries.
  rewrite <- (length_fmap timeoutId).
  destruct (reconcileRetryBySpace st !! s) as [e|] eqn:He.
  - apply (NoDup_constant (r_timeoutId e)).
    + eapply sublist_NoDup; [exact Hnd|]. apply fmap_sublist, sublist_filter.
    + intros x (t & -> & [Hr Ht]%list_elem_of_filter)%list_elem_of_fmap.
      destruct (Hmap t Ht s Hr) as (e' & He' & <-). congruence.
  - rewrite filter_none; [simpl; lia|]. intros t Ht Hr.
    destruct (Hmap t Ht s Hr) as (e' & He' & _). congruence.
Qed.

Lemma schedule_replaces s o a d st :
  retry_inv st →
  pending_retries s (scheduleReconcileRetry s o a d st)
  = [mkTimer (nextTimeoutId st) d (RetryReconcile s o a)].
Proof.
  intros (Hn & Hall & Hnd & Hmap). rewrite Forall_forall in Hall.
  unfold pending_retries, scheduleReconcileRetry.
  set (st1 := match reconcileRetryBySpace st !! s with
              | Some existing => if bool_decide (r_timeoutId existing = 0) then st
                                 else clearTimeout (r_timeoutId existing) st
              | None => st end).
  assert (Hnext : nextTimeoutId st1 = nextTimeoutId st).
  { unfold st1. repeat case_match; done. }
  assert (Hgone : ∀ t, t ∈ timers st1 → ¬ is_retry_for s t).
  { intros t Ht Hr.
    assert (t ∈ timers st) as Ht0.
    { revert Ht. unfold st1. repeat case_match; try done.
      simpl. by intros [_ ?]%list_elem_of_filter. }
    destruct (Hmap t Ht0 s Hr) as (e & He & Hid). specialize (Hall t Ht0).
    unfold st1 in Ht. rewrite He in Ht.
    rewrite bool_decide_eq_false_2 in Ht by lia.
    simpl in Ht. apply list_elem_of_filter in Ht as [Hne _]. congruence. }
  unfold setTimeout. simpl. rewrite filter_app, filter_none by done.
  rewrite Hnext. simpl. rewrite filter_cons_True; [done|].
  unfold is_retry_for. done.
Qed.

Lemma pending_retries_mark s ids st :
  pending_retries s (markTabsSyncingToChrome ids st) = pending_retries s st.
Proof.
  unfold pending_retries, markTabsSyncingToChrome, setTimeout. simpl.
  rewrite filter_app, filter_cons_False by (unfold is_retry_for; simpl; intros []).
  by rewrite filter_nil, app_nil_r.
Qed.

Lemma move_step_keeps_retries s spaceId opts host cur desired start st :
  (∀ e, host = MoveRejected e →
        str_includes "Tabs cannot be edited right now" (error_message e) = false
        ∨ 12 < _retryAttempt opts + 1) →
  let r := move_step spaceId opts host cur desired start st in
  pending_retries s r.1 = pending_retries s st
  ∧ reconcileRetryBySpace r.1 = reconcileRetryBySpace st.
Proof.
  intros Hhost r. unfold r, move_step. case_match; [done|].
  pose proof (pending_retries_mark s desired st) as Hm.
  destruct host as [|e]; cbn [fst].
  - done.
  - unfold on_move_error.
    destruct (Hhost e eq_refl) as [Hno|Hlast].
    + rewrite Hno. done.
    + destruct (str_includes _ _); [|done].
      rewrite bool_decide_eq_false_2 by lia. done.
Qed.

Lemma reconcile_keeps_retries s spaceId opts host st :
  (∀ e, host = MoveRejected e →
        str_includes "Tabs cannot be edited right now" (error_message e) = false
        ∨ 12 < _retryAttempt opts + 1) →
  let r := reconcileSpaceTabOrdering spaceId opts host st in
  pending_retries s r.1 = pending_retries s st
  ∧ reconcileRetryBySpace r.1 = reconcileRetryBySpace st.
Proof.
  intros Hhost r. unfold r, reconcileSpaceTabOrdering.
  destruct (find_space _ _); [|done]. case_bool_decide; [done|].
  destruct (filter _ (js_sort _ _)) as [|first rest]; [done|].
  match goal with |- context [finish_step ?a ?b ?c] =>
    pose proof (finish_step_frame a b c) as (_ & _ & _ & Ht & _ & Hm); set (m := c) in * end.
  unfold pending_retries in *. rewrite Ht, Hm.
  pose proof (source_step_frame spaceId opts (tab_id <$> first :: rest) st)
    as (_ & _ & Ht' & _ & Hm').
  match goal with m := move_step ?a ?b ?c ?d ?e ?f ?g |- _ =>
    destruct (move_step_keeps_retries s a b c d e f g Hhost) as [H1 H2] end.
  fold m in H1, H2. unfold pending_retries in H1. rewrite H1, H2, Ht', Hm'. done.
Qed.

(** C6 (amended): in every state the sidebar can reach there is at most one
    pending reconcile-retry timer for a space; scheduling a new retry for a
    space ([scheduleReconcileRetry]) cancels the pending retry of that
    space and leaves the new timer as its only pending retry; and a
    reconciliation request that schedules no retry (its move is accepted,
    or rejected with another error than the contention error, or rejected
    after the last attempt) leaves the pending retries of every space as
    they are. *)
Theorem one_pending_retry_per_space st s :
  reachable st →
  (length (pending_retries s st) ≤ 1)%nat
  ∧ (∀ o a d,
       pending_retries s (scheduleReconcileRetry s o a d st)
       = [mkTimer (nextTimeoutId st) d (RetryReconcile s o a)])
  ∧ (∀ spaceId opts host,
       (∀ e, host = MoveRejected e →
             str_includes "Tabs cannot be edited right now" (error_message e) = false
             ∨ 12 < _retryAttempt opts + 1) →
       pending_retries s (reconcileSpaceTabOrdering spaceId opts host st).1
       = pending_retries s st).
Proof.
  intros Hr%reachable_retry_inv. split; [|split].
  - by apply retry_inv_at_most_one.
  - intros o a d. by apply schedule_replaces.
  - intros spaceId opts host Hhost.
    by destruct (reconcile_keeps_retries s spaceId opts host st Hhost).
Qed.

(** C6, witness: the state reached when the host rejects the move of the
    sample state with the contention error. *)
Lemma one_pending_retry_sample :
  let st := (reconcileSpaceTabOrdering 7 default_opts (MoveRejected mid_drag_error)
               sample_state).1 in
  (length (pending_retries 7 st) ≤ 1)%nat
  ∧ (∀ o a d,
       pending_retries 7 (scheduleReconcileRetry 7 o a d st)
       = [mkTimer (nextTimeoutId st) d (RetryReconcile 7 o a)])
  ∧ (∀ spaceId opts host,
       (∀ e, host = MoveRejected e →
             str_includes "Tabs cannot be edited right now" (error_message e) = false
             ∨ 12 < _retryAttempt opts + 1) →
       pending_retries 7 (reconcileSpaceTabOrdering spaceId opts host st).1
       = pending_retries 7 st).
Proof.
  apply one_pending_retry_per_space.
  eapply (reachable_step _ (EvReconcile 7 default_opts (MoveRejected mid_drag_error))).
  - apply (reachable_boot [sample_space] sample_window (<[7 := [4; 3]]> ∅) true).
  - reflexivity.
Defined.

(** C6, as stated, fails: a new reconciliation request for a space whose
    move the host accepts leaves the pending retry of that space pending. *)
Lemma reconcile_request_keeps_pending_retry :
  let st := (reconcileSpaceTabOrdering 7 default_opts (MoveRejected mid_drag_error)
               sample_state).1 in
  let st' := (reconcileSpaceTabOrdering 7 default_opts MoveAccepted st).1 in
  reachable st
  ∧ reachable st'
  ∧ pending_retries 7 st = [mkTimer 2 300 (RetryReconcile 7 default_opts 1)]
  ∧ pending_retries 7 st' = pending_retries 7 st.
Proof.
  assert (Hr : reachable (reconcileSpaceTabOrdering 7 default_opts
                 (MoveRejected mid_drag_error) sample_state).1).
  { eapply (reachable_step _ (EvReconcile 7 default_opts (MoveRejected mid_drag_error))).
    - apply (reachable_boot [sample_space] sample_window (<[7 := [4; 3]]> ∅) true).
    - reflexivity. }
  split; [exact Hr|]. split.
  - eapply (reachable_step _ (EvReconcile 7 default_opts MoveAccepted)); [exact Hr|reflexivity].
  - split; vm_compute; reflexivity.
Qed.

(** ** A rejected move *)

(** The contention error with attempts left: the call returns, and one retry
    timer is pending for the space, with the next attempt number and the
    delay [min 1200 (200 + 100 * nextAttempt)]. *)
Lemma on_move_error_retry spaceId src m a desired e st :
  retry_inv st →
  str_includes "Tabs cannot be edited right now" (error_message e) = true →
  a + 1 ≤ 12 →
  let r := on_move_error spaceId src m a desired e st in
  r.2 = Returned
  ∧ pending_retries spaceId r.1
    = [mkTimer (nextTimeoutId st) (Z.min 1200 (200 + (a + 1) * 100))
         (RetryReconcile spaceId (mkOpts src m 0) (a + 1))].
Proof.
  intros Hinv He Ha. unfold on_move_error. rewrite He.
  rewrite bool_decide_eq_true_2 by done. cbn [fst snd]. split; [done|].
  rewrite schedule_replaces; [done|]. by apply (retry_inv_frame st).
Qed.

(** The contention error after the twelfth attempt: the call returns, no
    timer is added, and the warning is logged. *)
Lemma on_move_error_give_up spaceId src m a desired e st :
  str_includes "Tabs cannot be edited right now" (error_message e) = true →
  12 < a + 1 →
  let r := on_move_error spaceId src m a desired e st in
  r.2 = Returned
  ∧ timers r.1 = timers st
  ∧ log r.1 = WarnGaveUp spaceId (error_message e) :: log st.
Proof.
  intros He Ha. unfold on_move_error. rewrite He.
  rewrite bool_decide_eq_false_2 by lia. done.
Qed.

(** Any other failure of the move is thrown again, after it was logged. *)
Lemma on_move_error_rethrow spaceId src m a desired e st :
  str_includes "Tabs cannot be edited right now" (error_message e) = false →
  let r := on_move_error spaceId src m a desired e st in
  r.2 = Threw e
  ∧ timers r.1 = timers st
  ∧ log r.1 = ErrorMovingTabs e :: log st.
Proof. intros He. unfold on_move_error. by rewrite He. Qed.

(** The rethrown value leaves [reconcileSpaceTabOrdering] itself. *)
Lemma reconcile_rethrows spaceId opts e st space :
  find_space spaceId (spaces st) = Some space → spaceId ≠ 0 →
  host_group_order (window st) spaceId ≠ [] →
  host_group_order (window st) spaceId
  ≠ desiredGroupOrder (list_to_set (host_group_order (window st) spaceId))
      (apply_source opts (host_group_order (window st) spaceId) space) →
  str_includes "Tabs cannot be edited right now" (error_message e) = false →
  (reconcileSpaceTabOrdering spaceId opts (MoveRejected e) st).2 = Threw e.
Proof.
  intros Hfind Hid Hcur Hne He.
  destruct (reconcile_unfold spaceId opts (MoveRejected e) st space Hfind Hid Hcur)
    as [start Hr].
  rewrite Hr. unfold finish_step, move_step.
  destruct (isSameOrder _ _) eqn:Hs; [by apply isSameOrder_spec in Hs|].
  match goal with |- context [on_move_error ?a ?b ?c ?d ?f ?g ?h] =>
    destruct (on_move_error_rethrow a b c d f g h He) as (Hc & _) end.
  by rewrite Hc.
Qed.

(** C5: at the contention error the retries are scheduled 300, 400, 500,
    600 ms ahead for attempts 1 to 4, and 1200 ms for attempts 10 to 12:
    the delay grows by a constant 100 ms, it is not multiplied. *)
Theorem retry_backoff_delays :
  let delay_after (attempt : Z) :=
    delayMs <$> last (timers (reconcileSpaceTabOrdering 7 (mkOpts arcify None attempt)
                                (MoveRejected mid_drag_error) sample_state).1) in
  delay_after <$> [0; 1; 2; 3; 8; 9; 10; 11]
  = Some <$> [300; 400; 500; 600; 1100; 1200; 1200; 1200]
  ∧ 400 - 300 = 500 - 400
  ∧ 400 * 400 ≠ 300 * 500.
Proof. vm_compute. repeat split; discriminate. Qed.

(** ** Disjointness of the two arrays *)

Lemma disjoint_arrays_alt s :
  disjoint_arrays s ↔ ∀ x, x ∈ spaceBookmarks s → x ∈ temporaryTabs s → False.
Proof. unfold disjoint_arrays. rewrite Forall_forall. done. Qed.

Lemma elem_of_push_if_absent l x y : y ∈ push_if_absent l x ↔ y ∈ l ∨ y = x.
Proof.
  unfold push_if_absent, includesZ. case_bool_decide.
  - split; [by left|]. by intros [?| ->].
  - by rewrite elem_of_app, list_elem_of_singleton.
Qed.

Lemma moveTabToPinned_disjoint tabId s :
  disjoint_arrays s → disjoint_arrays (moveTabToPinned_arrays tabId s).
Proof.
  rewrite !disjoint_arrays_alt. intros Hd x. unfold moveTabToPinned_arrays. simpl.
  rewrite elem_of_push_if_absent, list_elem_of_filter. naive_solver.
Qed.

Lemma moveTabToTemp_disjoint tabId s :
  disjoint_arrays s → disjoint_arrays (moveTabToTemp_arrays tabId s).
Proof.
  rewrite !disjoint_arrays_alt. intros Hd x. unfold moveTabToTemp_arrays. simpl.
  rewrite elem_of_push_if_absent, list_elem_of_filter. naive_solver.
Qed.

Lemma dropOnPinned_disjoint b tabId s :
  disjoint_arrays s → disjoint_arrays (dropOnPinned_arrays b tabId s).
Proof. unfold dropOnPinned_arrays. case_match; [apply moveTabToPinned_disjoint|done]. Qed.

Lemma forget_tab_disjoint tabId s :
  disjoint_arrays s → disjoint_arrays (forget_tab tabId s).
Proof.
  rewrite !disjoint_arrays_alt. intros Hd x. unfold forget_tab. simpl.
  rewrite !list_elem_of_filter. naive_solver.
Qed.

Lemma handleTabRemove_disjoint tabId sps :
  Forall disjoint_arrays sps → Forall disjoint_arrays (handleTabRemove_arrays tabId sps).
Proof.
  unfold handleTabRemove_arrays. rewrite Forall_fmap. intros Hd.
  eapply Forall_impl; [exact Hd|]. intros s. apply forget_tab_disjoint.
Qed.

Lemma update_first_Forall (P : Space → Prop) p f l :
  (∀ s, P s → P (f s)) → Forall P l → Forall P (update_first p f l).
Proof.
  intros Hf. induction 1 as [|s r Hs Hr IH]; simpl; [constructor|].
  case_match; constructor; auto.
Qed.

Lemma update_space_Forall (P : Space → Prop) spaceId f l :
  (∀ s, P s → P (f s)) → Forall P l → Forall P (update_space spaceId f l).
Proof.
  intros Hf. induction 1 as [|s r Hs Hr IH]; simpl; [constructor|].
  case_match; constructor; auto.
Qed.

Lemma moveTabToSpace_disjoint tabId spaceId isPinned sps :
  Forall disjoint_arrays sps →
  Forall disjoint_arrays (moveTabToSpace_arrays tabId spaceId isPinned sps).
Proof.
  intros Hd. unfold moveTabToSpace_arrays. apply update_space_Forall.
  - intros s Hs%(forget_tab_disjoint tabId). revert Hs.
    rewrite !disjoint_arrays_alt. unfold forget_tab. simpl.
    intros Hs x. destruct isPinned; simpl;
      rewrite ?elem_of_app, ?list_elem_of_singleton, !list_elem_of_filter.
    + intros [[Hn Hb]| ->] [Hn' Ht]; [|done]. apply (Hs x); by apply list_elem_of_filter.
    + intros [Hn Hb] [[Hn' Ht]| ->]; [|done]. apply (Hs x); by apply list_elem_of_filter.
  - repeat case_match; try done. apply update_first_Forall; [|done].
    intros s' Hs'%(forget_tab_disjoint tabId). by destruct (forget_tab tabId s').
Qed.

Lemma processTabMove_disjoint tabId newGroupId sps :
  Forall disjoint_arrays sps →
  Forall disjoint_arrays (processTabMove_arrays tabId newGroupId sps).
Proof.
  intros Hd. unfold processTabMove_arrays. repeat case_match; try done.
  apply update_space_Forall; [intros s'; apply moveTabToTemp_disjoint|].
  apply update_first_Forall; [|done].
  intros s' Hs'%(forget_tab_disjoint tabId). by destruct (forget_tab tabId s').
Qed.

(** The host-initiated block of the reconcile makes the arrays disjoint. *)
Lemma take_chrome_order_disjoint m cur s : disjoint_arrays (take_chrome_order m cur s).
Proof.
  apply disjoint_arrays_alt. intros x.
  rewrite take_chrome_order_bookmarks_elem, take_chrome_order_temps.
  rewrite elem_of_uniqPreserveOrder, list_elem_of_filter. tauto.
Qed.

Lemma reconcile_disjoint spaceId opts host st :
  Forall disjoint_arrays (spaces st) →
  Forall disjoint_arrays (spaces (reconcileSpaceTabOrdering spaceId opts host st).1).
Proof.
  intros Hd. unfold reconcileSpaceTabOrdering.
  destruct (find_space _ _) as [space|]; [|done]. case_bool_decide; [done|].
  destruct (filter _ (js_sort _ _)) as [|first rest]; [done|].
  match goal with |- context [finish_step ?a ?b ?c] =>
    pose proof (finish_step_frame a b c) as (-> & _) end.
  rewrite move_step_spaces. unfold source_step. destruct (source opts) eqn:Hs; [done|].
  simpl. apply update_space_Forall; [|done]. intros s _. unfold apply_source.
  rewrite Hs. apply take_chrome_order_disjoint.
Qed.

(** C3: the click on a pinned bookmark row whose URL is open in temporary
    tab 5 puts 5 into spaceBookmarks and leaves it in temporaryTabs: the
    arrays of a space that were disjoint share an id afterwards. *)
Theorem bookmark_click_breaks_disjointness :
  let existingTab := mkTab 5 0 false 7 "https://a.example/" in
  let st' := openBookmark_existingTab true existingTab same_url_state in
  Forall disjoint_arrays (spaces same_url_state)
  ∧ tabs_query_all (window same_url_state) = [existingTab]
  ∧ ∃ space',
      find_space 7 (spaces st') = Some space'
      ∧ spaceBookmarks space' = [5]
      ∧ temporaryTabs space' = [5]
      ∧ ¬ disjoint_arrays space'
      ∧ head (storage st') = Some (spaces st').
Proof.
  split; [by_compute|]. split; [reflexivity|].
  eexists. split; [vm_compute; reflexivity|]. split; [reflexivity|].
  split; [reflexivity|]. split; [|reflexivity].
  intros Hd. apply (proj1 (disjoint_arrays_alt _) Hd 5); simpl; left.
Qed.

(** ** The archive *)

Section Archive.
Variables (now : Z) (td : ArchivedTab) (archive : list ArchivedTab).

Let by_age := λ a b : ArchivedTab, archivedAt b - archivedAt a.
Let sorted := js_sort by_age (archive ++ [stamp now td]).

Lemma sorted_perm : sorted ≡ₚ archive ++ [stamp now td].
Proof. apply js_sort_perm. Qed.

Lemma sorted_strongly : StronglySorted (λ a b, archivedAt b ≤ archivedAt a) sorted.
Proof.
  eapply (StronglySorted_weaken (λ a b, by_age a b ≤ 0)).
  - unfold by_age. intros a b. lia.
  - apply js_sort_strongly_sorted; unfold by_age; intros; lia.
Qed.

Lemma addArchivedTab_duplicate :
  (∃ t, t ∈ archive ∧ a_url t = a_url td) →
  addArchivedTab now (Some td) archive = archive.
Proof.
  intros (t & Ht & Hu). unfold addArchivedTab. case_match; [done|].
  destruct (js_find _ archive) eqn:Hf; [done|]. exfalso.
  clear -Ht Hu Hf. induction archive as [|x r IH]; [by apply elem_of_nil in Ht|].
  simpl in Hf. case_bool_decide as Hx; [done|].
  apply elem_of_cons in Ht as [->|Ht]; [done|]. by apply IH.
Qed.

Lemma addArchivedTab_new :
  a_url td ≠ "" → a_name td ≠ "" → a_spaceId td ≠ 0 →
  (∀ t, t ∈ archive → a_url t ≠ a_url td) →
  addArchivedTab now (Some td) archive = take MAX_ARCHIVED_TABS sorted.
Proof.
  intros H1 H2 H3 Hnew. unfold addArchivedTab.
  rewrite !bool_decide_eq_false_2 by done. simpl.
  assert (Hf : js_find (λ t, bool_decide (a_url t = a_url td)) archive = None).
  { clear -Hnew. induction archive as [|x r IH]; [done|]. simpl.
    rewrite bool_decide_eq_false_2 by (apply Hnew; left).
    apply IH. intros t Ht. apply Hnew. by right. }
  rewrite Hf. fold by_age. fold sorted. case_bool_decide; [done|].
  rewrite take_ge; [done|lia].
Qed.
End Archive.

Lemma js_insert_before_last {A} (cmp : A → A → Z) y s x :
  cmp y x ≤ 0 → js_insert cmp y (s ++ [x]) = js_insert cmp y s ++ [x].
Proof.
  intros Hyx. induction s as [|z s IH]; simpl.
  - by rewrite bool_decide_eq_true_2.
  - case_bool_decide; [done|]. by rewrite IH.
Qed.

Lemma js_sort_keeps_last {A} (cmp : A → A → Z) l x :
  (∀ y, y ∈ l → cmp y x ≤ 0) → js_sort cmp (l ++ [x]) = js_sort cmp l ++ [x].
Proof.
  induction l as [|y l IH]; intros Hl; [done|].
  change (js_sort cmp ((y :: l) ++ [x])) with (js_insert cmp y (js_sort cmp (l ++ [x]))).
  rewrite IH by (intros z Hz; apply Hl; by right).
  rewrite js_insert_before_last by (apply Hl; left). done.
Qed.

(** C7 (amended): an archive of at most 100 records still has at most 100
    after [addArchivedTab]; a record whose URL is already archived leaves
    the archive as it is; a new record is stamped with the current time,
    and the records dropped are those with the oldest stamps: exactly one
    when the archive was at the cap, none below it.  The new record is kept
    when some archived record has an earlier stamp, and it is the record
    dropped when the archive is at the cap and no archived stamp is
    earlier. *)
Theorem addArchivedTab_spec now td archive :
  (length archive ≤ MAX_ARCHIVED_TABS)%nat →
  let archive' := addArchivedTab now (Some td) archive in
  (length archive' ≤ MAX_ARCHIVED_TABS)%nat
  ∧ ((∃ t, t ∈ archive ∧ a_url t = a_url td) → archive' = archive)
  ∧ (a_url td ≠ "" → a_name td ≠ "" → a_spaceId td ≠ 0 →
     (∀ t, t ∈ archive → a_url t ≠ a_url td) →
     ∃ evicted,
       archive' ++ evicted ≡ₚ archive ++ [stamp now td]
       ∧ (∀ e r, e ∈ evicted → r ∈ archive' → archivedAt e ≤ archivedAt r)
       ∧ (length archive = MAX_ARCHIVED_TABS → length evicted = 1%nat)
       ∧ ((length archive < MAX_ARCHIVED_TABS)%nat → evicted = [])
       ∧ ((∃ t, t ∈ archive ∧ archivedAt t < now) → stamp now td ∈ archive')
       ∧ (length archive = MAX_ARCHIVED_TABS →
          (∀ t, t ∈ archive → now ≤ archivedAt t) → evicted = [stamp now td])).
Proof.
  intros Hlen archive'.
  set (by_age := λ a b : ArchivedTab, archivedAt b - archivedAt a).
  set (sorted := js_sort by_age (archive ++ [stamp now td])).
  assert (Hcases : archive' = archive ∨ archive' = take MAX_ARCHIVED_TABS sorted).
  { unfold archive', addArchivedTab.
    destruct (_ || _ || _); [by left|]. destruct (js_find _ _); [by left|].
    fold by_age. fold sorted. case_bool_decide; [by right|].
    right. rewrite take_ge; [done|lia]. }
  split; [|split].
  - destruct Hcases as [->| ->]; [done|]. rewrite length_take. lia.
  - apply addArchivedTab_duplicate.
  - intros H1 H2 H3 Hnew.
    assert (Ha : archive' = take MAX_ARCHIVED_TABS sorted)
      by (by apply addArchivedTab_new).
    pose proof (sorted_perm now td archive) as Hperm.
    pose proof (sorted_strongly now td archive) as Hsorted.
    fold by_age in Hperm, Hsorted. fold sorted in Hperm, Hsorted.
    assert (Hl : length sorted = S (length archive)).
    { rewrite Hperm, length_app. simpl. lia. }
    exists (drop MAX_ARCHIVED_TABS sorted). rewrite Ha.
    split; [by rewrite take_drop|]. split; [|split; [|split; [|split]]].
    + intros e r He Hr. rewrite <- (take_drop MAX_ARCHIVED_TABS sorted) in Hsorted.
      apply (StronglySorted_app_1_elem_of _ _ _ r e Hsorted Hr He).
    + intros Hfull. rewrite length_drop. lia.
    + intros Hlt. apply drop_ge. lia.
    + intros (t & Ht & Hold).
      assert (stamp now td ∈ sorted) as Hin.
      { rewrite Hperm. apply elem_of_app. right. left. }
      apply list_elem_of_split in Hin as (l1 & l2 & Hs).
      assert (t ∈ sorted) as Htin by (rewrite Hperm; apply elem_of_app; by left).
      rewrite Hs in Htin, Hsorted, Hl.
      apply elem_of_app in Htin as [Ht1|Ht2].
      * exfalso.
        pose proof (StronglySorted_app_1_elem_of _ _ _ t (stamp now td) Hsorted Ht1) as Hc.
        simpl in Hc. specialize (Hc (list_elem_of_here _ _)). lia.
      * apply elem_of_cons in Ht2 as [->|Ht2]; [simpl in Hold; lia|].
        rewrite Hs. rewrite length_app in Hl. simpl in Hl.
        assert (length l2 ≠ 0%nat) by (destruct l2; [by apply elem_of_nil in Ht2|done]).
        apply elem_of_take. exists (length l1). split; [by apply list_lookup_middle|].
        unfold MAX_ARCHIVED_TABS in *. lia.
    + intros Hfull Hnot. unfold sorted.
      rewrite js_sort_keeps_last.
      * rewrite drop_app_length'; [done|].
        rewrite (js_sort_perm by_age archive). done.
      * intros y Hy. unfold by_age. simpl. specialize (Hnot y Hy). lia.
Qed.

(** C7, witness: the full archive and a tab closed at time 3000, later than
    every stamp in it. *)
Lemma addArchivedTab_spec_sample :
  let archive' := addArchivedTab 3000 (Some closed_tab) full_archive in
  (length archive' ≤ MAX_ARCHIVED_TABS)%nat ∧ stamp 3000 closed_tab ∈ archive'.
Proof.
  destruct (addArchivedTab_spec 3000 closed_tab full_archive) as (Hlen & _ & Hnew).
  - vm_compute. lia.
  - split; [exact Hlen|].
    destruct Hnew as (evicted & _ & _ & _ & _ & Hkept & _).
    + discriminate.
    + discriminate.
    + discriminate.
    + apply Forall_forall. by_compute.
    + apply Hkept. eexists. split; [vm_compute; apply list_elem_of_here|].
      simpl. lia.
Defined.

(** C7, as stated, fails: with the archive at the cap and the clock behind
    every stamp in it, the record just added is the one dropped. *)
Lemma addArchivedTab_evicts_new_record :
  let archive' := addArchivedTab 1000 (Some closed_tab) full_archive in
  length full_archive = MAX_ARCHIVED_TABS
  ∧ Forall (λ t, a_url t ≠ a_url closed_tab) full_archive
  ∧ length archive' = MAX_ARCHIVED_TABS
  ∧ Forall (λ t, a_url t ≠ a_url closed_tab) archive'
  ∧ stamp 1000 closed_tab ∉ archive'.
Proof.
  assert (H : Forall (λ t, a_url t ≠ a_url closed_tab)
                (addArchivedTab 1000 (Some closed_tab) full_archive)) by by_compute.
  split; [reflexivity|]. split; [by_compute|]. split; [vm_compute; reflexivity|].
  split; [exact H|]. intros Hin. rewrite Forall_forall in H. by apply (H _ Hin).
Qed.

(** ** Bookmarks and the tabs that represent them *)

Lemma BookmarkNode_nested_ind (P : BookmarkNode → Prop) :
  (∀ i t u d, P (Bookmark i t u d)) →
  (∀ i t d ch, Forall P ch → P (Folder i t d ch)) →
  ∀ n, P n.
Proof.
  intros Hb Hf. fix IH 1. intros [i t u d|i t d ch]; [apply Hb|].
  apply Hf. induction ch as [|c ch IHch]; constructor; [apply IH|apply IHch].
Qed.

Section MatchingRules.
Variable parse_url : string → option (string * string).
Variable tabs : list Tab.
Variable states : gmap Z PinnedState.


(** What the chosen tab is, by the rule that chose it. *)
Lemma existingTab_rules represented itemId itemUrl :
  let r := existingTab parse_url tabs states represented itemId itemUrl in
  ((∃ t, t ∈ tabs ∧ references states itemId t) →
     ∃ t1, r = Some t1 ∧ t1 ∈ tabs ∧ references states itemId t1)
  ∧ ((∀ t, t ∈ tabs → ¬ references states itemId t) →
     (∃ t, t ∈ tabs ∧ url t = itemUrl) →
     ∃ t2, r = Some t2 ∧ t2 ∈ tabs ∧ url t2 = itemUrl)
  ∧ ((∀ t, t ∈ tabs → ¬ references states itemId t) →
     (∀ t, t ∈ tabs → url t ≠ itemUrl) →
     (∃ t, t ∈ tabs ∧ tab_id t ≠ 0 ∧ (tab_id t ∉ represented) ∧ same_base parse_url itemUrl t) →
     ∃ t3, r = Some t3 ∧ t3 ∈ tabs ∧ tab_id t3 ≠ 0
           ∧ (tab_id t3 ∉ represented) ∧ same_base parse_url itemUrl t3)
  ∧ ((∀ t, t ∈ tabs → ¬ references states itemId t) →
     (∀ t, t ∈ tabs → url t ≠ itemUrl) →
     (∀ t, t ∈ tabs → tab_id t ≠ 0 → tab_id t ∉ represented → ¬ same_base parse_url itemUrl t) →
     r = None).
Proof.
  intros r. unfold r, existingTab, byBookmarkId, findTabByUrl, byBaseUrl.
  split; [|split; [|split]].
  - intros (t & Ht & Hr).
    destruct (js_find_is_Some (λ t, bool_decide (references states itemId t)) tabs t Ht)
      as [t1 H1]; [by apply bool_decide_eq_true|].
    rewrite H1. exists t1. split; [done|].
    apply js_find_Some in H1 as [? ?%bool_decide_eq_true]. done.
  - intros Hno (t & Ht & Hu).
    rewrite (proj2 (js_find_None _ tabs)).
    2: { intros x Hx. apply bool_decide_eq_false. by apply Hno. }
    destruct (js_find_is_Some (λ t, bool_decide (url t = itemUrl)) tabs t Ht)
      as [t2 H2]; [by apply bool_decide_eq_true|].
    rewrite H2. exists t2. split; [done|].
    apply js_find_Some in H2 as [? ?%bool_decide_eq_true]. done.
  - intros Hno Hne (t & Ht & H0 & Hrep & Hb).
    rewrite (proj2 (js_find_None _ tabs)).
    2: { intros x Hx. apply bool_decide_eq_false. by apply Hno. }
    rewrite (proj2 (js_find_None _ tabs)).
    2: { intros x Hx. apply bool_decide_eq_false. by apply Hne. }
    match goal with |- context [js_find ?p tabs] =>
      destruct (js_find_is_Some p tabs t Ht) as [t3 H3] end.
    { rewrite !andb_true_iff, !bool_decide_eq_true. done. }
    rewrite H3. exists t3. split; [done|].
    apply js_find_Some in H3 as [? H3].
    rewrite !andb_true_iff, !bool_decide_eq_true in H3. tauto.
  - intros Hno Hne Hnb.
    rewrite (proj2 (js_find_None _ tabs)).
    2: { intros x Hx. apply bool_decide_eq_false. by apply Hno. }
    rewrite (proj2 (js_find_None _ tabs)).
    2: { intros x Hx. apply bool_decide_eq_false. by apply Hne. }
    apply js_find_None. intros x Hx.
    rewrite !andb_false_iff, !bool_decide_eq_false.
    destruct (decide (tab_id x = 0)) as [|H0]; [tauto|].
    destruct (decide (tab_id x ∈ represented)) as [|Hr]; [tauto|].
    right. by apply Hnb.
Qed.

Variables (invert : bool) (pinnedUrls : gset string).


Lemma load_inv_snoc s row rep' urls' :
  load_inv parse_url tabs states s →
  row_tabId row = tab_id <$> existingTab parse_url tabs states (representedPinnedTabIds s)
                    (row_bookmarkId row) (row_url row) →
  rep' = list_to_set (omap row_tabId [row]) ∪ representedPinnedTabIds s →
  load_inv parse_url tabs states (mkLoadState rep' urls' (rows s ++ [row])).
Proof.
  intros [Hrep Hrows] Hrow ->. split; simpl.
  - rewrite omap_app, list_to_set_app_L, Hrep. set_solver.
  - intros i r Hi. destruct (decide (i < length (rows s))%nat) as [Hlt|Hge].
    + rewrite lookup_app_l in Hi by done. rewrite take_app_le by lia. by apply Hrows.
    + rewrite lookup_app_r in Hi by lia.
      destruct (i - length (rows s))%nat as [|k] eqn:Hk; simpl in Hi; [|done].
      injection Hi as <-. assert (i = length (rows s)) as -> by lia.
      rewrite take_app_length. by rewrite <- Hrep.
Qed.

Lemma foldl_load_inv (fs : list (LoadState → LoadState)) s :
  Forall (λ f, ∀ s, load_inv parse_url tabs states s → load_inv parse_url tabs states (f s)) fs →
  load_inv parse_url tabs states s → load_inv parse_url tabs states (foldl (λ acc f, f acc) s fs).
Proof.
  intros Hfs. revert s. induction Hfs as [|f fs Hf _ IH]; intros s Hs; simpl; [done|].
  apply IH. by apply Hf.
Qed.

Lemma processItem_load_inv item s : load_inv parse_url tabs states s → load_inv parse_url tabs states (processItem parse_url tabs states invert pinnedUrls item s).
Proof.
  revert s. induction item as [itemId t itemUrl d|i t d ch IH] using BookmarkNode_nested_ind;
    intros s Hs; simpl.
  - destruct (_ && _); [|done].
    destruct (existingTab parse_url tabs states _ itemId itemUrl) as [tab|] eqn:He.
    + apply (load_inv_snoc s (mkRow itemId itemUrl (Some (tab_id tab)))); simpl; try done.
      * by rewrite He.
      * set_solver.
    + apply (load_inv_snoc s (mkRow itemId itemUrl None)); simpl; try done.
      * by rewrite He.
      * set_solver.
  - case_bool_decide; [done|].
    match goal with |- load_inv parse_url tabs states (mkLoadState (representedPinnedTabIds ?x) _ (rows ?x)) =>
      assert (load_inv parse_url tabs states x) as Hinner end.
    { apply foldl_load_inv; [|by destruct Hs].
      assert (Hmap : Forall (λ f, ∀ s0, load_inv parse_url tabs states s0 → load_inv parse_url tabs states (f s0))
                       (List.map (processItem parse_url tabs states invert pinnedUrls) ch)).
      { clear -IH. induction IH; simpl; constructor; auto. }
      unfold itemsToRender. destruct invert; [by apply Forall_reverse|done]. }
    by destruct Hinner.
Qed.

Lemma processBookmarkNode_load_inv node :
  load_inv parse_url tabs states (processBookmarkNode parse_url tabs states invert pinnedUrls node).
Proof.
  unfold processBookmarkNode. apply foldl_load_inv.
  - assert (H : Forall (λ f, ∀ s, load_inv parse_url tabs states s → load_inv parse_url tabs states (f s))
                  (List.map (processItem parse_url tabs states invert pinnedUrls) (node_children node))).
    { induction (node_children node); simpl; constructor; [|done].
      intros s. apply processItem_load_inv. }
    unfold itemsToRender. destruct invert; [by apply Forall_reverse|done].
  - split; [done|]. intros i row Hi. done.
Qed.
Lemma pick_entries_cons seen e rest :
  pick_entries pinnedUrls seen (e :: rest)
  = pick_entries pinnedUrls seen [e] ++ pick_entries pinnedUrls (seen_after pinnedUrls e seen) rest.
Proof.
  destruct e as [[u|] own]; unfold seen_after; simpl.
  - destruct (_ && _); simpl; [by rewrite app_nil_r|done].
  - by rewrite app_nil_r.
Qed.

Lemma foldl_adds fs es s :
  Forall2 (adds pinnedUrls) fs es →
  row_entry <$> rows (foldl (λ acc f, f acc) s fs)
  = (row_entry <$> rows s) ++ pick_entries pinnedUrls (processedUrls s) es.
Proof.
  intros H. revert s. induction H as [|f e fs es Hf _ IH]; intros s; simpl.
  - by rewrite app_nil_r.
  - rewrite IH. destruct (Hf s) as [-> ->].
    rewrite <- (assoc_L (++)). f_equal. symmetry. apply (pick_entries_cons _ e es).
Qed.

Lemma itemsToRender_adds fs es :
  Forall2 (adds pinnedUrls) fs es → Forall2 (adds pinnedUrls) (itemsToRender invert fs) (itemsToRender invert es).
Proof. unfold itemsToRender. destruct invert; [apply Forall2_reverse|done]. Qed.

Lemma processItem_adds item :
  adds pinnedUrls (processItem parse_url tabs states invert pinnedUrls item)
       (item_entries invert pinnedUrls item).
Proof.
  induction item as [itemId t itemUrl d|i t d ch IH] using BookmarkNode_nested_ind;
    intros s.
  - simpl. unfold seen_after. simpl.
    destruct (_ && _); simpl; [|by rewrite app_nil_r].
    destruct (existingTab _ _ _ _ _ _); simpl; by rewrite fmap_app.
  - cbn [processItem item_entries]. unfold seen_after. cbn [fst pick_entries].
    case_bool_decide; [by rewrite !app_nil_r|]. cbn [rows processedUrls].
    split; [|done]. rewrite app_nil_r.
    rewrite (foldl_adds _ (itemsToRender invert (List.map (item_entries invert pinnedUrls) ch))).
    + done.
    + apply itemsToRender_adds. clear -IH. induction IH; simpl; constructor; auto.
Qed.

Lemma processBookmarkNode_entries node :
  row_entry <$> rows (processBookmarkNode parse_url tabs states invert pinnedUrls node)
  = rendered_entries invert pinnedUrls node.
Proof.
  unfold processBookmarkNode, rendered_entries.
  rewrite (foldl_adds _ (itemsToRender invert
             (List.map (item_entries invert pinnedUrls) (node_children node)))).
  - done.
  - apply itemsToRender_adds. induction (node_children node); simpl; constructor; [|done].
    apply processItem_adds.
Qed.

End MatchingRules.

(** A bookmark that is a child of the folder has a row for its URL, its own
    or that of a child handled earlier, unless a host-pinned tab is on it. *)
Lemma pick_entries_covers (pinnedUrls : gset string) seen items itemId itemUrl :
  (Some itemUrl, [(itemId, itemUrl)]) ∈ items →
  itemUrl ∉ pinnedUrls →
  (∀ u own, (Some u, own) ∈ items → ∃ i, own = [(i, u)]) →
  itemUrl ∈ seen ∨ ∃ i, (i, itemUrl) ∈ pick_entries pinnedUrls seen items.
Proof.
  intros Hin Hp. revert seen. induction items as [|[[u|] own] rest IH]; intros seen Hform.
  - by apply elem_of_nil in Hin.
  - simpl. destruct (Hform u own) as [i ->]; [left|].
    destruct (decide (u = itemUrl)) as [->|Hne].
    + destruct (decide (itemUrl ∈ seen)) as [Hs|Hs]; [by left|]. right.
      rewrite !bool_decide_eq_true_2 by done. simpl. exists i. left.
    + apply elem_of_cons in Hin as [[= ? ?]|Hin]; [done|].
      destruct (_ && _).
      * destruct (IH Hin ({[u]} ∪ seen)) as [Hs|[i' Hi']].
        { intros u' own' H'. apply Hform. by right. }
        { left. set_solver. }
        { right. exists i'. apply elem_of_app. by right. }
      * destruct (IH Hin seen) as [Hs|[i' Hi']]; [|by left|by right; exists i'].
        intros u' own' H'. apply Hform. by right.
  - simpl. apply elem_of_cons in Hin as [[=]|Hin].
    destruct (IH Hin seen) as [Hs|[i' Hi']]; [|by left|].
    + intros u' own' H'. apply Hform. by right.
    + right. exists i'. apply elem_of_app. by right.
Qed.

Lemma rendered_entries_covers (invert : bool) (pinnedUrls : gset string) node itemId title
    itemUrl date :
  Bookmark itemId title itemUrl date ∈ node_children node →
  itemUrl ∉ pinnedUrls →
  ∃ i, (i, itemUrl) ∈ rendered_entries invert pinnedUrls node.
Proof.
  intros Hin Hp. unfold rendered_entries.
  set (items := itemsToRender invert _).
  assert (Hmem : ∀ x, x ∈ items ↔ ∃ c, c ∈ node_children node
                                        ∧ x = item_entries invert pinnedUrls c).
  { intros x. unfold items, itemsToRender.
    assert (Hmap : ∀ l : list BookmarkNode,
              x ∈ List.map (item_entries invert pinnedUrls) l
              ↔ ∃ c, c ∈ l ∧ x = item_entries invert pinnedUrls c).
    { induction l as [|c l IHl]; simpl.
      - split; [by intros ?%elem_of_nil|by intros (? & ?%elem_of_nil & _)].
      - rewrite elem_of_cons, IHl. split.
        + intros [->|(c' & ? & ->)]; [exists c; split; [left|done]|exists c'; split; [by right|done]].
        + intros (c' & [->|?]%elem_of_cons & ->); [by left|right; by exists c']. }
    destruct invert; [rewrite elem_of_reverse|]; apply Hmap. }
  destruct (pick_entries_covers pinnedUrls ∅ items itemId itemUrl) as [Hs|Hr]; [| | |set_solver|done].
  - apply Hmem. by exists (Bookmark itemId title itemUrl date).
  - done.
  - intros u own (c & _ & Hc)%Hmem. destruct c as [i' t' u' d'|]; simpl in Hc; [|done].
    injection Hc as -> ->. by exists i'.
Qed.


(** C9 (amended): on space load the bookmark entries of the space folder
    are handled in order (reversed when the tab order is inverted),
    subfolders in place and folders titled _Favorites left out.  An entry
    gets no row when its URL is the URL of a host-pinned tab or an entry
    handled earlier in the same folder gave a row for that URL; every other
    entry gets a row, so that every bookmark that is a child of the space
    folder has a row for its URL unless a host-pinned tab is on it.  The
    tab of a row is chosen against the tabs of the rows before it, with
    this precedence: first a tab whose Pinned Tab State references the
    bookmark's id, then a tab whose URL equals the bookmark's URL, then a
    tab with the same origin+path that no earlier row has claimed, else no
    tab.  A tab chosen by the first two rules may already represent another
    bookmark. *)
Theorem loadTabs_matching parse_url tabs states invert pinnedUrls node
    represented itemId itemUrl :
  let s := processBookmarkNode parse_url tabs states invert pinnedUrls node in
  row_entry <$> rows s = rendered_entries invert pinnedUrls node
  ∧ (∀ i title u date,
       Bookmark i title u date ∈ node_children node → u ∉ pinnedUrls →
       ∃ row, row ∈ rows s ∧ row_url row = u)
  ∧ load_inv parse_url tabs states s
  ∧ let r := existingTab parse_url tabs states represented itemId itemUrl in
    ((∃ t, t ∈ tabs ∧ references states itemId t) →
       ∃ t1, r = Some t1 ∧ t1 ∈ tabs ∧ references states itemId t1)
    ∧ ((∀ t, t ∈ tabs → ¬ references states itemId t) →
       (∃ t, t ∈ tabs ∧ url t = itemUrl) →
       ∃ t2, r = Some t2 ∧ t2 ∈ tabs ∧ url t2 = itemUrl)
    ∧ ((∀ t, t ∈ tabs → ¬ references states itemId t) →
       (∀ t, t ∈ tabs → url t ≠ itemUrl) →
       (∃ t, t ∈ tabs ∧ tab_id t ≠ 0 ∧ (tab_id t ∉ represented)
             ∧ same_base parse_url itemUrl t) →
       ∃ t3, r = Some t3 ∧ t3 ∈ tabs ∧ tab_id t3 ≠ 0
             ∧ (tab_id t3 ∉ represented) ∧ same_base parse_url itemUrl t3)
    ∧ ((∀ t, t ∈ tabs → ¬ references states itemId t) →
       (∀ t, t ∈ tabs → url t ≠ itemUrl) →
       (∀ t, t ∈ tabs → tab_id t ≠ 0 → tab_id t ∉ represented →
             ¬ same_base parse_url itemUrl t) →
       r = None).
Proof.
  intros s.
  pose proof (processBookmarkNode_entries parse_url tabs states invert pinnedUrls node)
    as Hrows. fold s in Hrows.
  split; [exact Hrows|]. split; [|split].
  - intros i title u date Hin Hp.
    destruct (rendered_entries_covers invert pinnedUrls node i title u date Hin Hp)
      as [i' Hi']. rewrite <- Hrows in Hi'.
    apply list_elem_of_fmap in Hi' as (row & Hrow & Hr). exists row. split; [done|].
    unfold row_entry in Hrow. by injection Hrow as _ <-.
  - apply processBookmarkNode_load_inv.
  - apply existingTab_rules.
Qed.

(** C9, witness: the sample folder, loaded in inverted order.  The nested
    bookmark "13" is handled first and takes tab 41, open on its address;
    the Pinned Tab State of tab 42 names bookmark "11", so tab 42 is chosen
    for it although tab 41 is open on the exact address. *)
Lemma loadTabs_matching_sample :
  let s := processBookmarkNode parse_http_url doc_tabs2 doc_states true ∅
             twice_bookmarked_folder in
  row_entry <$> rows s
  = [("13", "https://docs.example/d/1"); ("11", "https://docs.example/d/1")]
  ∧ rows s = [mkRow "13" "https://docs.example/d/1" (Some 41);
              mkRow "11" "https://docs.example/d/1" (Some 42)]
  ∧ (∃ row, row ∈ rows s ∧ row_url row = "https://docs.example/d/1")
  ∧ ∃ t1, existingTab parse_http_url doc_tabs2 doc_states ∅ "11" "https://docs.example/d/1"
          = Some t1
          ∧ t1 ∈ doc_tabs2 ∧ references doc_states "11" t1.
Proof.
  destruct (loadTabs_matching parse_http_url doc_tabs2 doc_states true ∅
              twice_bookmarked_folder ∅ "11" "https://docs.example/d/1")
    as (Hentries & Hcover & _ & Hrule & _).
  split; [rewrite Hentries; vm_compute; reflexivity|].
  split; [vm_compute; reflexivity|]. split.
  - apply (Hcover "11" "Doc" "https://docs.example/d/1" 110); [left|by_compute].
  - apply Hrule. exists (mkTab 42 1 false 7 "https://docs.example/d/1?tab=2").
    split; [right; left|]. reflexivity.
Defined.

(** C9, as stated, fails twice.  The space folder holds one address at its
    root and in a nested folder: the one tab open on it is chosen for both
    rows.  And a folder holds two bookmarks of one address: the second one
    gets no row, and so no tab, although the Pinned Tab State of an open
    tab names it. *)
Lemma loadTabs_tab_represents_two_bookmarks :
  let s := processBookmarkNode parse_http_url doc_tabs ∅ true ∅ twice_bookmarked_folder in
  let s2 := processBookmarkNode parse_http_url repeated_tabs repeated_states false ∅
              repeated_bookmark_folder in
  rows s = [mkRow "13" "https://docs.example/d/1" (Some 41);
            mkRow "11" "https://docs.example/d/1" (Some 41)]
  ∧ ¬ NoDup (omap row_tabId (rows s))
  ∧ rows s2 = [mkRow "11" "https://docs.example/d/1" (Some 41)]
  ∧ (∃ t, t ∈ repeated_tabs ∧ references repeated_states "14" t)
  ∧ "14" ∉ row_bookmarkId <$> rows s2.
Proof.
  intros s s2.
  assert (H2 : rows s2 = [mkRow "11" "https://docs.example/d/1" (Some 41)])
    by (vm_compute; reflexivity).
  split; [vm_compute; reflexivity|]. split; [|split; [exact H2|split]].
  - assert (H : omap row_tabId (rows s) = [41; 41]) by (vm_compute; reflexivity).
    rewrite H. intros [Hn _]%NoDup_cons. apply Hn. left.
  - exists (mkTab 43 1 false 7 "https://docs.example/d/1?tab=3").
    split; [right; left|reflexivity].
  - rewrite H2. by_compute.
Qed.

(** ** Merging duplicate folders *)

Lemma node_id_set_children c n : node_id (set_children c n) = node_id n.
Proof. by destruct n. Qed.

Lemma foldl_map_apply {A S B} (l : list A) (g : A → S → B → B) (s : S) (b : B) :
  foldl (λ acc f, f s acc) b (List.map g l) = foldl (λ acc x, g x s acc) b l.
Proof. revert b. induction l as [|x r IH]; intros b; simpl; [done|]. apply IH. Qed.

Lemma alter_children_ext i f g l :
  (∀ c, f c = g c) → alter_children i f l = alter_children i g l.
Proof.
  intros H. induction l as [|n r IH]; simpl; [done|].
  case_bool_decide; [by rewrite H|by rewrite IH].
Qed.

(** The recursive call is the routine itself on the two subfolders. *)
Lemma mergeItem_folder i title d ch tgt live :
  mergeItem (Folder i title d ch) tgt live
  = match subfolder_titled title tgt with
    | Some existing => alter_children (node_id existing) (mergeFolderContents ch) live
    | None => live ++ [Folder i title d ch]
    end.
Proof.
  simpl. destruct (subfolder_titled title tgt) as [x|]; [|done].
  apply alter_children_ext. intros sub. unfold mergeFolderContents.
  apply (foldl_map_apply ch mergeItem sub sub).
Qed.

Lemma alter_children_fmap i f l :
  NoDup (node_id <$> l) →
  alter_children i f l
  = (λ n, if bool_decide (node_id n = i) then set_children (f (node_children n)) n else n) <$> l.
Proof.
  induction l as [|n r IH]; intros Hnd; simpl; [done|].
  rewrite fmap_cons in Hnd. apply NoDup_cons in Hnd as [Hn Hnd].
  case_bool_decide as Hi; [|by rewrite IH].
  f_equal. symmetry. rewrite <- (list_fmap_id r) at 2. apply list_fmap_ext.
  intros k m Hm. rewrite bool_decide_eq_false_2; [done|].
  intros Hmi. apply Hn. rewrite Hi, <- Hmi. eapply list_elem_of_fmap_2, list_elem_of_lookup_2, Hm.
Qed.

Lemma alter_children_app i f l1 l2 :
  (∃ n, n ∈ l1 ∧ node_id n = i) →
  alter_children i f (l1 ++ l2) = alter_children i f l1 ++ l2.
Proof.
  induction l1 as [|n r IH]; intros (m & Hm & Hi); [by apply elem_of_nil in Hm|].
  simpl. case_bool_decide as Hn; [done|]. simpl. f_equal. apply IH.
  apply elem_of_cons in Hm as [->|Hm]; [done|]. by exists m.
Qed.

Lemma NoDup_fmap_elem_eq {A B} (f : A → B) (l : list A) x y :
  NoDup (f <$> l) → x ∈ l → y ∈ l → f x = f y → x = y.
Proof.
  induction l as [|z r IH]; intros Hnd Hx Hy Hf; [by apply elem_of_nil in Hx|].
  rewrite fmap_cons in Hnd. apply NoDup_cons in Hnd as [Hz Hnd].
  apply elem_of_cons in Hx as [->|Hx]; apply elem_of_cons in Hy as [->|Hy]; try done.
  - exfalso. apply Hz. rewrite Hf. by apply list_elem_of_fmap_2.
  - exfalso. apply Hz. rewrite <- Hf. by apply list_elem_of_fmap_2.
  - by apply IH.
Qed.

Section ClosedForm.
Variable tgt : list BookmarkNode.
Hypothesis Hnd : NoDup (node_id <$> tgt).

Lemma node_id_merged_child p t : node_id (merged_child p tgt t) = node_id t.
Proof. destruct t; simpl; [done|]. by case_bool_decide. Qed.

Lemma merged_child_nil t : merged_child [] tgt t = t.
Proof. destruct t; simpl; [done|]. by case_bool_decide. Qed.

Lemma merged_child_snoc_bookmark p i ti u d t :
  merged_child (p ++ [Bookmark i ti u d]) tgt t = merged_child p tgt t.
Proof.
  destruct t as [|it tt dt ct]; simpl; [done|]. case_bool_decide; [|done].
  rewrite filter_app, filter_cons_False, app_nil_r; [done|]. simpl. by intros [? _].
Qed.

Lemma merged_child_snoc_other p item t :
  (∀ x, subfolder_titled (node_title item) tgt = Some x → node_id x ≠ node_id t) →
  is_folder item = true →
  merged_child (p ++ [item]) tgt t = merged_child p tgt t.
Proof.
  intros Hx Hf. destruct t as [|it tt dt ct]; simpl; [done|].
  case_bool_decide as Ht; [|done].
  rewrite filter_app, filter_cons_False, app_nil_r; [done|].
  intros [_ Heq]. destruct (subfolder_titled tt tgt) as [x|] eqn:Hs; [|done].
  simpl in Ht. injection Ht as Ht. rewrite <- Heq in Hs. by apply (Hx x Hs).
Qed.

Lemma subfolder_titled_Some title x :
  subfolder_titled title tgt = Some x →
  x ∈ tgt ∧ ∃ d c, x = Folder (node_id x) title d c.
Proof.
  intros [Hx Hp]%js_find_Some. split; [done|].
  apply andb_true_iff in Hp as [Hf Ht%bool_decide_eq_true].
  destruct x as [|i t d c]; [done|]. simpl in *. subst. by exists d, c.
Qed.

Lemma merge_into_existing p i title d ch x :
  subfolder_titled title tgt = Some x →
  alter_children (node_id x) (mergeFolderContents ch) (merged_child p tgt <$> tgt)
  = merged_child (p ++ [Folder i title d ch]) tgt <$> tgt.
Proof.
  intros Hs. pose proof (subfolder_titled_Some title x Hs) as (Hx & dx & cx & Ex).
  rewrite alter_children_fmap.
  2: { rewrite <- list_fmap_compose. erewrite list_fmap_ext; [exact Hnd|].
       intros k t _. simpl. apply node_id_merged_child. }
  rewrite <- list_fmap_compose. apply list_fmap_ext. intros k t Ht. simpl.
  rewrite node_id_merged_child.
  apply list_elem_of_lookup_2 in Ht.
  case_bool_decide as Hid.
  - assert (t = x) as -> by (by apply (NoDup_fmap_elem_eq node_id tgt)).
    rewrite Ex. simpl. rewrite Hs. simpl.
    rewrite !bool_decide_eq_true_2 by done. simpl.
    rewrite filter_app, filter_cons_True, foldl_app by done. done.
  - symmetry. apply merged_child_snoc_other; [|done]. simpl.
    intros y Hy. rewrite Hs in Hy. injection Hy as <-. done.
Qed.

Lemma mergeItem_step p item :
  mergeItem item tgt
    ((merged_child p tgt <$> tgt) ++ filter (λ x, is_new tgt x = true) p)
  = (merged_child (p ++ [item]) tgt <$> tgt)
    ++ filter (λ x, is_new tgt x = true) (p ++ [item]).
Proof.
  rewrite filter_app. destruct item as [i ti u d|i title d ch].
  - replace (merged_child (p ++ [Bookmark i ti u d]) tgt <$> tgt)
      with (merged_child p tgt <$> tgt).
    2: { apply list_fmap_ext. intros k t _. symmetry. apply merged_child_snoc_bookmark. }
    simpl. destruct (url_in u tgt) eqn:Hu.
    + rewrite filter_cons_False, app_nil_r; [done|]. simpl. by rewrite Hu.
    + rewrite filter_cons_True, app_assoc; [done|]. simpl. by rewrite Hu.
  - rewrite mergeItem_folder. destruct (subfolder_titled title tgt) as [x|] eqn:Hs.
    + rewrite filter_cons_False, app_nil_r by (simpl; by rewrite Hs).
      rewrite alter_children_app.
      * by rewrite (merge_into_existing p i title d ch x Hs).
      * pose proof (subfolder_titled_Some title x Hs) as (Hx & _).
        exists (merged_child p tgt x). split; [by apply list_elem_of_fmap_2|].
        apply node_id_merged_child.
    + rewrite filter_cons_True by (simpl; by rewrite Hs). rewrite app_assoc. do 2 f_equal.
      apply list_fmap_ext. intros k t _. symmetry.
      apply merged_child_snoc_other; [|done]. simpl. intros y Hy. congruence.
Qed.

(** The children of the target after the merge: its own children in their
    places, the folders among them merged with the source folders of the
    same title, then the source items it did not have, in source order. *)
Lemma mergeFolderContents_closed src :
  mergeFolderContents src tgt
  = (merged_child src tgt <$> tgt) ++ filter (λ x, is_new tgt x = true) src.
Proof.
  unfold mergeFolderContents.
  assert (H : ∀ rest p,
    foldl (λ acc item, mergeItem item tgt acc)
      ((merged_child p tgt <$> tgt) ++ filter (λ x, is_new tgt x = true) p) rest
    = (merged_child (p ++ rest) tgt <$> tgt)
      ++ filter (λ x, is_new tgt x = true) (p ++ rest)).
  { induction rest as [|item rest IH]; intros p; simpl; [by rewrite app_nil_r|].
    rewrite mergeItem_step, IH, <- app_assoc. done. }
  specialize (H src []). simpl in H. rewrite <- H. f_equal.
  rewrite app_nil_r. rewrite <- (list_fmap_id tgt) at 1. apply list_fmap_ext.
  intros k t _. simpl. symmetry. apply merged_child_nil.
Qed.
End ClosedForm.

(** *** One source folder, then a group *)

Lemma omap_omap {A B C} (f : A → option B) (g : B → option C) (l : list A) :
  omap g (omap f l) = omap (λ x, f x ≫= g) l.
Proof.
  induction l as [|x r IH]; [done|].
  change (omap f (x :: r)) with (match f x with Some y => y :: omap f r | None => omap f r end).
  change (omap (λ x, f x ≫= g) (x :: r))
    with (match f x ≫= g with Some y => y :: omap (λ x, f x ≫= g) r
          | None => omap (λ x, f x ≫= g) r end).
  destruct (f x) as [y|]; simpl; [|exact IH].
  destruct (g y); [f_equal|]; exact IH.
Qed.

Lemma omap_ext_in {A B} (f g : A → option B) (l : list A) :
  (∀ x, x ∈ l → f x = g x) → omap f l = omap g l.
Proof.
  intros H. apply list_omap_ext, Forall_Forall2_diag, Forall_forall. exact H.
Qed.

Lemma children_of_elem s l :
  NoDup (node_id <$> l) → s ∈ l → children_of (node_id s) l = node_children s.
Proof.
  intros Hnd Hs. unfold children_of.
  destruct (js_find _ l) as [n|] eqn:Hf.
  - apply js_find_Some in Hf as [Hn Hi%bool_decide_eq_true].
    by rewrite (NoDup_fmap_elem_eq node_id l n s Hnd Hn Hs Hi).
  - rewrite js_find_None in Hf. specialize (Hf s Hs).
    by apply bool_decide_eq_false in Hf.
Qed.

Lemma node_id_if_set_children (b : bool) c n :
  node_id (if b then set_children c n else n) = node_id n.
Proof. destruct b; [apply node_id_set_children|done]. Qed.

Lemma elem_of_ids_singleton i (s : BookmarkNode) :
  i ∈ node_id <$> [s] ↔ i = node_id s.
Proof. rewrite list_fmap_singleton. apply list_elem_of_singleton. Qed.

Lemma merge_source_view tid live s :
  NoDup (node_id <$> live) → s ∈ live →
  merge_source tid live s = omap (group_view tid [s]) live.
Proof.
  intros Hnd Hs. unfold merge_source, remove_node.
  rewrite children_of_elem, alter_children_fmap by done.
  clear Hnd Hs. induction live as [|n r IH]; [done|].
  rewrite fmap_cons, filter_cons.
  change (omap (group_view tid [s]) (n :: r))
    with (match group_view tid [s] n with
          | Some y => y :: omap (group_view tid [s]) r
          | None => omap (group_view tid [s]) r end).
  rewrite <- IH. rewrite node_id_if_set_children. unfold group_view.
  destruct (decide (node_id n = node_id s)) as [Hn|Hn].
  - rewrite (bool_decide_eq_true_2 (node_id n ∈ node_id <$> [s]))
      by (by apply elem_of_ids_singleton).
    rewrite decide_False; [done|]. tauto.
  - rewrite (bool_decide_eq_false_2 (node_id n ∈ node_id <$> [s]))
      by (by rewrite elem_of_ids_singleton).
    rewrite decide_True by done. done.
Qed.

Lemma node_id_group_view tid srcs n n' :
  group_view tid srcs n = Some n' → node_id n' = node_id n.
Proof.
  unfold group_view. case_bool_decide; [done|]. intros [= <-].
  case_bool_decide; [apply node_id_set_children|done].
Qed.

Lemma omap_view_NoDup (v : BookmarkNode → option BookmarkNode) l :
  (∀ n n', v n = Some n' → node_id n' = node_id n) →
  NoDup (node_id <$> l) → NoDup (node_id <$> omap v l).
Proof.
  intros Hv Hnd. eapply sublist_NoDup; [exact Hnd|].
  clear Hnd. induction l as [|n r IH]; simpl; [done|].
  destruct (v n) as [n'|] eqn:Hn; simpl.
  - rewrite (Hv n n' Hn). by constructor.
  - by constructor.
Qed.

Lemma set_children_twice c1 c2 n : set_children c2 (set_children c1 n) = set_children c2 n.
Proof. by destruct n. Qed.

Lemma group_view_cons tid s r n :
  group_view tid [s] n ≫= group_view tid r = group_view tid (s :: r) n.
Proof.
  unfold group_view.
  destruct (decide (node_id n = node_id s)) as [Hs|Hs].
  - rewrite (bool_decide_eq_true_2 (node_id n ∈ node_id <$> [s]))
      by (by apply elem_of_ids_singleton). simpl.
    rewrite bool_decide_eq_true_2; [done|]. rewrite Hs. left.
  - rewrite (bool_decide_eq_false_2 (node_id n ∈ node_id <$> [s]))
      by (by rewrite elem_of_ids_singleton).
    cbn [mbind option_bind]. rewrite node_id_if_set_children.
    destruct (decide (node_id n ∈ node_id <$> r)) as [Hr|Hr].
    + rewrite (bool_decide_eq_true_2 (node_id n ∈ node_id <$> r)) by done.
      rewrite bool_decide_eq_true_2; [done|]. rewrite fmap_cons. by right.
    + rewrite (bool_decide_eq_false_2 (node_id n ∈ node_id <$> r)) by done.
      rewrite (bool_decide_eq_false_2 (node_id n ∈ node_id <$> s :: r)).
      2: { rewrite fmap_cons, elem_of_cons. tauto. }
      f_equal. case_bool_decide; [|done].
      rewrite set_children_twice. destruct n; simpl; done.
Qed.

Lemma merge_sources_view tid srcs live :
  NoDup (node_id <$> live) →
  (∀ s, s ∈ srcs → s ∈ live) →
  NoDup (node_id <$> srcs) →
  tid ∉ node_id <$> srcs →
  foldl (merge_source tid) live srcs = omap (group_view tid srcs) live.
Proof.
  revert live. induction srcs as [|s r IH]; intros live Hnd Hin Hsrc Ht.
  - simpl. clear. induction live as [|n l IHl]; [done|].
    change (omap (group_view tid []) (n :: l))
      with (match group_view tid [] n with
            | Some y => y :: omap (group_view tid []) l
            | None => omap (group_view tid []) l end).
    rewrite <- IHl. unfold group_view.
    rewrite (bool_decide_eq_false_2 (node_id n ∈ node_id <$> [])) by apply not_elem_of_nil.
    f_equal. case_bool_decide; [|done]. by destruct n.
  - simpl. rewrite fmap_cons in Hsrc, Ht. apply NoDup_cons in Hsrc as [Hs Hsrc].
    apply not_elem_of_cons in Ht as [Hts Ht].
    rewrite merge_source_view by (try done; apply Hin; left).
    rewrite IH; try done.
    + rewrite omap_omap. apply omap_ext_in. intros n _. apply group_view_cons.
    + apply omap_view_NoDup; [apply node_id_group_view|done].
    + intros s' Hs'. apply list_elem_of_omap. exists s'. split; [apply Hin; by right|].
      unfold group_view.
      assert (node_id s' ≠ node_id s).
      { intros Heq. apply Hs. rewrite <- Heq. by apply list_elem_of_fmap_2. }
      rewrite (bool_decide_eq_false_2 (node_id s' ∈ node_id <$> [s]))
        by (by rewrite elem_of_ids_singleton).
      rewrite bool_decide_eq_false_2; [done|].
      intros Heq. apply Ht. rewrite <- Heq. by apply list_elem_of_fmap_2.
Qed.

(** *** All the groups *)

Lemma elem_of_first_occurrences seen l x :
  x ∈ first_occurrences seen l ↔ x ∈ l ∧ x ∉ seen.
Proof.
  revert seen. induction l as [|y r IH]; intros seen; simpl.
  - rewrite elem_of_nil. tauto.
  - case_bool_decide; rewrite ?elem_of_cons, IH, ?not_elem_of_cons;
      destruct (decide (x = y)); naive_solver.
Qed.

Lemma NoDup_first_occurrences seen l : NoDup (first_occurrences seen l).
Proof.
  revert seen. induction l as [|y r IH]; intros seen; simpl; [constructor|].
  case_bool_decide; [done|]. constructor; [|done].
  rewrite elem_of_first_occurrences, not_elem_of_cons. tauto.
Qed.

Lemma omap_Some_id {A} (f : A → option A) (l : list A) :
  (∀ x, x ∈ l → f x = Some x) → omap f l = l.
Proof.
  induction l as [|x r IH]; intros H; [done|].
  change (omap f (x :: r)) with (match f x with Some y => y :: omap f r | None => omap f r end).
  rewrite (H x) by left. f_equal. apply IH. intros y Hy. apply H. by right.
Qed.

Section Top.
Variable root : list BookmarkNode.
Hypothesis Hnd : NoDup (node_id <$> root).

Let by_date := λ a b : BookmarkNode, node_dateAdded a - node_dateAdded b.

Lemma elem_of_title_group n title :
  n ∈ title_group root title ↔ n ∈ root ∧ is_folder n = true ∧ node_title n = title.
Proof. unfold title_group. rewrite !list_elem_of_filter. tauto. Qed.

Lemma title_group_ids_NoDup title : NoDup (node_id <$> title_group root title).
Proof.
  eapply sublist_NoDup; [exact Hnd|]. apply fmap_sublist. unfold title_group.
  etrans; apply sublist_filter.
Qed.

Lemma sorted_group_perm title : js_sort by_date (title_group root title) ≡ₚ title_group root title.
Proof. apply js_sort_perm. Qed.

Lemma node_id_final_view n n' : final_view root n = Some n' → node_id n' = node_id n.
Proof.
  destruct n as [|i t d c]; simpl; [by intros [= <-]|].
  case_bool_decide; [|by intros [= <-]].
  destruct (js_sort _ _) as [|tf srcs]; [by intros [= <-]|]. apply node_id_group_view.
Qed.

Lemma node_id_partial_view done n n' :
  partial_view root done n = Some n' → node_id n' = node_id n.
Proof.
  destruct n as [|i t d c]; simpl; [by intros [= <-]|].
  case_bool_decide; [apply (node_id_final_view (Folder i t d c))|by intros [= <-]].
Qed.

(** A node outside a group shares no id with the members of the group. *)
Lemma outside_group_id title n x :
  n ∈ root → ¬ (is_folder n = true ∧ node_title n = title) →
  x ∈ title_group root title → node_id n ≠ node_id x.
Proof.
  intros Hn Hout Hx Hid. apply elem_of_title_group in Hx as (Hx & Hf & Ht).
  assert (n = x) as -> by (by apply (NoDup_fmap_elem_eq node_id root)). tauto.
Qed.

Lemma merge_group_step (done : gset string) title :
  title ∉ done →
  merge_group (omap (partial_view root done) root) (title_group root title)
  = omap (partial_view root ({[title]} ∪ done)) root.
Proof.
  intros Hdone. unfold merge_group. fold by_date.
  pose proof (sorted_group_perm title) as Hperm.
  pose proof (title_group_ids_NoDup title) as Hgnd.
  case_bool_decide as Hlen.
  - destruct (js_sort by_date (title_group root title)) as [|tf srcs] eqn:Hsort.
    { apply Permutation_nil_l in Hperm. rewrite <- Hperm in Hlen. simpl in Hlen. lia. }
    assert (Hmem : ∀ x, x ∈ tf :: srcs → x ∈ title_group root title).
    { intros x Hx. by rewrite <- Hperm. }
    assert (Hsnd : NoDup (node_id <$> tf :: srcs)) by (by rewrite Hperm).
    rewrite fmap_cons in Hsnd. apply NoDup_cons in Hsnd as [Htf Hsrcs].
    rewrite merge_sources_view; try done.
    + rewrite omap_omap. apply omap_ext_in. intros n Hn.
      destruct (decide (is_folder n = true ∧ node_title n = title)) as [[Hf Ht]|Hout].
      * destruct n as [|i t d c]; [done|]. simpl in Ht. subst t. simpl.
        rewrite bool_decide_eq_false_2 by done.
        rewrite bool_decide_eq_true_2 by set_solver. simpl.
        rewrite bool_decide_eq_true_2 by done. fold by_date. by rewrite Hsort.
      * assert (Hpv : partial_view root ({[title]} ∪ done) n = partial_view root done n).
        { destruct n as [|i t d c]; simpl; [done|].
          assert (t ≠ title) by (intros ->; apply Hout; done).
          destruct (decide (t ∈ done)).
          - rewrite (bool_decide_eq_true_2 (t ∈ {[title]} ∪ done)) by set_solver.
            by rewrite (bool_decide_eq_true_2 (t ∈ done)).
          - rewrite (bool_decide_eq_false_2 (t ∈ {[title]} ∪ done)) by set_solver.
            by rewrite (bool_decide_eq_false_2 (t ∈ done)). }
        rewrite Hpv. destruct (partial_view root done n) as [n'|] eqn:Hv; [|done].
        simpl. apply node_id_partial_view in Hv. unfold group_view. rewrite Hv.
        rewrite (bool_decide_eq_false_2 (node_id n ∈ node_id <$> srcs)).
        2: { intros (x & Hid & Hx)%list_elem_of_fmap.
             apply (outside_group_id title n x); try done.
             apply Hmem. by right. }
        rewrite bool_decide_eq_false_2; [done|].
        apply (outside_group_id title n tf); try done. apply Hmem. left.
    + apply omap_view_NoDup; [apply node_id_partial_view|done].
    + intros s Hs. apply list_elem_of_omap. exists s.
      assert (s ∈ title_group root title) as Hg by (apply Hmem; by right).
      apply elem_of_title_group in Hg as (Hr & Hf & Ht). split; [done|].
      destruct s as [|i t d c]; [done|]. simpl in *. subst t.
      by rewrite bool_decide_eq_false_2.
  - apply omap_ext_in. intros n Hn. destruct n as [|i t d c]; simpl; [done|].
    destruct (decide (t = title)) as [->|Hne].
    + rewrite bool_decide_eq_false_2 by done.
      rewrite bool_decide_eq_true_2 by set_solver.
      by rewrite bool_decide_eq_false_2.
    + destruct (decide (t ∈ done)).
      * rewrite (bool_decide_eq_true_2 (t ∈ {[title]} ∪ done)) by set_solver.
        by rewrite (bool_decide_eq_true_2 (t ∈ done)).
      * rewrite (bool_decide_eq_false_2 (t ∈ {[title]} ∪ done)) by set_solver.
        by rewrite (bool_decide_eq_false_2 (t ∈ done)).
Qed.

Lemma merge_groups_view titles (done : gset string) :
  NoDup titles → (∀ t, t ∈ titles → t ∉ done) →
  foldl merge_group (omap (partial_view root done) root) (title_group root <$> titles)
  = omap (partial_view root (list_to_set titles ∪ done)) root.
Proof.
  revert done. induction titles as [|t ts IH]; intros done Hts Hdone; simpl.
  - by rewrite (left_id_L ∅ (∪)).
  - apply NoDup_cons in Hts as [Ht Hts].
    rewrite merge_group_step by (apply Hdone; left).
    rewrite IH; [|done|].
    + do 2 f_equal. apply set_eq. intros x. rewrite !elem_of_union. tauto.
    + intros t' Ht'. rewrite not_elem_of_union, not_elem_of_singleton. split.
      * intros ->. done.
      * apply Hdone. by right.
Qed.

(** The children of the BarCat folder after the routine. *)
Lemma mergeDuplicateSpaceFolders_view :
  mergeDuplicateSpaceFolders root = omap (final_view root) root.
Proof.
  unfold mergeDuplicateSpaceFolders, folderGroups.
  set (titles := first_occurrences [] _).
  rewrite <- (omap_Some_id (partial_view root ∅) root) at 1.
  2: { intros n _. destruct n; simpl; [done|]. by rewrite bool_decide_eq_false_2. }
  change (λ name, filter (λ n, node_title n = name) (filter (λ n, is_folder n = true) root))
    with (title_group root).
  rewrite merge_groups_view; [|apply NoDup_first_occurrences|set_solver].
  apply omap_ext_in. intros n Hn. destruct n as [|i t d c]; simpl; [done|].
  rewrite bool_decide_eq_true_2; [done|].
  rewrite elem_of_union, elem_of_list_to_set. left. unfold titles.
  rewrite elem_of_first_occurrences. split; [|apply not_elem_of_nil].
  apply (list_elem_of_fmap_2 node_title _ (Folder i t d c)).
  by apply list_elem_of_filter.
Qed.
End Top.

(** C8 (amended): on a BarCat folder whose children have distinct ids, for
    every title shared by more than one folder the routine keeps the folder
    with the oldest creation time, in place, with the other folders of the
    title merged into it one after the other, and deletes those other
    folders; every other child is left as it is.  A merge reads the
    children of the target once, when it begins, and every source item is
    compared with that list: the target's children stay in place, each
    source subfolder whose title a listed subfolder has is merged into it
    (recursively, the source subfolder then being removed), a source
    bookmark whose URL a listed bookmark has is removed, and all other
    source items are moved to the end of the target, in source order. *)
Theorem mergeDuplicateSpaceFolders_spec root :
  NoDup (node_id <$> root) →
  let result := mergeDuplicateSpaceFolders root in
  result = omap (final_view root) root
  ∧ (∀ title,
       let group := title_group root title in
       (1 < length group)%nat →
       ∃ target sources,
         js_sort (λ a b, node_dateAdded a - node_dateAdded b) group = target :: sources
         ∧ target ∈ group
         ∧ (∀ f, f ∈ group → node_dateAdded target ≤ node_dateAdded f)
         ∧ set_children
             (foldl (λ c s, mergeFolderContents (node_children s) c)
                (node_children target) sources) target ∈ result
         ∧ (∀ s, s ∈ group → s ≠ target → s ∈ sources)
         ∧ (∀ s, s ∈ sources → s ∈ group ∧ node_id s ∉ node_id <$> result))
  ∧ (∀ src tgt,
       NoDup (node_id <$> tgt) →
       mergeFolderContents src tgt
       = (merged_child src tgt <$> tgt) ++ filter (λ x, is_new tgt x = true) src).
Proof.
  intros Hnd result.
  assert (Hres : result = omap (final_view root) root)
    by (by apply mergeDuplicateSpaceFolders_view).
  split; [exact Hres|]. split; [|intros src tgt Ht; by apply mergeFolderContents_closed].
  intros title group Hlen.
  set (by_date := λ a b : BookmarkNode, node_dateAdded a - node_dateAdded b).
  pose proof (js_sort_perm by_date group) as Hperm.
  pose proof (js_sort_strongly_sorted by_date) as Hsorted.
  specialize (Hsorted ltac:(unfold by_date; intros; lia) ltac:(unfold by_date; intros; lia) group).
  destruct (js_sort by_date group) as [|target sources] eqn:Hsort.
  { apply Permutation_nil_l in Hperm. rewrite <- Hperm in Hlen. simpl in Hlen. lia. }
  exists target, sources. split; [done|].
  assert (Hmem : ∀ x, x ∈ target :: sources ↔ x ∈ group) by (intros x; by rewrite Hperm).
  assert (Hgnd : NoDup (node_id <$> target :: sources)).
  { rewrite Hperm. by apply title_group_ids_NoDup. }
  rewrite fmap_cons in Hgnd. apply NoDup_cons in Hgnd as [Htid Hsnd].
  assert (Htg : target ∈ group) by (apply Hmem; left).
  assert (Hfv : ∀ n, n ∈ group → final_view root n = group_view (node_id target) sources n).
  { intros n (Hn & Hf & Ht)%elem_of_title_group. destruct n as [|i t d c]; [done|].
    simpl in Ht. subst t. simpl. fold group. rewrite bool_decide_eq_true_2 by done.
    fold by_date. by rewrite Hsort. }
  split; [done|]. split; [|split; [|split]].
  - apply StronglySorted_cons in Hsorted as [Hhd _]. rewrite Forall_forall in Hhd.
    intros f [->|Hf]%Hmem%elem_of_cons; [lia|]. specialize (Hhd f Hf). unfold by_date in Hhd. lia.
  - rewrite Hres. apply list_elem_of_omap. exists target.
    split; [by apply elem_of_title_group in Htg as (? & _)|].
    rewrite Hfv by done. unfold group_view.
    rewrite bool_decide_eq_false_2 by done. by rewrite bool_decide_eq_true_2.
  - intros s [->|Hs]%Hmem%elem_of_cons Hne; done.
  - intros s Hs. assert (s ∈ group) as Hsg by (apply Hmem; by right).
    split; [done|]. rewrite Hres.
    intros (n' & Hid & (n & Hn & Hv)%list_elem_of_omap)%list_elem_of_fmap.
    pose proof (node_id_final_view root n n' Hv) as Hid'.
    assert (n = s) as ->.
    { apply (NoDup_fmap_elem_eq node_id root); [done|done| |congruence].
      by apply elem_of_title_group in Hsg as (? & _). }
    rewrite Hfv in Hv by done. unfold group_view in Hv.
    rewrite bool_decide_eq_true_2 in Hv; [done|]. by apply list_elem_of_fmap_2.
Qed.

(** C8, witness: the two "Work" folders of the sample are merged into the
    older one, which stays where it was; "Home" is untouched. *)
Lemma mergeDuplicateSpaceFolders_sample :
  mergeDuplicateSpaceFolders duplicated_root
  = omap (final_view duplicated_root) duplicated_root
  ∧ mergeDuplicateSpaceFolders duplicated_root
    = [Folder "30" "Home" 300 [Bookmark "31" "News" "https://news.example/" 301];
       Folder "40" "Work" 100
         [Bookmark "41" "Mail" "https://mail.example/" 101;
          Folder "43" "Docs" 103
            [Bookmark "44" "Spec" "https://docs.example/spec" 104;
             Bookmark "25" "Plan" "https://docs.example/plan" 505];
          Bookmark "22" "Wiki" "https://wiki.example/" 502;
          Folder "26" "Misc" 506 [Bookmark "27" "Map" "https://map.example/" 507]]].
Proof.
  split.
  - apply (mergeDuplicateSpaceFolders_spec duplicated_root). by_compute.
  - vm_compute. reflexivity.
Defined.

(** C8, as stated, fails: the newer folder "Work" holds one address twice
    and two subfolders "Docs", and the older one is empty.  When the second
    bookmark is handled the target already holds its URL, yet it is moved,
    not removed, and the second subfolder is moved beside the first one,
    not merged into it: the kept folder ends with two bookmarks of one URL
    and two subfolders of one title. *)
Lemma merge_moves_duplicates_within_a_source :
  let u := "https://a.example/" in
  let first := Bookmark "62" "A" u 201 in
  let second := Bookmark "63" "A again" u 202 in
  let kept := children_of "60" (mergeDuplicateSpaceFolders twin_source_root) in
  NoDup (node_id <$> twin_source_root)
  ∧ mergeFolderContents [first] [] = [first]
  ∧ url_in u [first] = true
  ∧ kept = [first; second;
            Folder "64" "Docs" 203 [Bookmark "66" "Spec" "https://docs.example/spec" 204];
            Folder "65" "Docs" 205 [Bookmark "67" "Plan" "https://docs.example/plan" 206]]
  ∧ ¬ NoDup (omap node_url kept)
  ∧ ¬ NoDup (node_title <$> filter (λ n, is_folder n = true) kept).
Proof.
  intros u first second kept.
  assert (Hk : kept = [first; second;
            Folder "64" "Docs" 203 [Bookmark "66" "Spec" "https://docs.example/spec" 204];
            Folder "65" "Docs" 205 [Bookmark "67" "Plan" "https://docs.example/plan" 206]])
    by (vm_compute; reflexivity).
  split; [by_compute|]. split; [reflexivity|]. split; [by_compute|]. split; [exact Hk|].
  rewrite Hk. split.
  - simpl. intros [Hn _]%NoDup_cons. apply Hn. left.
  - assert (Ht : node_title <$> filter (λ n, is_folder n = true)
                   [first; second;
                    Folder "64" "Docs" 203
                      [Bookmark "66" "Spec" "https://docs.example/spec" 204];
                    Folder "65" "Docs" 205
                      [Bookmark "67" "Plan" "https://docs.example/plan" 206]]
                 = ["Docs"; "Docs"]) by (vm_compute; reflexivity).
    rewrite Ht. intros [Hn _]%NoDup_cons. apply Hn. left.
Qed.

(** * Further properties *)

(** ** [uniqPreserveOrder] *)

Lemma uniq_loop_seen (s1 s2 : gset Z) ids :
  uniq_loop (s1 ∪ s2) ids = filter (λ x, x ∉ s1) (uniq_loop s2 ids).
Proof.
  revert s2. induction ids as [|y r IH]; intros s2; simpl; [done|].
  case_bool_decide as H0; [apply IH|].
  destruct (decide (y ∈ s2)) as [H2|H2].
  - rewrite !bool_decide_eq_true_2 by set_solver. apply IH.
  - rewrite (bool_decide_eq_false_2 (y ∈ s2)) by done.
    destruct (decide (y ∈ s1)) as [H1|H1].
    + rewrite bool_decide_eq_true_2 by set_solver.
      rewrite filter_cons_False by (intros H; by apply H).
      rewrite <- IH. f_equal. set_solver.
    + rewrite bool_decide_eq_false_2 by set_solver.
      rewrite filter_cons_True by done.
      rewrite <- IH. do 2 f_equal. set_solver.
Qed.

Lemma filter_ext_elem {A} (P Q : A → Prop) `{∀ x, Decision (P x)} `{∀ x, Decision (Q x)}
    (l : list A) :
  (∀ x, x ∈ l → P x ↔ Q x) → filter P l = filter Q l.
Proof.
  induction l as [|x l IH]; intros HPQ; [done|].
  rewrite !filter_cons. rewrite IH by (intros y Hy; apply HPQ; by right).
  destruct (decide (P x)) as [HP|HP], (decide (Q x)) as [HQ|HQ]; try done;
    exfalso; apply (HPQ x (list_elem_of_here _ _)) in HP || apply (HPQ x (list_elem_of_here _ _)) in HQ; done.
Qed.

Lemma uniq_loop_app seen l1 l2 :
  uniq_loop seen (l1 ++ l2)
  = uniq_loop seen l1 ++ filter (λ x, x ∉ l1) (uniq_loop seen l2).
Proof.
  revert seen. induction l1 as [|y r IH]; intros seen; simpl.
  - symmetry. apply filter_all. intros x _. apply not_elem_of_nil.
  - assert (Hskip : y = 0 ∨ y ∈ seen →
      filter (λ x, x ∉ y :: r) (uniq_loop seen l2)
      = filter (λ x, x ∉ r) (uniq_loop seen l2)).
    { intros Hy. apply filter_ext_elem. intros x Hx%elem_of_uniq_loop.
      rewrite not_elem_of_cons. naive_solver. }
    case_bool_decide as H0; [rewrite IH, Hskip by auto; done|].
    case_bool_decide as Hs; [rewrite IH, Hskip by auto; done|].
    rewrite IH. simpl. do 2 f_equal.
    rewrite uniq_loop_seen, list_filter_filter.
    apply list_filter_iff. intros x. rewrite not_elem_of_cons, not_elem_of_singleton. tauto.
Qed.

(** X1: [uniqPreserveOrder] gives a list without duplicates that holds the
    truthy ids of its argument, it changes nothing when run again, and on a
    concatenation it keeps the ids of the first list in place and adds the
    new ids of the second one after them: first occurrences, in order. *)
Theorem uniqPreserveOrder_laws (ids more : list Z) :
  NoDup (uniqPreserveOrder ids)
  ∧ (∀ x, x ∈ uniqPreserveOrder ids ↔ x ∈ ids ∧ x ≠ 0)
  ∧ uniqPreserveOrder (uniqPreserveOrder ids) = uniqPreserveOrder ids
  ∧ uniqPreserveOrder (ids ++ more)
    = uniqPreserveOrder ids ++ filter (λ x, x ∉ ids) (uniqPreserveOrder more).
Proof.
  split; [apply NoDup_uniqPreserveOrder|].
  split; [apply elem_of_uniqPreserveOrder|].
  split; [apply uniqPreserveOrder_idemp|apply uniq_loop_app].
Qed.

(** ** What a reconcile leaves behind *)

Lemma remove_first_filter id rows :
  NoDup rows → remove_first id rows = filter (λ r, r ≠ id) rows.
Proof.
  induction rows as [|r rest IH]; intros Hnd; simpl; [done|].
  apply NoDup_cons in Hnd as [Hr Hnd]. rewrite filter_cons.
  case_bool_decide as Heq.
  - subst r. rewrite decide_False by tauto.
    symmetry. apply filter_all. intros y Hy ->. done.
  - rewrite decide_True by done. f_equal. by apply IH.
Qed.

Lemma reappend_closed rows id :
  NoDup rows →
  reappend rows id = filter (λ r, r ≠ id) rows ++ filter (λ t, t ∈ rows) [id].
Proof.
  intros Hnd. unfold reappend. rewrite filter_cons, filter_nil. case_bool_decide as Hin.
  - rewrite decide_True by done. by rewrite remove_first_filter.
  - rewrite decide_False by done. rewrite app_nil_r. symmetry.
    apply filter_all. intros y Hy ->. done.
Qed.

Lemma reappend_NoDup rows id : NoDup rows → NoDup (reappend rows id).
Proof.
  intros Hnd. rewrite reappend_closed by done. apply NoDup_app. split; [by apply NoDup_filter|].
  split.
  - intros x [Hne _]%list_elem_of_filter [_ Hx']%list_elem_of_filter.
    apply list_elem_of_singleton in Hx'. done.
  - apply NoDup_filter, NoDup_singleton.
Qed.

Lemma elem_of_reappend rows id x : x ∈ reappend rows id ↔ x ∈ rows.
Proof.
  unfold reappend. case_bool_decide as Hin; [|done].
  rewrite elem_of_app, list_elem_of_singleton. split.
  - intros [Hx| ->]; [|done]. revert Hx. clear. induction rows as [|r rest IH]; simpl; [done|].
    case_bool_decide; rewrite ?elem_of_cons; naive_solver.
  - intros Hx. destruct (decide (x = id)) as [->|Hne]; [by right|left].
    revert Hx. clear -Hne. induction rows as [|r rest IH]; simpl; [done|].
    case_bool_decide; rewrite ?elem_of_cons; naive_solver.
Qed.

Lemma foldl_reappend rows order :
  NoDup rows → NoDup order →
  foldl reappend rows order
  = filter (λ r, r ∉ order) rows ++ filter (λ t, t ∈ rows) order.
Proof.
  revert rows. induction order as [|id o IH]; intros rows Hr Ho; simpl.
  - rewrite filter_nil, app_nil_r. symmetry. apply filter_all. intros x _. apply not_elem_of_nil.
  - apply NoDup_cons in Ho as [Hid Ho].
    rewrite IH by (done || by apply reappend_NoDup).
    rewrite (filter_ext_elem (λ t, t ∈ reappend rows id) (λ t, t ∈ rows) o)
      by (intros x _; apply elem_of_reappend).
    rewrite reappend_closed by done. rewrite filter_app, list_filter_filter.
    rewrite (filter_cons (λ t, t ∈ rows) id).
    rewrite <- (assoc_L (++)). f_equal.
    + apply list_filter_iff. intros x. rewrite not_elem_of_cons. tauto.
    + rewrite filter_cons, filter_nil. destruct (decide (id ∈ rows)); simpl.
      * rewrite filter_cons_True by done. done.
      * done.
Qed.

Lemma move_step_dom spaceId opts host cur desired start st :
  domTemp (move_step spaceId opts host cur desired start st).1 = domTemp st
  ∧ invertTabOrder (move_step spaceId opts host cur desired start st).1 = invertTabOrder st.
Proof.
  unfold move_step, on_move_error, scheduleReconcileRetry, setTimeout, clearTimeout,
    markTabsSyncingToChrome, unmarkTabsSyncingToChrome.
  repeat case_match; simplify_eq; done.
Qed.

Lemma source_step_dom spaceId opts cur st :
  domTemp (source_step spaceId opts cur st) = domTemp st
  ∧ invertTabOrder (source_step spaceId opts cur st) = invertTabOrder st.
Proof. unfold source_step. by destruct (source opts). Qed.

(** X2: when a reconcile of a rendered space returns, the rows of the
    temporary container whose tab is a desired temporary tab have been
    re-appended in the order of the model (reversed when [invertTabOrder] is
    set), below the other rows, which keep their order. *)
Theorem reconcile_dom_order spaceId opts host st space rows :
  find_space spaceId (spaces st) = Some space →
  spaceId ≠ 0 →
  host_group_order (window st) spaceId ≠ [] →
  domTemp st !! spaceId = Some rows →
  NoDup rows →
  let r := reconcileSpaceTabOrdering spaceId opts host st in
  let cur := host_group_order (window st) spaceId in
  let temps := desiredTemps (list_to_set cur) (apply_source opts cur space) in
  r.2 = Returned →
  domTemp r.1 !! spaceId
  = Some (filter (λ id, id ∉ temps) rows
          ++ filter (λ id, id ∈ rows)
               (if invertTabOrder st then reverse temps else temps)).
Proof.
  intros Hfind Hid Hcur Hrows Hnd r cur temps Hret.
  destruct (reconcile_unfold spaceId opts host st space Hfind Hid Hcur) as [start Hrec].
  subst r. rewrite Hrec in Hret |- *. fold cur temps in Hret |- *.
  set (m := move_step _ _ _ _ _ _ _) in *.
  assert (Hm : domTemp m.1 = domTemp st ∧ invertTabOrder m.1 = invertTabOrder st).
  { subst m. destruct (move_step_dom spaceId opts host cur
      (desiredGroupOrder (list_to_set cur) (apply_source opts cur space)) start
      (source_step spaceId opts cur st)) as [-> ->]. apply source_step_dom. }
  destruct Hm as [Hd Hi].
  unfold finish_step in *. destruct m as [s c]. simpl in *. destruct c; [|done]. simpl.
  unfold update_temp_dom, saveSpaces. simpl. rewrite Hd, Hrows, Hi. simpl.
  rewrite lookup_insert_eq. f_equal.
  assert (Ht : NoDup temps) by apply NoDup_uniqPreserveOrder.
  destruct (invertTabOrder st).
  - rewrite foldl_reappend by (done || by rewrite reverse_Permutation). f_equal.
    apply list_filter_iff. intros x. by rewrite elem_of_reverse.
  - by rewrite foldl_reappend.
Qed.

(** X2, witness: the sample state, whose temporary container shows the tabs
    4 and 3. *)
Lemma reconcile_dom_order_sample :
  domTemp (reconcileSpaceTabOrdering 7 default_opts MoveAccepted sample_state).1 !! 7
  = Some [4; 3].
Proof.
  refine (eq_trans (reconcile_dom_order 7 default_opts MoveAccepted sample_state
                      sample_space [4; 3] _ _ _ _ _ _) _).
  - reflexivity.
  - lia.
  - vm_compute. discriminate.
  - reflexivity.
  - by_compute.
  - reflexivity.
  - vm_compute. reflexivity.
Defined.

(** X3: [markTabsSyncingToChrome] marks every truthy id and leaves a timer
    of 600 ms; when that timer fires none of the ids is marked any more,
    whether or not an id was already marked before the call. *)
Theorem syncing_mark_expires ids host st :
  let st1 := markTabsSyncingToChrome ids st in
  (∀ x, x ∈ ids → x ≠ 0 → x ∈ syncingToChrome st1)
  ∧ ∃ t, t ∈ timers st1 ∧ delayMs t = 600
       ∧ syncingToChrome (fire_timer t host st1)
         = syncingToChrome st ∖ list_to_set (uniqPreserveOrder ids).
Proof.
  unfold markTabsSyncingToChrome, setTimeout. simpl. split.
  - intros x Hx H0. apply elem_of_union_l, elem_of_list_to_set, elem_of_uniqPreserveOrder.
    done.
  - eexists. split; [apply elem_of_app; right; apply list_elem_of_here|].
    split; [done|]. unfold fire_timer. simpl.
    apply set_eq. intros x.
    rewrite !elem_of_difference, elem_of_union. tauto.
Qed.

Lemma finish_step_syncing spaceId temps r :
  syncingToChrome (finish_step spaceId temps r).1 = syncingToChrome r.1.
Proof.
  unfold finish_step, update_temp_dom. destruct r as [s [|e]]; simpl; [|done].
  by case_match.
Qed.

Lemma source_step_syncing spaceId opts cur st :
  syncingToChrome (source_step spaceId opts cur st) = syncingToChrome st.
Proof. unfold source_step. by destruct (source opts). Qed.

Lemma on_move_error_syncing spaceId src m a desired e st :
  syncingToChrome (on_move_error spaceId src m a desired e st).1
  = syncingToChrome st ∖ list_to_set (uniqPreserveOrder desired).
Proof.
  unfold on_move_error, scheduleReconcileRetry, setTimeout, clearTimeout,
    unmarkTabsSyncingToChrome.
  repeat case_match; simplify_eq; done.
Qed.

(** X4: when the host rejects the batched move, the reconcile ends with no
    id of the desired order marked as syncing, whatever the error was. *)
Theorem rejected_move_unmarks spaceId opts e st space :
  find_space spaceId (spaces st) = Some space →
  spaceId ≠ 0 →
  host_group_order (window st) spaceId ≠ [] →
  let cur := host_group_order (window st) spaceId in
  let desired := desiredGroupOrder (list_to_set cur) (apply_source opts cur space) in
  cur ≠ desired →
  syncingToChrome (reconcileSpaceTabOrdering spaceId opts (MoveRejected e) st).1
  = syncingToChrome st ∖ list_to_set desired.
Proof.
  intros Hfind Hid Hcur cur desired Hne.
  destruct (reconcile_unfold spaceId opts (MoveRejected e) st space Hfind Hid Hcur)
    as [start ->]. fold cur desired.
  rewrite finish_step_syncing. unfold move_step.
  destruct (isSameOrder cur desired) eqn:Hs; [by apply isSameOrder_spec in Hs|].
  rewrite on_move_error_syncing. simpl.
  unfold markTabsSyncingToChrome, setTimeout. simpl. rewrite source_step_syncing.
  assert (Hu : uniqPreserveOrder desired = desired) by apply uniqPreserveOrder_idemp.
  rewrite Hu. apply set_eq. intros x.
  rewrite !elem_of_difference, elem_of_union. tauto.
Qed.

(** X4, witness: the sample state and the contention error. *)
Lemma rejected_move_unmarks_sample :
  syncingToChrome
    (reconcileSpaceTabOrdering 7 default_opts (MoveRejected mid_drag_error) sample_state).1
  = ∅ ∖ list_to_set [1; 2; 3; 4].
Proof.
  apply (rejected_move_unmarks 7 default_opts mid_drag_error sample_state sample_space).
  - reflexivity.
  - lia.
  - vm_compute. discriminate.
  - vm_compute. discriminate.
Defined.

Lemma reconcile_arcify_frame spaceId moved attempt host st :
  let r := reconcileSpaceTabOrdering spaceId (mkOpts arcify moved attempt) host st in
  spaces r.1 = spaces st
  ∧ (storage r.1 = storage st ∨ storage r.1 = spaces st :: storage st).
Proof.
  unfold reconcileSpaceTabOrdering.
  destruct (find_space spaceId (spaces st)) as [space|]; [|by split; [|left]].
  case_bool_decide; [by split; [|left]|].
  destruct (filter _ _) as [|first rest]; [by split; [|left]|].
  set (m := move_step _ _ _ _ _ _ _).
  assert (Hm : spaces m.1 = spaces st ∧ storage m.1 = storage st).
  { subst m. split; [by rewrite move_step_spaces|].
    unfold move_step, on_move_error, scheduleReconcileRetry, setTimeout, clearTimeout,
      markTabsSyncingToChrome, unmarkTabsSyncingToChrome, source_step.
    repeat case_match; simplify_eq; done. }
  destruct Hm as [Hsp Hsto]. unfold finish_step.
  destruct m as [s c]; simpl in *. destruct c; simpl.
  - unfold update_temp_dom, saveSpaces; simpl. case_match; simpl; rewrite ?Hsp, ?Hsto; auto.
  - auto.
Qed.

(** X5: a reconcile started by the sidebar ([source] left at ['arcify'])
    never rewrites a space, whatever the host answers: the model is only
    pushed to the host, and it is stored at most once, as it was. *)
Theorem reconcile_arcify_keeps_spaces spaceId moved attempt host st space :
  find_space spaceId (spaces st) = Some space →
  let r := reconcileSpaceTabOrdering spaceId (mkOpts arcify moved attempt) host st in
  find_space spaceId (spaces r.1) = Some space
  ∧ spaces r.1 = spaces st
  ∧ (storage r.1 = storage st ∨ storage r.1 = spaces st :: storage st).
Proof.
  intros Hfind r.
  destruct (reconcile_arcify_frame spaceId moved attempt host st) as [Hsp Hsto].
  fold r in Hsp, Hsto. by rewrite Hsp.
Qed.

(** X5, witness: the sample state, the host rejecting the move. *)
Lemma reconcile_arcify_keeps_spaces_sample :
  let r := reconcileSpaceTabOrdering 7 (mkOpts arcify (Some 3) 0)
             (MoveRejected mid_drag_error) sample_state in
  find_space 7 (spaces r.1) = Some sample_space
  ∧ spaces r.1 = spaces sample_state
  ∧ (storage r.1 = storage sample_state
     ∨ storage r.1 = spaces sample_state :: storage sample_state).
Proof.
  apply (reconcile_arcify_keeps_spaces 7 (Some 3) 0 (MoveRejected mid_drag_error)
           sample_state sample_space).
  reflexivity.
Defined.

(** ** Reading the order back from the document *)

Lemma uniq_loop_filter (P : Z → Prop) `{∀ x, Decision (P x)} seen ids :
  uniq_loop seen (filter P ids) = filter P (uniq_loop seen ids).
Proof.
  revert seen. induction ids as [|y r IH]; intros seen; [done|].
  rewrite filter_cons. destruct (decide (P y)) as [HP|HP]; simpl.
  - repeat case_bool_decide; rewrite ?IH; try done.
    by rewrite filter_cons_True.
  - case_bool_decide; [apply IH|]. case_bool_decide; [apply IH|].
    rewrite filter_cons_False by done. rewrite <- IH, uniq_loop_seen.
    symmetry. apply filter_all.
    intros x (Hx & _ & _)%elem_of_uniq_loop.
    apply list_elem_of_filter in Hx as [HPx _]. rewrite not_elem_of_singleton. by intros ->.
Qed.

Lemma displayToChromeOrder_elem invert ids x :
  x ∈ displayToChromeOrder invert ids ↔ x ∈ ids.
Proof. unfold displayToChromeOrder. destruct invert; [apply elem_of_reverse|done]. Qed.

Lemma displayToChromeOrder_NoDup invert ids :
  NoDup ids → NoDup (displayToChromeOrder invert ids).
Proof. unfold displayToChromeOrder. destruct invert; [by rewrite reverse_Permutation|done]. Qed.

Lemma displayToChromeOrder_twice invert ids :
  displayToChromeOrder invert (displayToChromeOrder invert ids) = ids.
Proof. unfold displayToChromeOrder. destruct invert; [apply reverse_involutive|done]. Qed.

Lemma order_from_dom_temporary invert tabRows space :
  let shown := displayToChromeOrder invert (uniqPreserveOrder tabRows) in
  ∃ space',
    order_from_dom TypeTemporary invert (Some tabRows) None space = Some space'
    ∧ sid space' = sid space
    ∧ temporaryTabs space'
      = shown ++ filter (λ id, id ∉ tabRows) (uniqPreserveOrder (temporaryTabs space))
    ∧ NoDup (temporaryTabs space')
    ∧ (∀ x, x ∈ temporaryTabs space' ↔ x ≠ 0 ∧ (x ∈ tabRows ∨ x ∈ temporaryTabs space))
    ∧ spaceBookmarks space' = spaceBookmarks space.
Proof.
  intros shown. eexists. split; [reflexivity|]. split; [done|]. simpl. fold shown.
  assert (Hnd : NoDup shown)
    by apply displayToChromeOrder_NoDup, NoDup_uniqPreserveOrder.
  assert (Hin : ∀ x, x ∈ shown ↔ x ∈ tabRows ∧ x ≠ 0).
  { intros x. unfold shown. by rewrite displayToChromeOrder_elem, elem_of_uniqPreserveOrder. }
  assert (Heq : uniqPreserveOrder (shown ++ filter (λ id, id ∉ shown) (temporaryTabs space))
                = shown ++ filter (λ id, id ∉ tabRows) (uniqPreserveOrder (temporaryTabs space))).
  { unfold uniqPreserveOrder. rewrite uniq_loop_app. f_equal.
    - apply (uniqPreserveOrder_id shown); [done|]. rewrite Hin. tauto.
    - rewrite uniq_loop_filter, list_filter_filter.
      apply filter_ext_elem. intros x Hx%elem_of_uniq_loop. rewrite Hin. tauto. }
  split; [exact Heq|]. split; [apply NoDup_uniqPreserveOrder|]. split; [|done].
  intros x. rewrite elem_of_uniqPreserveOrder, elem_of_app, list_elem_of_filter, Hin.
  destruct (decide (x ∈ tabRows)); tauto.
Qed.

(** X6: after a drop on the temporary container of a rendered space, and
    whatever the host then answers to the move, the temporary array holds
    the ids of the rows, in host order, followed by the ids it held that
    have no row: no tracked id is lost, none is repeated, and the bookmark
    array is left alone. *)
Theorem drop_on_temporary_order tabId spaceId pinnedContainer host st space tabRows :
  tabId ≠ 0 →
  find_space spaceId (spaces st) = Some space →
  domTemp st !! spaceId = Some tabRows →
  let r := handleBarCatOrderChangeAfterDropByTabId tabId
             (Some (Some spaceId, TypeTemporary)) pinnedContainer host st in
  ∃ space',
    find_space spaceId (spaces r.1) = Some space'
    ∧ temporaryTabs space'
      = displayToChromeOrder (invertTabOrder st) (uniqPreserveOrder tabRows)
        ++ filter (λ id, id ∉ tabRows) (uniqPreserveOrder (temporaryTabs space))
    ∧ NoDup (temporaryTabs space')
    ∧ (∀ x, x ∈ temporaryTabs space' ↔ x ≠ 0 ∧ (x ∈ tabRows ∨ x ∈ temporaryTabs space))
    ∧ spaceBookmarks space' = spaceBookmarks space.
Proof.
  intros Hid Hfind Hrows r.
  destruct (order_from_dom_temporary (invertTabOrder st) tabRows space)
    as (space' & Ho & Hsid & Hprops).
  exists space'. split; [|exact Hprops].
  unfold r, handleBarCatOrderChangeAfterDropByTabId.
  rewrite bool_decide_eq_false_2 by done. rewrite Hfind, Hrows.
  change (order_from_dom TypeTemporary (invertTabOrder st) (Some tabRows) pinnedContainer space)
    with (order_from_dom TypeTemporary (invertTabOrder st) (Some tabRows) None space).
  rewrite Ho.
  rewrite (proj1 (reconcile_arcify_frame spaceId (Some tabId) 0 host _)). simpl.
  assert (Hs : sid space = spaceId).
  { apply js_find_Some in Hfind as [_ Hs]. by apply bool_decide_eq_true in Hs. }
  clear Ho Hprops. revert Hfind. unfold find_space.
  induction (spaces st) as [|s0 rest IH]; simpl; [done|].
  case_bool_decide as H0; simpl.
  - intros _. rewrite bool_decide_eq_true_2; [done|]. by rewrite Hsid.
  - intros Hr. rewrite bool_decide_eq_false_2 by done. by apply IH.
Qed.

(** X6, witness: tab 3 dropped below tab 4 in the sample state. *)
Lemma drop_on_temporary_order_sample :
  let r := handleBarCatOrderChangeAfterDropByTabId 3
             (Some (Some 7, TypeTemporary)) None MoveAccepted sample_state in
  ∃ space',
    find_space 7 (spaces r.1) = Some space'
    ∧ temporaryTabs space'
      = displayToChromeOrder (invertTabOrder sample_state) (uniqPreserveOrder [4; 3])
        ++ filter (λ id, id ∉ [4; 3]) (uniqPreserveOrder (temporaryTabs sample_space))
    ∧ NoDup (temporaryTabs space')
    ∧ (∀ x, x ∈ temporaryTabs space' ↔ x ≠ 0 ∧ (x ∈ [4; 3] ∨ x ∈ temporaryTabs sample_space))
    ∧ spaceBookmarks space' = spaceBookmarks sample_space.
Proof.
  apply (drop_on_temporary_order 3 7 None MoveAccepted sample_state sample_space [4; 3]).
  - lia.
  - reflexivity.
  - reflexivity.
Defined.

(** X7: the order a reconcile writes to the temporary container is the
    order a drop handler reads back, whatever [invertTabOrder] is: when the
    rows of the container are the temporary tabs of the space, writing the
    order and reading it again leaves the space as it is. *)
Theorem drop_reads_back_reconciled_order spaceId temps tabRows space st :
  domTemp st !! spaceId = Some tabRows →
  NoDup tabRows → NoDup temps → 0 ∉ temps →
  (∀ x, x ∈ tabRows ↔ x ∈ temps) →
  temporaryTabs space = temps →
  let st' := update_temp_dom spaceId temps st in
  order_from_dom TypeTemporary (invertTabOrder st') (domTemp st' !! spaceId) None space
  = Some space.
Proof.
  intros Hrows Hnr Hnt H0 Hsame Hsp st'.
  assert (Hst : invertTabOrder st' = invertTabOrder st
                ∧ domTemp st' !! spaceId
                  = Some (displayToChromeOrder (invertTabOrder st) temps)).
  { unfold st', update_temp_dom. rewrite Hrows. simpl. split; [done|].
    rewrite lookup_insert_eq. f_equal. fold (displayToChromeOrder (invertTabOrder st) temps).
    rewrite foldl_reappend by (done || by apply displayToChromeOrder_NoDup).
    rewrite filter_none, filter_all; [done| |].
    - intros x. rewrite displayToChromeOrder_elem. apply Hsame.
    - intros x Hx Hn. apply Hn. rewrite displayToChromeOrder_elem. by apply Hsame. }
  destruct Hst as [-> ->]. simpl.
  assert (Hu : uniqPreserveOrder (displayToChromeOrder (invertTabOrder st) temps)
               = displayToChromeOrder (invertTabOrder st) temps).
  { apply uniqPreserveOrder_id; [by apply displayToChromeOrder_NoDup|].
    by rewrite displayToChromeOrder_elem. }
  rewrite Hu, displayToChromeOrder_twice, Hsp.
  rewrite filter_none by (intros x Hx Hn; by apply Hn).
  rewrite app_nil_r, uniqPreserveOrder_id by done.
  rewrite <- Hsp. by rewrite set_temporaryTabs_same.
Qed.

(** X7, witness: the sample space and its two rows. *)
Lemma drop_reads_back_sample :
  let st' := update_temp_dom 7 [3; 4] sample_state in
  order_from_dom TypeTemporary (invertTabOrder st') (domTemp st' !! 7) None sample_space
  = Some sample_space.
Proof.
  apply (drop_reads_back_reconciled_order 7 [3; 4] [4; 3] sample_space sample_state).
  - reflexivity.
  - by_compute.
  - by_compute.
  - by_compute.
  - intros x. rewrite !elem_of_cons, !elem_of_nil. tauto.
  - reflexivity.
Defined.

(** ** The spaces built at start *)

Lemma report_from_group_ids i g w :
  tab_id <$> filter (λ t, groupId t = g) (report_from i w)
  = h_id <$> filter (λ t, h_groupId t = g) w.
Proof.
  revert i. induction w as [|t r IH]; intros i; simpl; [done|].
  rewrite !filter_cons. simpl. case_decide; simpl; by rewrite IH.
Qed.

(** X8: whatever the matching of tabs with bookmarks gives, the space built
    at start for a tab group has disjoint arrays, tracks every tab of the
    group that is not host-pinned, and lists as temporary only tabs of the
    group. *)
Theorem init_space_tracks_group w groupId title matched :
  let s := init_space groupId title (tabs_query_groupId w groupId) matched in
  disjoint_arrays s
  ∧ tracked s (host_group_order w groupId)
  ∧ ∀ x, x ∈ temporaryTabs s → x ∈ h_id <$> filter (λ t, h_groupId t = groupId) w.
Proof.
  intros s. unfold tabs_query_groupId, tabs_query_all in s.
  set (bm := match matched with None => [] | Some ids => omap (λ id, id) ids end).
  assert (Htemps : ∀ x, x ∈ temporaryTabs s ↔
            (x ∉ bm) ∧ x ∈ h_id <$> filter (λ t, h_groupId t = groupId) w).
  { intros x. unfold s, init_space. simpl. fold bm.
    rewrite <- report_from_group_ids with (i := 0).
    rewrite !list_elem_of_fmap. split.
    - intros (t & -> & [Hn Ht]%list_elem_of_filter). split; [done|]. by exists t.
    - intros (Hn & t & -> & Ht). exists t. split; [done|]. by apply list_elem_of_filter. }
  split; [|split].
  - apply Forall_forall. intros x Hx Ht. apply Htemps in Ht as [Hn _]. by apply Hn.
  - apply Forall_forall. intros x Hx. rewrite host_group_order_alt in Hx.
    destruct (decide (x ∈ bm)) as [Hb|Hb]; [by left|right].
    apply Htemps. split; [done|].
    apply list_elem_of_fmap in Hx as (t & -> & [[Hg _] Ht]%list_elem_of_filter).
    apply list_elem_of_fmap_2. by apply list_elem_of_filter.
  - intros x Hx. by apply Htemps in Hx as [_ ?].
Qed.

(** ** Who holds a tab *)

Lemma holds_tab_forget tabId s : holds_tab tabId (forget_tab tabId s) = false.
Proof.
  unfold holds_tab, forget_tab, includesZ. simpl.
  rewrite !bool_decide_eq_false_2; [done| |];
    intros [Hne _]%list_elem_of_filter; by apply Hne.
Qed.

Lemma holds_tab_set_lastTab tabId v s : holds_tab tabId (set_lastTab v s) = holds_tab tabId s.
Proof. done. Qed.

Lemma update_first_owner tabId f sps :
  (∀ s, holds_tab tabId (f s) = false) →
  (length (filter (λ s, holds_tab tabId s = true) sps) ≤ 1)%nat →
  ∀ s, s ∈ update_first (holds_tab tabId) f sps → holds_tab tabId s = false.
Proof.
  intros Hf. induction sps as [|s0 r IH]; simpl; intros Hlen s Hs; [by apply elem_of_nil in Hs|].
  rewrite filter_cons in Hlen. destruct (decide (holds_tab tabId s0 = true)) as [Hh|Hh].
  - rewrite Hh in Hs. simpl in Hlen.
    assert (Hr : filter (λ s, holds_tab tabId s = true) r = []).
    { destruct (filter _ r); [done|simpl in Hlen; lia]. }
    apply elem_of_cons in Hs as [->|Hs]; [apply Hf|].
    destruct (holds_tab tabId s) eqn:Hhs; [|done].
    assert (Hin : s ∈ filter (λ s, holds_tab tabId s = true) r) by by apply list_elem_of_filter.
    rewrite Hr in Hin. by apply elem_of_nil in Hin.
  - apply not_true_is_false in Hh. rewrite Hh in Hs.
    apply elem_of_cons in Hs as [->|Hs]; [done|]. by apply IH.
Qed.

Lemma update_first_sids p f sps :
  (∀ s, sid (f s) = sid s) → sid <$> update_first p f sps = sid <$> sps.
Proof.
  intros Hf. induction sps as [|s r IH]; [done|]. cbn [update_first].
  destruct (p s); rewrite !fmap_cons; [by rewrite Hf|by rewrite IH].
Qed.

Lemma update_space_elem spaceId f sps s :
  s ∈ update_space spaceId f sps →
  s ∈ sps ∨ ∃ s0, s0 ∈ sps ∧ sid s0 = spaceId ∧ s = f s0.
Proof.
  induction sps as [|s0 r IH]; simpl; [by left|].
  case_bool_decide as Hid.
  - intros [->|Hs]%elem_of_cons.
    + right. exists s0. split; [left|done].
    + left. by right.
  - intros [->|Hs]%elem_of_cons; [left; left|].
    destruct (IH Hs) as [?|(s1 & ? & ? & ?)]; [left; by right|].
    right. exists s1. split; [by right|done].
Qed.

Lemma update_space_keeps_others spaceId f sps s :
  NoDup (sid <$> sps) → (∀ s, sid (f s) = sid s) →
  s ∈ update_space spaceId f sps → sid s ≠ spaceId → s ∈ sps.
Proof.
  intros _ Hf Hs Hne. apply update_space_elem in Hs as [?|(s0 & ? & Hid & ->)]; [done|].
  rewrite Hf in Hne. done.
Qed.

Lemma update_space_target spaceId f sps s :
  NoDup (sid <$> sps) → (∀ s, sid (f s) = sid s) →
  s ∈ update_space spaceId f sps → sid s = spaceId →
  ∃ s0, find_space spaceId sps = Some s0 ∧ s = f s0.
Proof.
  intros Hnd Hf. unfold find_space. induction sps as [|s0 r IH]; simpl; [by intros ?%elem_of_nil|].
  rewrite fmap_cons in Hnd. apply NoDup_cons in Hnd as [Hs0 Hnd].
  case_bool_decide as Hid; simpl.
  - intros [->|Hs]%elem_of_cons Hsid; [by exists s0|].
    exfalso. apply Hs0. rewrite Hid, <- Hsid. by apply list_elem_of_fmap_2.
  - intros [->|Hs]%elem_of_cons Hsid; [done|]. by apply IH.
Qed.

Lemma find_space_elem spaceId sps s :
  find_space spaceId sps = Some s → s ∈ sps ∧ sid s = spaceId.
Proof.
  intros [Hs Hp]%js_find_Some. split; [done|]. by apply bool_decide_eq_true in Hp.
Qed.

Lemma update_space_has_target spaceId f sps s0 :
  find_space spaceId sps = Some s0 → f s0 ∈ update_space spaceId f sps.
Proof.
  unfold find_space. induction sps as [|s r IH]; simpl; [done|].
  case_bool_decide; simpl.
  - intros [= ->]. left.
  - intros Hr. right. by apply IH.
Qed.

Lemma after_source_removal_sids tabId spaceId sps :
  sid <$> after_source_removal tabId spaceId sps = sid <$> sps.
Proof.
  unfold after_source_removal. repeat case_match; try done. by apply update_first_sids.
Qed.

Lemma after_source_removal_others tabId spaceId sps s :
  (length (filter (λ s, holds_tab tabId s = true) sps) ≤ 1)%nat →
  s ∈ after_source_removal tabId spaceId sps →
  holds_tab tabId s = true → sid s = spaceId.
Proof.
  intros Hlen. unfold after_source_removal.
  destruct (js_find (holds_tab tabId) sps) as [src|] eqn:Hsrc.
  - case_bool_decide as Hne.
    + intros Hs Hh.
      rewrite (update_first_owner tabId (λ s, set_lastTab None (forget_tab tabId s)) sps)
        in Hh; [done| |done|done].
      intros s0. apply holds_tab_forget.
    + intros Hs Hh.
      apply js_find_Some in Hsrc as [Hsrc Hhs].
      (* s and src both hold the tab: they are the same element *)
      assert (Hsame : s = src); [|by subst s].
      clear Hne.
      induction sps as [|s0 r IH]; [by apply elem_of_nil in Hs|].
      rewrite filter_cons in Hlen.
      destruct (decide (holds_tab tabId s0 = true)) as [H0|H0].
      * simpl in Hlen.
        assert (Hr : filter (λ s, holds_tab tabId s = true) r = []).
        { destruct (filter _ r); [done|simpl in Hlen; lia]. }
        assert (Hnone : ∀ y, y ∈ r → holds_tab tabId y ≠ true).
        { intros y Hy Hyh.
          assert (Hin : y ∈ filter (λ s, holds_tab tabId s = true) r)
            by by apply list_elem_of_filter.
          rewrite Hr in Hin. by apply elem_of_nil in Hin. }
        apply elem_of_cons in Hs as [->|Hs]; apply elem_of_cons in Hsrc as [->|Hsrc];
          try done; exfalso; by eapply Hnone.
      * apply elem_of_cons in Hs as [->|Hs]; [done|].
        apply elem_of_cons in Hsrc as [->|Hsrc]; [done|]. by apply IH.
  - intros Hs Hh. rewrite js_find_None in Hsrc. rewrite (Hsrc s Hs) in Hh. done.
Qed.

(** X9: when the ids of the spaces are distinct and at most one space holds
    the tab, after [moveTabToSpace] the only space that can hold it is the
    target, where it is the last id of the chosen array and absent from the
    other one; some space holds it exactly when the target exists, so a
    move to an unknown space drops the tab from its source. *)
Theorem moveTabToSpace_single_owner tabId spaceId isPinned sps :
  NoDup (sid <$> sps) →
  (length (filter (λ s, holds_tab tabId s = true) sps) ≤ 1)%nat →
  let sps' := moveTabToSpace_arrays tabId spaceId isPinned sps in
  (∀ s, s ∈ sps' → holds_tab tabId s = true →
     sid s = spaceId ∧ lastTab s = Some tabId
     ∧ ∃ l, (tabId ∉ l)
          ∧ if isPinned then spaceBookmarks s = l ++ [tabId] ∧ tabId ∉ temporaryTabs s
            else temporaryTabs s = l ++ [tabId] ∧ tabId ∉ spaceBookmarks s)
  ∧ (is_Some (find_space spaceId sps) ↔ ∃ s, s ∈ sps' ∧ holds_tab tabId s = true).
Proof.
  intros Hnd Hlen sps'.
  set (F := λ space : Space,
         let s1 := set_lastTab (Some tabId) (forget_tab tabId space) in
         if isPinned then set_spaceBookmarks (spaceBookmarks s1 ++ [tabId]) s1
         else set_temporaryTabs (temporaryTabs s1 ++ [tabId]) s1).
  assert (HF : ∀ s, sid (F s) = sid s) by (intros s; unfold F; by destruct isPinned).
  assert (Heq : sps' = update_space spaceId F (after_source_removal tabId spaceId sps)) by done.
  assert (Hnd1 : NoDup (sid <$> after_source_removal tabId spaceId sps))
    by by rewrite after_source_removal_sids.
  assert (HFh : ∀ s0, holds_tab tabId (F s0) = true ∧ lastTab (F s0) = Some tabId
      ∧ ∃ l, (tabId ∉ l)
          ∧ if isPinned then spaceBookmarks (F s0) = l ++ [tabId] ∧ tabId ∉ temporaryTabs (F s0)
            else temporaryTabs (F s0) = l ++ [tabId] ∧ tabId ∉ spaceBookmarks (F s0)).
  { intros s0. unfold F, holds_tab, includesZ. destruct isPinned; simpl.
    - split; [|split; [done|]].
      + rewrite (bool_decide_eq_true_2 (tabId ∈ _ ++ [tabId])); [apply orb_true_r|].
        apply elem_of_app. right. left.
      + eexists. split; [|split; [reflexivity|]];
          intros [Hne _]%list_elem_of_filter; by apply Hne.
    - split; [|split; [done|]].
      + rewrite (bool_decide_eq_true_2 (tabId ∈ _ ++ [tabId])); [done|].
        apply elem_of_app. right. left.
      + eexists. split; [|split; [reflexivity|]];
          intros [Hne _]%list_elem_of_filter; by apply Hne. }
  split.
  - intros s Hs Hh. rewrite Heq in Hs.
    destruct (decide (sid s = spaceId)) as [Hid|Hid].
    + destruct (update_space_target spaceId F _ s Hnd1 HF Hs Hid) as (s0 & _ & ->).
      split; [done|]. by destruct (HFh s0) as (_ & ? & ?).
    + apply update_space_keeps_others in Hs; [|done..].
      by apply after_source_removal_others in Hs.
  - split.
    + intros [s0 Hs0].
      assert (Hf1 : ∃ s1, find_space spaceId (after_source_removal tabId spaceId sps) = Some s1).
      { destruct (find_space spaceId (after_source_removal tabId spaceId sps)) as [s1|] eqn:Hf1;
          [by exists s1|].
        exfalso. unfold find_space in Hf1. rewrite js_find_None in Hf1.
        apply find_space_elem in Hs0 as [Hin Hid].
        assert (Hsid : spaceId ∈ sid <$> after_source_removal tabId spaceId sps).
        { rewrite after_source_removal_sids. set (L := sid <$> sps). rewrite <- Hid.
          by apply list_elem_of_fmap_2. }
        apply list_elem_of_fmap in Hsid as (s1 & Hs1 & Hin1).
        specialize (Hf1 s1 Hin1). by rewrite bool_decide_eq_true_2 in Hf1. }
      destruct Hf1 as [s1 Hf1]. exists (F s1). split; [|apply HFh].
      rewrite Heq. by apply update_space_has_target.
    + intros (s & Hs & Hh). rewrite Heq in Hs.
      assert (Hid : sid s = spaceId).
      { destruct (decide (sid s = spaceId)) as [Hid|Hid]; [done|].
        apply update_space_keeps_others in Hs; [|done..].
        by apply after_source_removal_others in Hs. }
      assert (Hsid : spaceId ∈ sid <$> sps).
      { rewrite <- after_source_removal_sids with (tabId := tabId) (spaceId := spaceId).
        set (L := after_source_removal tabId spaceId sps) in *.
        apply update_space_elem in Hs as [Hs|(s0 & Hs0 & Hid0 & ->)].
        - rewrite <- Hid. by apply list_elem_of_fmap_2.
        - rewrite <- Hid0. by apply list_elem_of_fmap_2. }
      apply list_elem_of_fmap in Hsid as (s1 & Hs1 & Hin1).
      destruct (find_space spaceId sps) as [s2|] eqn:Hf; [by eexists|].
      unfold find_space in Hf. rewrite js_find_None in Hf.
      specialize (Hf s1 Hin1). by rewrite bool_decide_eq_true_2 in Hf.
Qed.

(** X9, witness: tab 8 of space 5 moves to the temporary tabs of space 7. *)
Lemma moveTabToSpace_single_owner_sample :
  let sps' := moveTabToSpace_arrays 8 7 false [sample_space; mkSpace 5 "Home" [] [8] None] in
  (∀ s, s ∈ sps' → holds_tab 8 s = true →
     sid s = 7 ∧ lastTab s = Some 8
     ∧ ∃ l, (8 ∉ l)
          ∧ if false then spaceBookmarks s = l ++ [8] ∧ (8 ∉ temporaryTabs s)
            else temporaryTabs s = l ++ [8] ∧ 8 ∉ spaceBookmarks s)
  ∧ (is_Some (find_space 7 [sample_space; mkSpace 5 "Home" [] [8] None])
     ↔ ∃ s, s ∈ sps' ∧ holds_tab 8 s = true).
Proof.
  apply (moveTabToSpace_single_owner 8 7 false
           [sample_space; mkSpace 5 "Home" [] [8] None]).
  - by_compute.
  - vm_compute. lia.
Defined.

(** ** A closed tab *)


(** ** Next and previous tab *)

Lemma findIndex_from_NoDup_lookup (x : Z) k l (i : nat) :
  NoDup l → l !! i = Some x →
  findIndex_from (λ y, bool_decide (y = x)) k l = k + Z.of_nat i.
Proof.
  revert k i. induction l as [|y r IH]; intros k i Hnd Hi; [done|].
  apply NoDup_cons in Hnd as [Hy Hnd]. simpl. destruct i as [|i]; simpl in Hi.
  - injection Hi as ->. rewrite bool_decide_eq_true_2 by done. lia.
  - rewrite bool_decide_eq_false_2.
    + rewrite (IH (k + 1) i) by done. lia.
    + intros ->. apply Hy. by eapply list_elem_of_lookup_2.
Qed.

Lemma findIndex_NoDup_lookup (x : Z) l (i : nat) :
  NoDup l → l !! i = Some x → findIndex (λ y, bool_decide (y = x)) l = Z.of_nat i.
Proof. intros. unfold findIndex. by rewrite (findIndex_from_NoDup_lookup x 0 l i). Qed.

Lemma findIndex_absent (x : Z) l :
  x ∉ l → findIndex (λ y, bool_decide (y = x)) l = -1.
Proof.
  intros Hx. apply findIndex_from_none. intros y Hy. apply bool_decide_eq_false_2.
  by intros ->.
Qed.

Section Cycle.
Variable space : Space.
Hypothesis cycle_NoDup : NoDup (space_cycle space).

Let t := temporaryTabs space.
Let b := spaceBookmarks space.

Lemma cycle_parts : NoDup t ∧ NoDup b ∧ ∀ x, x ∈ t → x ∉ b.
Proof. unfold space_cycle in cycle_NoDup. apply NoDup_app in cycle_NoDup. tauto. Qed.

Lemma next_at (i : nat) x :
  space_cycle space !! i = Some x →
  movToNextTabInSpace x (Some space)
  = Activate (space_cycle space !! (S i mod length (space_cycle space))%nat).
Proof.
  destruct cycle_parts as (Ht & Hb & Hdis).
  unfold space_cycle, movToNextTabInSpace. simpl. fold t b.
  rewrite length_app. intros Hi.
  destruct (decide (i < length t)%nat) as [Hlt|Hge].
  - rewrite lookup_app_l in Hi by done.
    rewrite (findIndex_NoDup_lookup x t i) by done.
    rewrite bool_decide_eq_true_2 by lia.
    case_bool_decide as Hlast.
    + replace (Z.to_nat (Z.of_nat i + 1)) with (S i) by lia.
      rewrite Nat.mod_small by lia. by rewrite lookup_app_l by lia.
    + case_bool_decide as Hbne.
      * rewrite Nat.mod_small by lia. rewrite lookup_app_r by lia.
        f_equal; f_equal; lia.
      * replace (S i) with (length t + length b)%nat by lia.
        rewrite Nat.Div0.mod_same. rewrite lookup_app_l by lia. done.
  - rewrite lookup_app_r in Hi by lia.
    assert (Hxb : x ∈ b) by by eapply list_elem_of_lookup_2.
    assert (Hxt : x ∉ t) by (intros Hxt; by apply (Hdis x)).
    rewrite (findIndex_absent x t) by done.
    rewrite bool_decide_eq_false_2 by lia.
    rewrite (findIndex_NoDup_lookup x b (i - length t)) by done.
    assert (Hib : (i - length t < length b)%nat) by by eapply lookup_lt_Some.
    rewrite bool_decide_eq_true_2 by lia.
    case_bool_decide as Hlast.
    + replace (Z.to_nat (Z.of_nat (i - length t) + 1)) with (S (i - length t)) by lia.
      rewrite Nat.mod_small by lia. rewrite lookup_app_r by lia. f_equal; f_equal; lia.
    + replace (S i) with (length t + length b)%nat by lia.
      rewrite Nat.Div0.mod_same.
      case_bool_decide as Htne.
      * by rewrite lookup_app_l by lia.
      * assert (t = []) as Ht0 by (destruct t; [done|simpl in Htne; lia]).
        by rewrite Ht0.
Qed.

Lemma prev_at (i : nat) x :
  space_cycle space !! i = Some x →
  movToPrevTabInSpace x (Some space)
  = Activate (space_cycle space
                !! ((i + length (space_cycle space) - 1) mod length (space_cycle space))%nat).
Proof.
  destruct cycle_parts as (Ht & Hb & Hdis).
  unfold space_cycle, movToPrevTabInSpace. simpl. fold t b.
  rewrite length_app. intros Hi.
  assert (Hilen : (i < length t + length b)%nat).
  { apply lookup_lt_Some in Hi. by rewrite length_app in Hi. }
  destruct (decide (i < length t)%nat) as [Hlt|Hge].
  - rewrite lookup_app_l in Hi by done.
    rewrite (findIndex_NoDup_lookup x t i) by done.
    rewrite bool_decide_eq_true_2 by lia.
    case_bool_decide as Hpos.
    + replace (i + (length t + length b) - 1)%nat
        with ((i - 1) + 1 * (length t + length b))%nat by lia.
      rewrite Nat.Div0.mod_add, Nat.mod_small by lia.
      rewrite lookup_app_l by lia. f_equal; f_equal; lia.
    + assert (i = 0%nat) as -> by lia. simpl.
      rewrite Nat.mod_small by lia.
      case_bool_decide as Hbne.
      * rewrite lookup_app_r by lia. f_equal; f_equal; lia.
      * assert (b = []) as Hb0 by (destruct b; [done|simpl in Hbne; lia]).
        rewrite Hb0, app_nil_r. simpl. f_equal; f_equal; lia.
  - rewrite lookup_app_r in Hi by lia.
    assert (Hxb : x ∈ b) by by eapply list_elem_of_lookup_2.
    assert (Hxt : x ∉ t) by (intros Hxt; by apply (Hdis x)).
    rewrite (findIndex_absent x t) by done.
    rewrite bool_decide_eq_false_2 by lia.
    rewrite (findIndex_NoDup_lookup x b (i - length t)) by done.
    rewrite bool_decide_eq_true_2 by lia.
    case_bool_decide as Hpos.
    + replace (i + (length t + length b) - 1)%nat
        with ((i - 1) + 1 * (length t + length b))%nat by lia.
      rewrite Nat.Div0.mod_add, Nat.mod_small by lia.
      rewrite lookup_app_r by lia. f_equal; f_equal; lia.
    + assert (i = length t) as -> by lia.
      case_bool_decide as Htne.
      * replace (length t + (length t + length b) - 1)%nat
          with ((length t - 1) + 1 * (length t + length b))%nat by lia.
        rewrite Nat.Div0.mod_add, Nat.mod_small by lia.
        by rewrite lookup_app_l by lia.
      * assert (t = []) as Ht0 by (destruct t; [done|simpl in Htne; lia]).
        rewrite Ht0. simpl. rewrite Nat.mod_small by lia. f_equal; f_equal; lia.
Qed.
End Cycle.



(** ** The archive: removal and restoring *)

Lemma archive_no_record (u : string) archive :
  js_find (λ t, bool_decide (a_url t = u)) archive = None ↔ u ∉ a_url <$> archive.
Proof.
  rewrite js_find_None, list_elem_of_fmap. split.
  - intros H (t & -> & Ht). specialize (H t Ht). by rewrite bool_decide_eq_true_2 in H.
  - intros H t Ht. apply bool_decide_eq_false_2. intros <-. apply H. by exists t.
Qed.

Lemma archive_ok_add now td archive :
  archive_ok archive → archive_ok (addArchivedTab now td archive).
Proof.
  intros (Hnd & Hlen & Hs & Hv). destruct td as [td|]; [|done].
  unfold addArchivedTab.
  destruct (bool_decide (a_url td = "") || bool_decide (a_name td = "")
            || bool_decide (a_spaceId td = 0)) eqn:Hvalid; [done|].
  apply orb_false_iff in Hvalid as [Hvalid H3]. apply orb_false_iff in Hvalid as [H1 H2].
  apply bool_decide_eq_false in H1, H2, H3.
  destruct (js_find _ archive) eqn:Hf; [done|].
  apply archive_no_record in Hf.
  set (sorted := js_sort _ _).
  assert (Hperm : sorted ≡ₚ archive ++ [stamp now td]) by apply sorted_perm.
  assert (Hok : archive_ok (take MAX_ARCHIVED_TABS sorted)).
  { split; [|split; [|split]].
    - eapply sublist_NoDup; [|apply fmap_sublist, sublist_take].
      rewrite Hperm, fmap_app. apply NoDup_app. split; [done|]. split.
      + intros u Hu [->|[]%elem_of_nil]%elem_of_cons. by apply Hf.
      + apply NoDup_singleton.
    - rewrite length_take. lia.
    - apply (StronglySorted_app_1_l _ _ (drop MAX_ARCHIVED_TABS sorted)).
      rewrite take_drop. apply sorted_strongly.
    - apply Forall_take. rewrite Hperm. apply Forall_app. split; [done|].
      by repeat constructor. }
  case_bool_decide; [done|]. by rewrite take_ge in Hok by lia.
Qed.

Lemma archive_ok_remove u spaceId archive :
  archive_ok archive → archive_ok (removeArchivedTab u spaceId archive).
Proof.
  intros (Hnd & Hlen & Hs & Hv). unfold removeArchivedTab. case_match; [done|].
  split; [|split; [|split]].
  - eapply sublist_NoDup; [done|]. apply fmap_sublist, sublist_filter.
  - pose proof (length_filter (λ tab, ¬ (a_url tab = u ∧ a_spaceId tab = spaceId)) archive).
    lia.
  - by apply StronglySorted_filter.
  - apply Forall_forall. intros t [_ Ht]%list_elem_of_filter.
    rewrite Forall_forall in Hv. by apply Hv.
Qed.

(** X12: [addArchivedTab] and [removeArchivedTab] keep the stored archive well
    formed, whatever their arguments (a missing or incomplete [tabData], an
    empty URL or space id included): one record per URL, at most
    [MAX_ARCHIVED_TABS] records, newest first, each with a URL, a name and
    a space id. *)
Theorem archive_ok_kept now td u spaceId archive :
  archive_ok archive →
  archive_ok (addArchivedTab now td archive)
  ∧ archive_ok (removeArchivedTab u spaceId archive).
Proof. intros Hok. split; [by apply archive_ok_add|by apply archive_ok_remove]. Qed.

Lemma small_archive_ok : archive_ok small_archive.
Proof.
  split; [by_compute|]. split; [vm_compute; lia|]. split.
  - repeat constructor; simpl; lia.
  - repeat constructor; done.
Defined.

(** X12, witness: the archive of two records, a closed tab added and a record removed. *)
Lemma archive_ok_kept_sample :
  archive_ok (addArchivedTab 3000 (Some closed_tab) small_archive)
  ∧ archive_ok (removeArchivedTab "https://a.example/" 5 small_archive).
Proof. apply (archive_ok_kept 3000 (Some closed_tab)), small_archive_ok. Defined.

(** X13: removing a record of a well-formed archive by its URL and space
    id, as restoring a tab does, leaves exactly the records with another
    URL, at least one fewer than before; a tab with that URL that is closed
    afterwards is archived again, whatever its space. *)
Theorem restore_then_archive_again archive r now td :
  archive_ok archive → r ∈ archive →
  a_url td = a_url r → a_name td ≠ "" → a_spaceId td ≠ 0 →
  let restored := removeArchivedTab (a_url r) (a_spaceId r) archive in
  (∀ t, t ∈ restored ↔ t ∈ archive ∧ a_url t ≠ a_url r)
  ∧ (length restored < length archive)%nat
  ∧ stamp now td ∈ addArchivedTab now (Some td) restored.
Proof.
  intros (Hnd & Hlen & Hs & Hv) Hr Hu Hn Hsp restored.
  rewrite Forall_forall in Hv. destruct (Hv r Hr) as (Hr1 & _ & Hr3).
  assert (Hres : restored
    = filter (λ tab, ¬ (a_url tab = a_url r ∧ a_spaceId tab = a_spaceId r)) archive).
  { unfold restored, removeArchivedTab. by rewrite !bool_decide_eq_false_2. }
  assert (Hmem : ∀ t, t ∈ restored ↔ t ∈ archive ∧ a_url t ≠ a_url r).
  { intros t. rewrite Hres, list_elem_of_filter. split.
    - intros [Hne Ht]. split; [done|]. intros Heq. apply Hne. split; [done|].
      by rewrite (NoDup_fmap_elem_eq a_url archive t r Hnd Ht Hr Heq).
    - intros [Ht Hne]. split; [|done]. intros [? _]. done. }
  split; [exact Hmem|]. split.
  { rewrite Hres. apply (length_filter_lt _ _ r); [done|]. intros H. by apply H. }
  assert (Hshort : (length restored < MAX_ARCHIVED_TABS)%nat).
  { assert (length restored < length archive)%nat; [|lia].
    rewrite Hres. apply (length_filter_lt _ _ r); [done|]. intros H. by apply H. }
  rewrite addArchivedTab_new.
  - rewrite take_ge.
    + rewrite sorted_perm. apply elem_of_app. right. left.
    + rewrite sorted_perm, length_app. simpl. lia.
  - by rewrite Hu.
  - done.
  - done.
  - intros t Ht%Hmem. rewrite Hu. tauto.
Qed.

(** X13, witness: the older record of the archive of two, restored and
    archived again from space 7. *)
Lemma restore_then_archive_again_sample :
  let r := mkArchivedTab "https://a.example/" "A" 5 1000 in
  let td := mkArchivedTab "https://a.example/" "A again" 7 0 in
  let restored := removeArchivedTab (a_url r) (a_spaceId r) small_archive in
  (∀ t, t ∈ restored ↔ t ∈ small_archive ∧ a_url t ≠ a_url r)
  ∧ (length restored < length small_archive)%nat
  ∧ stamp 3000 td ∈ addArchivedTab 3000 (Some td) restored.
Proof.
  apply (restore_then_archive_again small_archive
           (mkArchivedTab "https://a.example/" "A" 5 1000) 3000
           (mkArchivedTab "https://a.example/" "A again" 7 0)).
  - apply small_archive_ok.
  - right. left.
  - reflexivity.
  - discriminate.
  - discriminate.
Defined.

(** ** Pinned Tab State *)

(** X14: for a tab id other than 0, [getPinnedTabState] after
    [setPinnedTabState] gives the state that was set, an empty or missing
    [pinnedUrl] and [bookmarkId] read as null, and the states of the other
    tabs are as before; after [removePinnedTabState] the tab has no state,
    and the stored object is the one from before the two calls when the tab
    had no state then.  With the tab id 0 nothing is stored and nothing is
    found. *)
Theorem pinned_state_round_trip tabId s states :
  tabId ≠ 0 →
  let stored := setPinnedTabState tabId (Some s) states in
  getPinnedTabState tabId stored
  = Some (mkPinnedState (or_null (pinnedUrl s)) (or_null (bookmarkId s)))
  ∧ (∀ other, other ≠ tabId →
       getPinnedTabState other stored = getPinnedTabState other states)
  ∧ getPinnedTabState tabId (removePinnedTabState tabId stored) = None
  ∧ (states !! tabId = None → removePinnedTabState tabId stored = states)
  ∧ setPinnedTabState 0 (Some s) states = states
  ∧ getPinnedTabState 0 states = None.
Proof.
  intros Hid stored. unfold stored, getPinnedTabState, setPinnedTabState, removePinnedTabState.
  rewrite !(bool_decide_eq_false_2 (tabId = 0)) by done.
  rewrite lookup_insert_eq. split; [done|]. split; [|split; [|split; [|done]]].
  - intros other Hne. case_bool_decide; [done|]. by rewrite lookup_insert_ne.
  - by rewrite lookup_delete_eq.
  - intros Hnone. by rewrite delete_insert_id.
Qed.

(** X14, witness: tab 41, with an empty [bookmarkId]. *)
Lemma pinned_state_round_trip_sample :
  let s := mkPinnedState (Some "https://docs.example/d/1") (Some "") in
  let stored := setPinnedTabState 41 (Some s) doc_states in
  getPinnedTabState 41 stored
  = Some (mkPinnedState (or_null (pinnedUrl s)) (or_null (bookmarkId s)))
  ∧ (∀ other, other ≠ 41 →
       getPinnedTabState other stored = getPinnedTabState other doc_states)
  ∧ getPinnedTabState 41 (removePinnedTabState 41 stored) = None
  ∧ (doc_states !! 41 = None → removePinnedTabState 41 stored = doc_states)
  ∧ setPinnedTabState 0 (Some s) doc_states = doc_states
  ∧ getPinnedTabState 0 doc_states = None.
Proof.
  apply (pinned_state_round_trip 41
           (mkPinnedState (Some "https://docs.example/d/1") (Some "")) doc_states).
  lia.
Defined.

Lemma js_find_unique {A} (p : A → bool) l x :
  x ∈ l → p x = true → (∀ y, y ∈ l → p y = true → y = x) → js_find p l = Some x.
Proof.
  intros Hx Hp Hu. destruct (js_find_is_Some p l x Hx Hp) as [y Hy].
  rewrite Hy. f_equal. apply js_find_Some in Hy as [Hy Hpy]. by apply Hu.
Qed.

(** X15: once [setPinnedTabState] has stored the id of a bookmark for an
    open tab, and no other open tab's state names that bookmark, the
    matching of [loadTabs] chooses this tab for the bookmark, whatever the
    URLs of the tabs and whatever tabs other rows have claimed. *)
Theorem stored_state_chooses_tab parse_url tabs states represented t itemId itemUrl pinned :
  t ∈ tabs → tab_id t ≠ 0 → itemId ≠ "" →
  NoDup (tab_id <$> tabs) →
  (∀ t', t' ∈ tabs → references states itemId t' → t' = t) →
  existingTab parse_url tabs
    (setPinnedTabState (tab_id t) (Some (mkPinnedState pinned (Some itemId))) states)
    represented itemId itemUrl
  = Some t.
Proof.
  intros Ht Hid Hitem Hnd Honly. unfold existingTab, byBookmarkId.
  rewrite (js_find_unique _ tabs t); [done|done| |].
  - apply bool_decide_eq_true_2. unfold references, setPinnedTabState.
    rewrite bool_decide_eq_false_2 by done. rewrite lookup_insert_eq. simpl.
    unfold or_null. by rewrite bool_decide_eq_false_2.
  - intros t' Ht' Hr%bool_decide_eq_true_1.
    destruct (decide (tab_id t' = tab_id t)) as [Heq|Hne].
    + by apply (NoDup_fmap_elem_eq tab_id tabs).
    + apply Honly; [done|]. revert Hr. unfold references, setPinnedTabState.
      rewrite bool_decide_eq_false_2 by done. by rewrite lookup_insert_ne.
Qed.

(** X15, witness: tab 42 is chosen for bookmark 13 although it is already
    claimed and its URL differs from the bookmark's. *)
Lemma stored_state_chooses_tab_sample :
  existingTab parse_http_url doc_tabs2
    (setPinnedTabState 42 (Some (mkPinnedState (Some "https://docs.example/d/1") (Some "13")))
       ∅)
    {[42]} "13" "https://docs.example/d/1"
  = Some (mkTab 42 1 false 7 "https://docs.example/d/1?tab=2").
Proof.
  apply (stored_state_chooses_tab parse_http_url doc_tabs2 ∅ {[42]}
           (mkTab 42 1 false 7 "https://docs.example/d/1?tab=2") "13"
           "https://docs.example/d/1" (Some "https://docs.example/d/1")).
  - right. left.
  - simpl. lia.
  - discriminate.
  - by_compute.
  - intros t' _ Hr. unfold references in Hr. by rewrite lookup_empty in Hr.
Defined.

(** ** The key of an address the [URL] constructor rejects *)

Lemma has_char_before_same c s : has_char c (before_char c s) = false.
Proof.
  induction s as [|a r IH]; simpl; [done|]. case_bool_decide as Hc; [done|].
  simpl. rewrite bool_decide_eq_false_2 by done. exact IH.
Qed.

Lemma has_char_before_other c c' s :
  has_char c' s = false → has_char c' (before_char c s) = false.
Proof.
  induction s as [|a r IH]; simpl; [done|]. intros [Ha Hr]%orb_false_iff.
  destruct (bool_decide (a = c)) eqn:Hc; [done|]. simpl. rewrite Ha. simpl. by apply IH.
Qed.

Lemma before_char_prefix c s : String.prefix (before_char c s) s = true.
Proof.
  induction s as [|a r IH]; simpl; [done|]. case_bool_decide; [done|].
  simpl. destruct (Ascii.ascii_dec a a) as [_|Hn]; [done|by destruct Hn].
Qed.

Lemma prefix_trans s1 s2 s3 :
  String.prefix s1 s2 = true → String.prefix s2 s3 = true → String.prefix s1 s3 = true.
Proof.
  revert s2 s3. induction s1 as [|a r IH]; intros s2 s3; [intros _ _; by destruct s3|].
  destruct s2 as [|b r2]; [done|]. simpl.
  destruct (Ascii.ascii_dec a b) as [->|]; [|done].
  intros H12. destruct s3 as [|c r3]; [done|]. simpl.
  destruct (Ascii.ascii_dec b c) as [->|]; [|done]. by apply IH.
Qed.

Lemma before_char_absent c s : has_char c s = false → before_char c s = s.
Proof.
  induction s as [|a r IH]; simpl; [done|]. intros [Ha Hr]%orb_false_iff.
  rewrite Ha. by rewrite IH.
Qed.

Lemma before_char_app_hit c k rest :
  has_char c k = false → before_char c (k +:+ String c rest) = k.
Proof.
  induction k as [|a r IH]; simpl.
  - intros _. by rewrite bool_decide_eq_true_2.
  - intros [Ha Hr]%orb_false_iff.
    apply bool_decide_eq_false in Ha. rewrite bool_decide_eq_false_2 by done.
    rewrite IH by done. done.
Qed.

Lemma before_char_app_skip c c' k rest :
  has_char c k = false → c' ≠ c →
  before_char c (k +:+ String c' rest) = k +:+ String c' (before_char c rest).
Proof.
  induction k as [|a r IH]; simpl.
  - intros _ Hne. by rewrite bool_decide_eq_false_2.
  - intros [Ha Hr]%orb_false_iff Hne.
    apply bool_decide_eq_false in Ha. rewrite bool_decide_eq_false_2 by done.
    rewrite IH by done. done.
Qed.

(** X16: for an address the [URL] constructor rejects, the key of
    [getPinnedUrlKey] is a prefix of the address that holds neither '?' nor
    '#', and every rejected address made of the key, a '?' or '#' and any
    text has the same key. *)
Theorem getPinnedUrlKey_fallback parse_url u :
  parse_url u = None →
  let k := getPinnedUrlKey parse_url u in
  has_char "?" k = false ∧ has_char "#" k = false
  ∧ String.prefix k u = true
  ∧ ∀ c rest, c = "?"%char ∨ c = "#"%char →
      parse_url (k +:+ String c rest) = None →
      getPinnedUrlKey parse_url (k +:+ String c rest) = k.
Proof.
  intros Hp k.
  assert (Hk : k = before_char "?" (before_char "#" u)).
  { unfold k, getPinnedUrlKey. case_bool_decide as He; [by subst u|]. by rewrite Hp. }
  assert (Hq : has_char "?" k = false) by (rewrite Hk; apply has_char_before_same).
  assert (Hh : has_char "#" k = false)
    by (rewrite Hk; apply has_char_before_other, has_char_before_same).
  split; [done|]. split; [done|]. split.
  - rewrite Hk. eapply prefix_trans; apply before_char_prefix.
  - intros c rest Hc Hp'. unfold getPinnedUrlKey.
    rewrite bool_decide_eq_false_2 by (by destruct k).
    rewrite Hp'. destruct Hc as [-> | ->].
    + rewrite (before_char_app_skip "#" "?") by done.
      by rewrite before_char_app_hit.
    + rewrite before_char_app_hit by done. by apply before_char_absent.
Qed.

(** X16, witness: a text without a scheme, which the constructor rejects;
    its key is [not a url]. *)
Lemma getPinnedUrlKey_fallback_sample :
  let k := getPinnedUrlKey parse_http_url "not a url?x=1#top" in
  has_char "?" k = false ∧ has_char "#" k = false
  ∧ String.prefix k "not a url?x=1#top" = true
  ∧ ∀ c rest, c = "?"%char ∨ c = "#"%char →
      parse_http_url (k +:+ String c rest) = None →
      getPinnedUrlKey parse_http_url (k +:+ String c rest) = k.
Proof.
  apply (getPinnedUrlKey_fallback parse_http_url "not a url?x=1#top").
  reflexivity.
Defined.

(** ** Removing a bookmark by its address *)

Lemma searchAndRemoveBookmark_folder tabUrl i title d items :
  searchAndRemoveBookmark tabUrl (Folder i title d items)
  = (λ found, Folder i title d found) <$> searchAndRemove_items tabUrl items.
Proof.
  simpl. f_equal. induction items as [|item rest IH]; [done|].
  simpl. destruct item; by rewrite IH.
Qed.

Lemma without_first_app u l1 l2 :
  without_first u (l1 ++ l2)
  = match without_first u l1 with
    | Some l1' => Some (l1' ++ l2)
    | None => (l1 ++.) <$> without_first u l2
    end.
Proof.
  induction l1 as [|x r IH]; simpl.
  - by destruct (without_first u l2).
  - case_bool_decide; [done|]. rewrite IH.
    destruct (without_first u r); simpl; [done|]. by destruct (without_first u l2).
Qed.

Lemma searchAndRemove_items_urls tabUrl items :
  Forall (λ item, is_folder item = true →
            bookmark_urls <$> searchAndRemoveBookmark tabUrl item
            = without_first tabUrl (bookmark_urls item)) items →
  (λ found, concat (List.map bookmark_urls found)) <$> searchAndRemove_items tabUrl items
  = without_first tabUrl (concat (List.map bookmark_urls items)).
Proof.
  induction 1 as [|item rest Hitem Hrest IH]; [done|].
  destruct item as [i t u d|i t d ch].
  - simpl. case_bool_decide; [done|]. rewrite <- IH.
    by destruct (searchAndRemove_items tabUrl rest).
  - specialize (Hitem eq_refl).
    change (concat (List.map bookmark_urls (Folder i t d ch :: rest)))
      with (bookmark_urls (Folder i t d ch) ++ concat (List.map bookmark_urls rest)).
    rewrite without_first_app, <- Hitem, <- IH.
    change (searchAndRemove_items tabUrl (Folder i t d ch :: rest))
      with (match searchAndRemoveBookmark tabUrl (Folder i t d ch) with
            | Some item' => Some (item' :: rest)
            | None => cons (Folder i t d ch) <$> searchAndRemove_items tabUrl rest
            end).
    destruct (searchAndRemoveBookmark tabUrl (Folder i t d ch)) as [item'|]; [done|].
    by destruct (searchAndRemove_items tabUrl rest).
Qed.

Lemma without_first_None u l : without_first u l = None ↔ u ∉ l.
Proof.
  induction l as [|x r IH]; simpl; [split; [intros _; apply not_elem_of_nil|done]|].
  rewrite not_elem_of_cons. case_bool_decide as Hx.
  - split; [done|]. intros [Hne _]. by subst.
  - destruct (without_first u r); simpl.
    + split; [done|]. intros [_ Hr]. by apply IH in Hr.
    + split; [|done]. intros _. split; [done|]. by apply IH.
Qed.

(** X17: on a folder, [searchAndRemoveBookmark] removes the first
    bookmark with the URL in document order, subfolders included, and
    nothing else: the URLs of the bookmarks afterwards are those from
    before without the first occurrence.  It returns [false] exactly when
    no bookmark under the folder has the URL. *)
Theorem searchAndRemoveBookmark_first tabUrl folder :
  is_folder folder = true →
  bookmark_urls <$> searchAndRemoveBookmark tabUrl folder
  = without_first tabUrl (bookmark_urls folder)
  ∧ (searchAndRemoveBookmark tabUrl folder = None ↔ tabUrl ∉ bookmark_urls folder).
Proof.
  assert (Hmain : ∀ n, is_folder n = true →
    bookmark_urls <$> searchAndRemoveBookmark tabUrl n
    = without_first tabUrl (bookmark_urls n)).
  { induction n as [i t u d|i t d ch IH] using BookmarkNode_nested_ind; [done|].
    intros _. rewrite searchAndRemoveBookmark_folder.
    change (bookmark_urls (Folder i t d ch)) with (concat (List.map bookmark_urls ch)).
    rewrite <- (searchAndRemove_items_urls tabUrl ch IH).
    by destruct (searchAndRemove_items tabUrl ch). }
  intros Hf. split; [by apply Hmain|].
  rewrite <- without_first_None, <- (Hmain folder Hf).
  by destruct (searchAndRemoveBookmark tabUrl folder).
Qed.

(** X17, witness: a folder with a subfolder. *)
Lemma searchAndRemoveBookmark_first_sample :
  bookmark_urls <$> searchAndRemoveBookmark "https://docs.example/d/1" nested_folder
  = without_first "https://docs.example/d/1" (bookmark_urls nested_folder)
  ∧ (searchAndRemoveBookmark "https://docs.example/d/1" nested_folder = None
     ↔ "https://docs.example/d/1" ∉ bookmark_urls nested_folder).
Proof.
  apply (searchAndRemoveBookmark_first "https://docs.example/d/1" nested_folder).
  reflexivity.
Defined.

(** ** The space of the active tab *)

Lemma includesZ_true l x : includesZ l x = true ↔ x ∈ l.
Proof. unfold includesZ. apply bool_decide_eq_true. Qed.

Lemma findActiveSpaceAndTab_facts stored foundTab others :
  let r := findActiveSpaceAndTab stored (foundTab :: others) in
  (∀ space tab, r = Some (space, tab) →
     tab = foundTab ∧ space ∈ stored ∧ holds_tab (tab_id foundTab) space = true)
  ∧ (r = None ↔ ∀ s, s ∈ stored → holds_tab (tab_id foundTab) s = false)
  ∧ (∀ s, s ∈ stored → tab_id foundTab ∈ temporaryTabs s →
       ∃ space, r = Some (space, foundTab) ∧ tab_id foundTab ∈ temporaryTabs space)
  ∧ findActiveSpaceAndTab stored [] = None.
Proof.
  intros r. unfold r, findActiveSpaceAndTab, holds_tab.
  destruct (js_find (λ space, includesZ (temporaryTabs space) (tab_id foundTab)) stored)
    as [st|] eqn:Ht.
  - apply js_find_Some in Ht as [Hin Hp].
    split; [|split; [|split; [|done]]].
    + intros space tab [= <- <-]. by rewrite Hp.
    + split; [done|]. intros H. specialize (H st Hin). by rewrite Hp in H.
    + intros s _ _. exists st. split; [done|]. by apply includesZ_true.
  - rewrite js_find_None in Ht.
    destruct (js_find (λ space, includesZ (spaceBookmarks space) (tab_id foundTab)) stored)
      as [sb|] eqn:Hb.
    + apply js_find_Some in Hb as [Hin Hp].
      split; [|split; [|split; [|done]]].
      * intros space tab [= <- <-]. rewrite Hp. by rewrite orb_true_r.
      * split; [done|]. intros H. specialize (H sb Hin). rewrite Hp, orb_true_r in H. done.
      * intros s Hs Hx. apply includesZ_true in Hx. by rewrite (Ht s Hs) in Hx.
    + rewrite js_find_None in Hb.
      split; [|split; [|split; [|done]]].
      * done.
      * split; [|done]. intros _ s Hs. by rewrite (Ht s Hs), (Hb s Hs).
      * intros s Hs Hx. apply includesZ_true in Hx. by rewrite (Ht s Hs) in Hx.
Qed.

(** X18: [findActiveSpaceAndTab] answers with the first active tab found
    and a stored space that holds its id; a space that holds the id among
    its temporary tabs goes before every space that holds it among its
    bookmarks.  It answers [undefined] exactly when no stored space holds
    the id, and when no active tab is found. *)
Theorem findActiveSpaceAndTab_spec stored foundTab others :
  let r := findActiveSpaceAndTab stored (foundTab :: others) in
  (∀ space tab, r = Some (space, tab) →
     tab = foundTab ∧ space ∈ stored ∧ holds_tab (tab_id foundTab) space = true)
  ∧ (r = None ↔ ∀ s, s ∈ stored → holds_tab (tab_id foundTab) s = false)
  ∧ (∀ s, s ∈ stored → tab_id foundTab ∈ temporaryTabs s →
       ∃ space, r = Some (space, foundTab) ∧ tab_id foundTab ∈ temporaryTabs space)
  ∧ findActiveSpaceAndTab stored [] = None.
Proof. apply findActiveSpaceAndTab_facts. Qed.

(** ** The [NextTabInSpace] command *)

Lemma findIndex_hit (x : Z) l :
  x ∈ l →
  ∃ i : nat, findIndex (λ y, bool_decide (y = x)) l = Z.of_nat i ∧ (i < length l)%nat.
Proof.
  intros Hx. unfold findIndex.
  pose proof (findIndex_from_app_hit (λ y, bool_decide (y = x)) 0 l [] x Hx
                (bool_decide_eq_true_2 _ eq_refl)) as Hr.
  rewrite app_nil_r in Hr.
  exists (Z.to_nat (findIndex_from (λ y, bool_decide (y = x)) 0 l)). lia.
Qed.

Lemma movToNext_defined x space :
  holds_tab x space = true →
  ∃ n, movToNextTabInSpace x (Some space) = Activate (Some n) ∧ n ∈ space_cycle space.
Proof.
  unfold holds_tab, movToNextTabInSpace, space_cycle. simpl.
  set (t := temporaryTabs space). set (b := spaceBookmarks space).
  assert (Hlk : ∀ (l : list Z) (i : nat), (i < length l)%nat → ∃ n, l !! i = Some n ∧ n ∈ l).
  { intros l i Hi. destruct (lookup_lt_is_Some_2 l i Hi) as [n Hn].
    exists n. split; [done|]. by eapply list_elem_of_lookup_2. }
  intros Hh. destruct (decide (x ∈ t)) as [Hxt|Hxt].
  - destruct (findIndex_hit x t Hxt) as (i & -> & Hi).
    rewrite bool_decide_eq_true_2 by lia.
    case_bool_decide.
    + destruct (Hlk t (Z.to_nat (Z.of_nat i + 1))) as (n & -> & Hn); [lia|].
      exists n. split; [done|]. apply elem_of_app. by left.
    + case_bool_decide.
      * destruct (Hlk b 0%nat) as (n & -> & Hn); [lia|].
        exists n. split; [done|]. apply elem_of_app. by right.
      * destruct (Hlk t 0%nat) as (n & -> & Hn); [lia|].
        exists n. split; [done|]. apply elem_of_app. by left.
  - rewrite (findIndex_absent x t) by done.
    rewrite bool_decide_eq_false_2 by lia.
    assert (Hxb : x ∈ b).
    { apply orb_true_iff in Hh as [Hh|Hh]; apply includesZ_true in Hh; [done|done]. }
    destruct (findIndex_hit x b Hxb) as (i & -> & Hi).
    rewrite bool_decide_eq_true_2 by lia.
    case_bool_decide.
    + destruct (Hlk b (Z.to_nat (Z.of_nat i + 1))) as (n & -> & Hn); [lia|].
      exists n. split; [done|]. apply elem_of_app. by right.
    + case_bool_decide.
      * destruct (Hlk t 0%nat) as (n & -> & Hn); [lia|].
        exists n. split; [done|]. apply elem_of_app. by left.
      * destruct (Hlk b 0%nat) as (n & -> & Hn); [lia|].
        exists n. split; [done|]. apply elem_of_app. by right.
Qed.

(** X19: the [NextTabInSpace] command activates a tab of the space that
    holds the active tab; when no stored space holds the active tab, or no
    active tab is found, the handler destructures [undefined] and its
    promise is rejected with a TypeError. *)
Theorem nextTabInSpace_command_spec stored foundTabs :
  match nextTabInSpace_command stored foundTabs with
  | inl a =>
      ∃ tab space n,
        head foundTabs = Some tab ∧ space ∈ stored
        ∧ holds_tab (tab_id tab) space = true
        ∧ a = Activate (Some n) ∧ n ∈ space_cycle space
  | inr e =>
      e = cannot_destructure
      ∧ ∀ tab, head foundTabs = Some tab →
               ∀ s, s ∈ stored → holds_tab (tab_id tab) s = false
  end.
Proof.
  unfold nextTabInSpace_command. destruct foundTabs as [|foundTab others].
  - simpl. split; [done|]. done.
  - destruct (findActiveSpaceAndTab_facts stored foundTab others) as (Hsome & Hnone & _).
    destruct (findActiveSpaceAndTab stored (foundTab :: others)) as [[space tab]|].
    + destruct (Hsome space tab eq_refl) as (-> & Hin & Hh).
      destruct (movToNext_defined (tab_id foundTab) space Hh) as (n & Hn & Hc).
      exists foundTab, space, n. by rewrite Hn.
    + split; [done|]. intros tab [= <-]. by apply Hnone.
Qed.

(** ** The auto-archive check *)

Lemma select_fold now threshold tabActivity urls stillOpen clock tabs acc :
  (foldl (select_step now threshold tabActivity urls stillOpen clock) acc tabs).1
  = acc.1 ++ filter (to_archive now threshold tabActivity urls stillOpen) tabs.
Proof.
  revert acc. induction tabs as [|tab rest IH]; intros acc; simpl.
  - by rewrite ?filter_nil, ?fmap_nil, app_nil_r.
  - rewrite IH, filter_cons.
    destruct (decide (to_archive now threshold tabActivity urls stillOpen tab))
      as [(Ha & Hc & Hu & Hi & Ho)|Hn].
    + unfold select_step. rewrite Ha, Hc. simpl.
      rewrite bool_decide_eq_false_2 by done. rewrite Hi, Ho. simpl.
      by rewrite <- (assoc_L (++)).
    + f_equal. unfold select_step.
      destruct (o_audible tab) eqn:Ha; [done|].
      destruct (o_active tab) eqn:Hc; [done|]. simpl.
      case_bool_decide as Hu; [done|].
      destruct (is_idle now threshold tabActivity tab) eqn:Hi; [|done].
      destruct (stillOpen (o_id tab)) eqn:Ho; [|done].
      exfalso. by apply Hn.
Qed.

Lemma archive_fold_closed clock selected acc :
  run_closed (foldl (archive_step clock) acc selected)
  = run_closed acc ++ (o_id <$> filter in_a_group selected).
Proof.
  revert acc. induction selected as [|tab rest IH]; intros acc; simpl.
  - by rewrite ?filter_nil, ?fmap_nil, app_nil_r.
  - rewrite IH, filter_cons. unfold archive_step.
    destruct (decide (in_a_group tab)) as [[H1 H2]|Hn].
    + rewrite !bool_decide_eq_true_2 by done. simpl. by rewrite <- (assoc_L (++)).
    + destruct (decide (o_groupId tab ≠ 0)) as [H1|H1].
      * rewrite (bool_decide_eq_true_2 _ H1). rewrite bool_decide_eq_false_2; [done|].
        intros H2. by apply Hn.
      * by rewrite (bool_decide_eq_false_2 _ H1).
Qed.

Lemma auto_archive_closed_ids settings now clock stored stillOpen tabs tabActivity archive :
  let run := runAutoArchiveCheck settings now clock stored stillOpen tabs tabActivity
               archive in
  (autoArchiveEnabled settings = false ∨ autoArchiveIdleMinutes settings ≤ 0 →
     run = mkArchiveRun archive tabActivity [])
  ∧ (autoArchiveEnabled settings = true ∧ 0 < autoArchiveIdleMinutes settings →
     ∀ id, id ∈ run_closed run ↔
       ∃ tab, tab ∈ tabs ∧ o_id tab = id
              ∧ o_audible tab = false ∧ o_active tab = false
              ∧ (o_url tab ∉ bookmarkedUrls stored)
              ∧ is_idle now (autoArchiveIdleMinutes settings * 60 * 1000) tabActivity tab
                = true
              ∧ stillOpen id = true
              ∧ o_groupId tab ≠ 0 ∧ o_groupId tab ≠ TAB_GROUP_ID_NONE).
Proof.
  intros run. unfold run, runAutoArchiveCheck. split.
  - intros [-> | Hm]; [done|]. rewrite (bool_decide_eq_true_2 _ Hm). by rewrite orb_true_r.
  - intros [-> Hm]. rewrite bool_decide_eq_false_2 by lia. simpl.
    intros id. rewrite archive_fold_closed, select_fold. simpl.
    rewrite list_elem_of_fmap. split.
    + intros (tab & -> & [Hg [Hsel Ht]%list_elem_of_filter]%list_elem_of_filter).
      destruct Hsel as (? & ? & ? & ? & ?). destruct Hg. by exists tab.
    + intros (tab & Ht & <- & ? & ? & ? & ? & ? & ? & ?). exists tab. split; [done|].
      apply list_elem_of_filter. split; [done|]. by apply list_elem_of_filter.
Qed.

(** X20: [runAutoArchiveCheck] does nothing when auto-archive is off or
    the idle time is not positive.  Otherwise it closes exactly the
    unpinned tabs that are neither audible nor active, whose URL is not a
    stored bookmark URL, that have no activity record or one older than the
    idle time (a record of 0 counts as none), that the host still knows,
    and that are in a tab group. *)
Theorem auto_archive_closed settings now clock stored stillOpen tabs tabActivity archive :
  let run := runAutoArchiveCheck settings now clock stored stillOpen tabs tabActivity
               archive in
  (autoArchiveEnabled settings = false ∨ autoArchiveIdleMinutes settings ≤ 0 →
     run = mkArchiveRun archive tabActivity [])
  ∧ (autoArchiveEnabled settings = true ∧ 0 < autoArchiveIdleMinutes settings →
     ∀ id, id ∈ run_closed run ↔
       ∃ tab, tab ∈ tabs ∧ o_id tab = id
              ∧ o_audible tab = false ∧ o_active tab = false
              ∧ (o_url tab ∉ bookmarkedUrls stored)
              ∧ is_idle now (autoArchiveIdleMinutes settings * 60 * 1000) tabActivity tab
                = true
              ∧ stillOpen id = true
              ∧ o_groupId tab ≠ 0 ∧ o_groupId tab ≠ TAB_GROUP_ID_NONE).
Proof. apply auto_archive_closed_ids. Qed.

Lemma bookmarkedUrls_numbers (acc : gset string) (ids : list Z) :
  foldl add_bookmarked acc (StoredNumber <$> ids) = acc.
Proof. revert acc. induction ids as [|i r IH]; intros acc; simpl; [done|apply IH]. Qed.

Lemma bookmarkedUrls_stored (acc : gset string) sps :
  foldl (λ acc bookmarks, foldl add_bookmarked acc bookmarks) acc (stored_bookmarks <$> sps)
  = acc.
Proof.
  revert acc. induction sps as [|s r IH]; intros acc; [done|].
  rewrite fmap_cons. cbn [foldl]. change (stored_bookmarks s) with (StoredNumber <$> spaceBookmarks s).
  rewrite bookmarkedUrls_numbers. apply IH.
Qed.

(** X21: the arrays [spaceBookmarks] the sidebar stores hold tab ids, so
    the set of bookmarked URLs of [runAutoArchiveCheck] is empty on them
    and the check runs as it does with no stored space: a bookmarked tab is
    archived like any other. *)
Theorem auto_archive_ignores_stored_ids sps settings now clock stillOpen tabs tabActivity
    archive :
  bookmarkedUrls (stored_bookmarks <$> sps) = ∅
  ∧ runAutoArchiveCheck settings now clock (stored_bookmarks <$> sps) stillOpen tabs
      tabActivity archive
    = runAutoArchiveCheck settings now clock [] stillOpen tabs tabActivity archive.
Proof.
  assert (He : bookmarkedUrls (stored_bookmarks <$> sps) = ∅)
    by apply bookmarkedUrls_stored.
  split; [done|]. unfold runAutoArchiveCheck. by rewrite He.
Qed.

Lemma addArchivedTab_room now td archive :
  (length archive < MAX_ARCHIVED_TABS)%nat →
  let archive' := addArchivedTab now (Some td) archive in
  (∀ u, u ∈ a_url <$> archive → u ∈ a_url <$> archive')
  ∧ (length archive' ≤ length archive + 1)%nat
  ∧ (a_url td ≠ "" → a_name td ≠ "" → a_spaceId td ≠ 0 → a_url td ∈ a_url <$> archive').
Proof.
  intros Hroom archive'.
  destruct (decide (a_url td ≠ "" ∧ a_name td ≠ "" ∧ a_spaceId td ≠ 0)) as [(H1 & H2 & H3)|Hn].
  - destruct (decide (a_url td ∈ a_url <$> archive)) as [Hin|Hnew].
    + assert (Hsame : archive' = archive).
      { apply addArchivedTab_duplicate.
        apply list_elem_of_fmap in Hin as (t & Hu & Ht). by exists t. }
      rewrite Hsame. split; [done|]. split; [lia|done].
    + assert (Hadd : archive' ≡ₚ archive ++ [stamp now td]).
      { unfold archive'. rewrite addArchivedTab_new.
        - rewrite take_ge; [apply sorted_perm|].
          rewrite sorted_perm, length_app. simpl. lia.
        - done.
        - done.
        - done.
        - intros t Ht Heq. apply Hnew. rewrite <- Heq. by apply list_elem_of_fmap_2. }
      split; [|split].
      * intros u Hu. rewrite Hadd, fmap_app. apply elem_of_app. by left.
      * rewrite Hadd, length_app. simpl. lia.
      * intros _ _ _. rewrite Hadd, fmap_app. apply elem_of_app. right. left.
  - assert (Hsame : archive' = archive).
    { unfold archive', addArchivedTab.
      destruct (bool_decide (a_url td = "") || bool_decide (a_name td = "")
                || bool_decide (a_spaceId td = 0)) eqn:Hv; [done|].
      apply orb_false_iff in Hv as [Hv H3]. apply orb_false_iff in Hv as [H1 H2].
      apply bool_decide_eq_false in H1, H2, H3. exfalso. by apply Hn. }
    rewrite Hsame. split; [done|]. split; [lia|]. intros. exfalso. by apply Hn.
Qed.

Lemma archive_fold_records clock selected acc :
  (length (run_archive acc) + length selected ≤ MAX_ARCHIVED_TABS)%nat →
  let r := foldl (archive_step clock) acc selected in
  (∀ u, u ∈ a_url <$> run_archive acc → u ∈ a_url <$> run_archive r)
  ∧ (∀ tab, tab ∈ selected → in_a_group tab → o_url tab ≠ "" →
       o_url tab ∈ a_url <$> run_archive r).
Proof.
  revert acc. induction selected as [|tab rest IH]; intros acc Hroom; simpl.
  - split; [done|]. intros tab Ht. by apply elem_of_nil in Ht.
  - simpl in Hroom.
    set (acc1 := archive_step clock acc tab).
    assert (H1 : (∀ u, u ∈ a_url <$> run_archive acc → u ∈ a_url <$> run_archive acc1)
                 ∧ (length (run_archive acc1) ≤ length (run_archive acc) + 1)%nat
                 ∧ (in_a_group tab → o_url tab ≠ "" → o_url tab ∈ a_url <$> run_archive acc1)).
    { unfold acc1, archive_step.
      destruct (decide (in_a_group tab)) as [[Hg1 Hg2]|Hn].
      - rewrite !bool_decide_eq_true_2 by done. simpl.
        destruct (addArchivedTab_room (clock (o_id tab))
                    (mkArchivedTab (o_url tab) (archive_name tab) (o_groupId tab) 0)
                    (run_archive acc)) as (Hk & Hl & Hin); [lia|].
        split; [done|]. split; [done|]. intros _ Hu. apply Hin; simpl; [done| |done].
        unfold archive_name. by case_bool_decide.
      - assert (Hskip : (bool_decide (o_groupId tab ≠ 0)
                         && bool_decide (o_groupId tab ≠ TAB_GROUP_ID_NONE)) = false).
        { apply andb_false_iff.
          destruct (decide (o_groupId tab ≠ 0)) as [Hg1|Hg1].
          - right. apply bool_decide_eq_false_2. intros Hg2. by apply Hn.
          - left. by apply bool_decide_eq_false_2. }
        rewrite Hskip. split; [done|]. split; [lia|]. intros Hg. by destruct Hn. }
    destruct H1 as (Hk1 & Hl1 & Hin1).
    destruct (IH acc1) as (Hk & Hin); [lia|].
    split.
    + intros u Hu. by apply Hk, Hk1.
    + intros t [->|Ht]%elem_of_cons Hg Hu; [by apply Hk, Hin1|by apply Hin].
Qed.

(** X22: when the archive has room for every open tab, a run of
    [runAutoArchiveCheck] keeps the URLs already archived and leaves a
    record for the URL of every tab it closes (a tab with an empty URL is
    closed without a record). *)
Theorem auto_archive_records settings now clock stored stillOpen tabs tabActivity archive :
  autoArchiveEnabled settings = true → 0 < autoArchiveIdleMinutes settings →
  NoDup (o_id <$> tabs) →
  (length archive + length tabs ≤ MAX_ARCHIVED_TABS)%nat →
  let run := runAutoArchiveCheck settings now clock stored stillOpen tabs tabActivity
               archive in
  (∀ u, u ∈ a_url <$> archive → u ∈ a_url <$> run_archive run)
  ∧ ∀ tab, tab ∈ tabs → o_id tab ∈ run_closed run → o_url tab ≠ "" →
           o_url tab ∈ a_url <$> run_archive run.
Proof.
  intros He Hm Hnd Hroom run.
  destruct (auto_archive_closed_ids settings now clock stored stillOpen tabs tabActivity
              archive)
    as [_ Hclosed]. specialize (Hclosed (conj He Hm)). fold run in Hclosed.
  set (sel := foldl (select_step now (autoArchiveIdleMinutes settings * 60 * 1000) tabActivity
                       (bookmarkedUrls stored) stillOpen clock) ([], tabActivity) tabs).
  assert (Hrun : run = foldl (archive_step clock) (mkArchiveRun archive sel.2 []) sel.1).
  { unfold run, runAutoArchiveCheck. rewrite He. by rewrite bool_decide_eq_false_2 by lia. }
  rewrite Hrun in *. clear Hrun run.
  assert (Hsel : sel.1 = filter (to_archive now (autoArchiveIdleMinutes settings * 60 * 1000)
                                   tabActivity (bookmarkedUrls stored) stillOpen) tabs).
  { unfold sel. by rewrite select_fold. }
  destruct (archive_fold_records clock sel.1 (mkArchiveRun archive sel.2 [])) as [Hk Hin].
  { simpl. rewrite Hsel.
    pose proof (length_filter (to_archive now (autoArchiveIdleMinutes settings * 60 * 1000)
                                 tabActivity (bookmarkedUrls stored) stillOpen) tabs). lia. }
  split; [exact Hk|].
  intros tab Ht Hc Hu. apply Hclosed in Hc as (tab' & Ht' & Hid & Hrest).
  assert (tab' = tab) as -> by by apply (NoDup_fmap_elem_eq o_id tabs).
  destruct Hrest as (? & ? & ? & ? & ? & ? & ?).
  apply Hin; [|done|done]. rewrite Hsel. apply list_elem_of_filter. split; [|done].
  done.
Qed.

(** X22, witness: a window of three tabs and the archive of two records. *)
Lemma auto_archive_records_sample :
  let run := runAutoArchiveCheck archive_hourly 5000000 (λ _, 5000000) [] (λ _, true)
               sample_open_tabs ∅ small_archive in
  (∀ u, u ∈ a_url <$> small_archive → u ∈ a_url <$> run_archive run)
  ∧ ∀ tab, tab ∈ sample_open_tabs → o_id tab ∈ run_closed run → o_url tab ≠ "" →
           o_url tab ∈ a_url <$> run_archive run.
Proof.
  apply (auto_archive_records archive_hourly 5000000 (λ _, 5000000) [] (λ _, true)
           sample_open_tabs ∅ small_archive).
  - reflexivity.
  - reflexivity.
  - by_compute.
  - vm_compute. lia.
Defined.

(** ** The recent tabs *)

Lemma slice0_take {A} (n : Z) (l : list A) : ∃ m, slice0 n l = take m l.
Proof. unfold slice0. case_bool_decide; eauto. Qed.

Lemma recent_sorted (l : list (OpenTab * Z)) :
  StronglySorted (λ a b, b.2 ≤ a.2) (js_sort (λ a b : OpenTab * Z, b.2 - a.2) l).
Proof.
  eapply (StronglySorted_weaken (λ a b : OpenTab * Z, b.2 - a.2 ≤ 0)).
  - intros a b. lia.
  - apply js_sort_strongly_sorted; intros; lia.
Qed.

(** X23: the answer to [getRecentTabs] holds tabs with a URL and a title,
    each with its stored activity time (0 without one), sorted by that time
    with the most recent first, and no tab left out is more recent than a
    tab sent.  It holds as many tabs as the limit allows: 5 when the limit
    is missing or 0, and all but the last [-limit] for a negative limit. *)
Theorem getRecentTabs_most_recent limit activityData tabs :
  let shown := λ tab, o_url tab ≠ "" ∧ o_title tab ≠ "" in
  let r := getRecentTabs limit activityData tabs in
  (∀ p, p ∈ r → p.1 ∈ tabs ∧ shown p.1 ∧ p.2 = lastActivity_of activityData p.1)
  ∧ StronglySorted (λ a b, b.2 ≤ a.2) r
  ∧ (∀ tab, tab ∈ tabs → shown tab → (tab, lastActivity_of activityData tab) ∉ r →
       ∀ p, p ∈ r → lastActivity_of activityData tab ≤ p.2)
  ∧ (limit = None ∨ limit = Some 0 →
       length r = (5 `min` length (filter shown tabs))%nat)
  ∧ (∀ l, limit = Some l → 0 < l →
       length r = (Z.to_nat l `min` length (filter shown tabs))%nat)
  ∧ (∀ l, limit = Some l → l < 0 →
       length r = (length (filter shown tabs) - Z.to_nat (- l))%nat).
Proof.
  intros shown r. unfold r, getRecentTabs.
  set (with_activity := (λ tab, (tab, lastActivity_of activityData tab)) <$> filter _ tabs).
  set (sorted := js_sort _ with_activity).
  set (n := match limit with Some l => _ | None => 5 end).
  assert (Hperm : sorted ≡ₚ with_activity) by (apply js_sort_perm).
  assert (Hsorted : StronglySorted (λ a b : OpenTab * Z, b.2 ≤ a.2) sorted)
    by apply recent_sorted.
  assert (Hlen : length sorted = length (filter shown tabs)).
  { rewrite Hperm. unfold with_activity. by rewrite length_fmap. }
  destruct (slice0_take n sorted) as [m Hm].
  split; [|split; [|split; [|split; [|split]]]].
  - intros p Hp. rewrite Hm in Hp. apply elem_of_take in Hp as (i & Hp & _).
    apply list_elem_of_lookup_2 in Hp. rewrite Hperm in Hp.
    apply list_elem_of_fmap in Hp as (tab & -> & [Hs Ht]%list_elem_of_filter). done.
  - rewrite Hm. apply (StronglySorted_app_1_l _ _ (drop m sorted)). by rewrite take_drop.
  - intros tab Ht Hs Hout p Hp. rewrite Hm in Hout, Hp.
    assert (Hin : (tab, lastActivity_of activityData tab) ∈ sorted).
    { rewrite Hperm. apply list_elem_of_fmap. exists tab. split; [done|].
      by apply list_elem_of_filter. }
    rewrite <- (take_drop m sorted) in Hin, Hsorted. apply elem_of_app in Hin as [Hin|Hin]; [done|].
    apply (StronglySorted_app_1_elem_of _ _ _ _ _ Hsorted Hp Hin).
  - intros Hl. assert (n = 5) as Hn by (unfold n; by destruct Hl as [-> | ->]).
    unfold slice0. rewrite Hn. rewrite bool_decide_eq_false_2 by lia.
    rewrite length_take, Hlen. change (Z.to_nat 5) with 5%nat. lia.
  - intros l -> Hl. unfold n, slice0. rewrite (bool_decide_eq_false_2 (l = 0)) by lia.
    rewrite bool_decide_eq_false_2 by lia. rewrite length_take, Hlen. lia.
  - intros l -> Hl. unfold n, slice0. rewrite (bool_decide_eq_false_2 (l = 0)) by lia.
    rewrite bool_decide_eq_true_2 by lia. rewrite length_take, Hlen. lia.
Qed.

(** ** Folders of the bookmark store *)

(** X24: [getOrCreateSpaceFolder] returns a child of the BarCat folder
    with the space's name: the first child with that title, bookmark or
    folder, and a folder created at the end when there is none.  A second
    call returns the same node and creates nothing. *)
Theorem space_folder_found_or_made spaceName id1 now1 id2 now2 children :
  let first := getOrCreateSpaceFolder spaceName id1 now1 children in
  let again := getOrCreateSpaceFolder spaceName id2 now2 first.2 in
  node_title first.1 = spaceName
  ∧ first.1 ∈ first.2
  ∧ again = first
  ∧ (∀ pre node post,
       children = pre ++ node :: post →
       node_title node = spaceName → (∀ c, c ∈ pre → node_title c ≠ spaceName) →
       first = (node, children))
  ∧ ((∀ c, c ∈ children → node_title c ≠ spaceName) →
       first = (Folder id1 spaceName now1 [], children ++ [Folder id1 spaceName now1 []])).
Proof.
  intros first again.
  assert (Hfound : ∀ pre node post,
             (∀ c, c ∈ pre → node_title c ≠ spaceName) → node_title node = spaceName →
             js_find (λ f, bool_decide (node_title f = spaceName)) (pre ++ node :: post)
             = Some node).
  { intros pre node post Hpre Hn. induction pre as [|c pre IH]; simpl.
    - by rewrite bool_decide_eq_true_2.
    - rewrite bool_decide_eq_false_2 by (apply Hpre; left).
      apply IH. intros c' Hc'. apply Hpre. by right. }
  assert (H1 : node_title first.1 = spaceName ∧ first.1 ∈ first.2).
  { unfold first, getOrCreateSpaceFolder.
    destruct (js_find _ children) as [f|] eqn:Hf; simpl.
    - apply js_find_Some in Hf as [Hin Hp]. by apply bool_decide_eq_true in Hp.
    - split; [done|]. apply elem_of_app. right. left. }
  destruct H1 as [Ht Hin]. split; [done|]. split; [done|]. split; [|split].
  - unfold again. apply list_elem_of_split in Hin as (pre & post & Hsplit).
    unfold first, getOrCreateSpaceFolder in *.
    destruct (js_find _ children) as [f|] eqn:Hf; simpl in *.
    + by rewrite Hf.
    + rewrite js_find_None in Hf.
      rewrite (Hfound children (Folder id1 spaceName now1 []) []); [done| |done].
      intros c Hc. specialize (Hf c Hc). by apply bool_decide_eq_false in Hf.
  - intros pre node post -> Hn Hpre. unfold first, getOrCreateSpaceFolder.
    by rewrite Hfound.
  - intros Hnone. unfold first, getOrCreateSpaceFolder.
    assert (Hf : js_find (λ f, bool_decide (node_title f = spaceName)) children = None).
    { apply js_find_None. intros c Hc. apply bool_decide_eq_false_2. by apply Hnone. }
    by rewrite Hf.
Qed.

(** X25: [getOrCreateFavoritesFolder] returns a child titled
    [_Favorites] without a URL; a second call returns the same folder and
    creates nothing.  When the only children with that title are
    bookmarks, a folder is created in front of them. *)
Theorem favorites_folder_found_or_made id1 now1 id2 now2 children :
  let first := getOrCreateFavoritesFolder id1 now1 children in
  let again := getOrCreateFavoritesFolder id2 now2 first.2 in
  node_title first.1 = "_Favorites" ∧ has_url first.1 = false
  ∧ first.1 ∈ first.2
  ∧ again = first
  ∧ ((∀ c, c ∈ children → node_title c = "_Favorites" → has_url c = true) →
       first = (Folder id1 "_Favorites" now1 [], Folder id1 "_Favorites" now1 [] :: children)).
Proof.
  intros first again.
  set (p := λ f, bool_decide (node_title f = "_Favorites") && negb (has_url f)).
  assert (Hp : ∀ f, p f = true ↔ node_title f = "_Favorites" ∧ has_url f = false).
  { intros f. unfold p. rewrite andb_true_iff, bool_decide_eq_true, negb_true_iff. done. }
  unfold again, first, getOrCreateFavoritesFolder. fold p.
  destruct (js_find p children) as [f|] eqn:Hf; cbn [fst snd].
  - rewrite Hf. apply js_find_Some in Hf as [Hin [Ht Hu]%Hp].
    split; [done|]. split; [done|]. split; [done|]. split; [done|].
    intros Hall. rewrite (Hall f Hin Ht) in Hu. done.
  - assert (Hnew : p (Folder id1 "_Favorites" now1 []) = true) by by apply Hp.
    cbn [js_find]. rewrite Hnew.
    split; [done|]. split; [done|]. split; [left|]. done.
Qed.

Lemma js_find_first {A} (p : A → bool) pre x post :
  (∀ c, c ∈ pre → p c = false) → p x = true → js_find p (pre ++ x :: post) = Some x.
Proof.
  intros Hpre Hx. induction pre as [|c pre IH]; simpl; [by rewrite Hx|].
  rewrite (Hpre c) by left. apply IH. intros c' Hc'. apply Hpre. by right.
Qed.

Lemma remove_node_middle pre b post :
  NoDup (node_id <$> pre ++ b :: post) → remove_node (node_id b) (pre ++ b :: post) = pre ++ post.
Proof.
  intros Hnd. rewrite fmap_app, fmap_cons in Hnd.
  apply NoDup_app in Hnd as (_ & Hpre & Hpost).
  apply NoDup_cons in Hpost as [Hb _].
  unfold remove_node. rewrite filter_app, filter_cons_False by (intros H; by apply H).
  f_equal; apply filter_all.
  - intros c Hc Heq. apply (Hpre (node_id c)); [by apply list_elem_of_fmap_2|].
    rewrite Heq. left.
  - intros c Hc Heq. apply Hb. rewrite <- Heq. by apply list_elem_of_fmap_2.
Qed.

(** X26: among children with distinct ids, [removeFavoriteBookmark]
    returns [true] exactly when a child has the URL, removes the first such
    child and no other (a second bookmark of the URL stays), and leaves the
    children as they are when it returns [false]. *)
Theorem removeFavoriteBookmark_first url children :
  NoDup (node_id <$> children) →
  let r := removeFavoriteBookmark url children in
  (r.1 = true ↔ Some url ∈ node_url <$> children)
  ∧ (r.1 = false → r.2 = children)
  ∧ (∀ pre b post,
       children = pre ++ b :: post →
       node_url b = Some url → (∀ c, c ∈ pre → node_url c ≠ Some url) →
       r = (true, pre ++ post)).
Proof.
  intros Hnd r. unfold r, removeFavoriteBookmark.
  destruct (js_find _ children) as [b|] eqn:Hf; simpl.
  - pose proof Hf as [Hin Hb%bool_decide_eq_true]%js_find_Some.
    split; [|split; [done|]].
    + split; [|done]. intros _. rewrite <- Hb. by apply list_elem_of_fmap_2.
    + intros pre b' post -> Hb' Hpre.
      rewrite js_find_first in Hf.
      * injection Hf as ->. by rewrite remove_node_middle.
      * intros c Hc. apply bool_decide_eq_false_2. by apply Hpre.
      * by apply bool_decide_eq_true_2.
  - rewrite js_find_None in Hf. split; [|split; [done|]].
    + split; [done|]. intros (c & Hu & Hc)%list_elem_of_fmap.
      specialize (Hf c Hc). apply bool_decide_eq_false in Hf. by destruct Hf.
    + intros pre b post -> Hb _. exfalso.
      assert (Hin : b ∈ pre ++ b :: post) by (apply elem_of_app; right; left).
      specialize (Hf b Hin). apply bool_decide_eq_false in Hf. done.
Qed.

(** X27: when no favorite has the URL and the id of the new node is
    fresh, [addFavoriteBookmark] creates the bookmark, a second call with
    the same URL returns that bookmark and creates nothing, and
    [removeFavoriteBookmark] of the URL then gives back the children from
    before. *)
Theorem favorite_add_then_remove url title newId now children :
  (Some url ∉ node_url <$> children) → (newId ∉ node_id <$> children) →
  let added := addFavoriteBookmark url title newId now children in
  added.1 = Bookmark newId title url now
  ∧ addFavoriteBookmark url title newId now added.2 = added
  ∧ removeFavoriteBookmark url added.2 = (true, children).
Proof.
  intros Hu Hid added.
  assert (Hnone : ∀ c, c ∈ children → bool_decide (node_url c = Some url) = false).
  { intros c Hc. apply bool_decide_eq_false_2. intros Heq. apply Hu. rewrite <- Heq.
    by apply list_elem_of_fmap_2. }
  assert (Hadd : added = (Bookmark newId title url now,
                          children ++ [Bookmark newId title url now])).
  { unfold added, addFavoriteBookmark.
    assert (Hf : js_find (λ b, bool_decide (node_url b = Some url)) children = None)
      by by apply js_find_None.
    by rewrite Hf. }
  assert (Hfind : js_find (λ b, bool_decide (node_url b = Some url))
                    (children ++ [Bookmark newId title url now])
                  = Some (Bookmark newId title url now)).
  { apply js_find_first; [done|]. by apply bool_decide_eq_true_2. }
  rewrite Hadd. simpl. split; [done|]. split.
  - unfold addFavoriteBookmark. by rewrite Hfind.
  - unfold removeFavoriteBookmark. rewrite Hfind. simpl. f_equal.
    unfold remove_node. rewrite filter_app, filter_cons_False by (intros H; by apply H).
    rewrite filter_nil, app_nil_r. apply filter_all.
    intros c Hc Heq. apply Hid. rewrite <- Heq. by apply list_elem_of_fmap_2.
Qed.

(** X26, witness: favorites with one address saved twice. *)
Lemma removeFavoriteBookmark_first_sample :
  let r := removeFavoriteBookmark "https://mail.example/" sample_favorites in
  (r.1 = true ↔ Some "https://mail.example/" ∈ node_url <$> sample_favorites)
  ∧ (r.1 = false → r.2 = sample_favorites)
  ∧ (∀ pre b post,
       sample_favorites = pre ++ b :: post →
       node_url b = Some "https://mail.example/" →
       (∀ c, c ∈ pre → node_url c ≠ Some "https://mail.example/") →
       r = (true, pre ++ post)).
Proof.
  apply (removeFavoriteBookmark_first "https://mail.example/" sample_favorites).
  by_compute.
Defined.

(** X27, witness: a fourth favorite. *)
Lemma favorite_add_then_remove_sample :
  let added := addFavoriteBookmark "https://docs.example/" "Docs" "14" 400 sample_favorites in
  added.1 = Bookmark "14" "Docs" "https://docs.example/" 400
  ∧ addFavoriteBookmark "https://docs.example/" "Docs" "14" 400 added.2 = added
  ∧ removeFavoriteBookmark "https://docs.example/" added.2 = (true, sample_favorites).
Proof.
  apply (favorite_add_then_remove "https://docs.example/" "Docs" "14" 400 sample_favorites).
  - by_compute.
  - by_compute.
Defined.

(** ** The debounce of the move events *)

Lemma timer_of_one_tab (l : list (Z * Z)) i a b :
  NoDup l.*1 → (i, a) ∈ l → (i, b) ∈ l → a = b.
Proof.
  intros Hnd Ha Hb.
  assert (He : (i, a) = (i, b)) by by apply (NoDup_fmap_elem_eq fst l).
  by injection He.
Qed.

Lemma cleared_by_tab tabId st :
  debounce_inv st →
  match pendingTabMoves st !! tabId with
  | Some existingData => filter (λ t, t.1 ≠ existingData.2) (moveTimers st)
  | None => moveTimers st
  end = filter (λ t, t.2 ≠ tabId) (moveTimers st).
Proof.
  intros (Hnd & Hlt & Hiff).
  destruct (pendingTabMoves st !! tabId) as [[idx tid]|] eqn:Hp; simpl.
  - assert (Hlive : (tid, tabId) ∈ moveTimers st) by (apply Hiff; by exists idx).
    apply filter_ext_elem. intros [i tab] Hin. simpl. split.
    + intros Hne ->. apply Hiff in Hin as [idx' Hin]. congruence.
    + intros Hne ->. apply Hne. by apply (timer_of_one_tab (moveTimers st) tid).
  - symmetry. apply filter_all. intros [i tab] Hin. simpl. intros ->.
    apply Hiff in Hin as [idx Hin]. congruence.
Qed.

Lemma handleTabMove_accepts tabId toIndex st :
  debounce_inv st →
  isOpeningBookmark st = false → tabId ∉ syncingTabs st → tabId ∉ processingTabMoves st →
  handleTabMove tabId toIndex st
  = mkMoveDebounce false (syncingTabs st) (processingTabMoves st)
      (<[tabId := (toIndex, nextMoveTimeoutId st)]> (pendingTabMoves st))
      (filter (λ t, t.2 ≠ tabId) (moveTimers st) ++ [(nextMoveTimeoutId st, tabId)])
      (nextMoveTimeoutId st + 1) (processTabMove_calls st).
Proof.
  intros Hinv Ho Hs Hp. unfold handleTabMove.
  rewrite Ho, !bool_decide_eq_false_2 by done. by rewrite cleared_by_tab.
Qed.

Lemma accepted_move_inv tabId toIndex st :
  debounce_inv st →
  debounce_inv
    (mkMoveDebounce false (syncingTabs st) (processingTabMoves st)
       (<[tabId := (toIndex, nextMoveTimeoutId st)]> (pendingTabMoves st))
       (filter (λ t, t.2 ≠ tabId) (moveTimers st) ++ [(nextMoveTimeoutId st, tabId)])
       (nextMoveTimeoutId st + 1) (processTabMove_calls st)).
Proof.
  intros (Hnd & Hlt & Hiff). unfold debounce_inv. simpl. split; [|split].
  - rewrite fmap_app. apply NoDup_app. split; [|split].
    + eapply sublist_NoDup; [exact Hnd|apply fmap_sublist, sublist_filter].
    + intros i (t & -> & [_ Ht]%list_elem_of_filter)%list_elem_of_fmap Hi.
      apply list_elem_of_singleton in Hi. simpl in Hi. specialize (Hlt t Ht). lia.
    + apply NoDup_singleton.
  - intros t [[_ Ht]%list_elem_of_filter|Ht%list_elem_of_singleton]%elem_of_app.
    + specialize (Hlt t Ht). lia.
    + subst t. simpl. lia.
  - intros i tab. rewrite elem_of_app, list_elem_of_filter, list_elem_of_singleton. simpl.
    destruct (decide (tab = tabId)) as [->|Hne].
    + rewrite lookup_insert_eq. split.
      * intros [[Hne _]|[= ->]]; [done|]. by exists toIndex.
      * intros [idx [= _ ->]]. by right.
    + rewrite lookup_insert_ne by done. rewrite <- Hiff. split.
      * intros [[_ Hin]|[= _ ->]]; done.
      * intros Hin. by left.
Qed.

Lemma handleTabMove_inv tabId toIndex st :
  debounce_inv st → debounce_inv (handleTabMove tabId toIndex st).
Proof.
  intros Hinv.
  destruct (isOpeningBookmark st) eqn:Ho; [by unfold handleTabMove; rewrite Ho|].
  destruct (decide (tabId ∈ syncingTabs st)) as [Hs|Hs].
  { unfold handleTabMove. by rewrite Ho, (bool_decide_eq_true_2 _ Hs). }
  destruct (decide (tabId ∈ processingTabMoves st)) as [Hp|Hp].
  { unfold handleTabMove.
    by rewrite Ho, (bool_decide_eq_false_2 _ Hs), (bool_decide_eq_true_2 _ Hp). }
  rewrite handleTabMove_accepts by done. by apply accepted_move_inv.
Qed.

Lemma move_timer_fires_live timeoutId tabId toIndex st :
  debounce_inv st → pendingTabMoves st !! tabId = Some (toIndex, timeoutId) →
  move_timer_fires timeoutId st
  = Some (mkMoveDebounce (isOpeningBookmark st) (syncingTabs st)
            (processingTabMoves st ∖ {[tabId]}) (delete tabId (pendingTabMoves st))
            (filter (λ t, t.2 ≠ tabId) (moveTimers st)) (nextMoveTimeoutId st)
            (processTabMove_calls st ++ [(tabId, toIndex)])).
Proof.
  intros Hinv Hp. pose proof Hinv as (Hnd & Hlt & Hiff).
  assert (Hlive : (timeoutId, tabId) ∈ moveTimers st) by (apply Hiff; by exists toIndex).
  unfold move_timer_fires.
  destruct (js_find _ (moveTimers st)) as [[i tab]|] eqn:Hf.
  - apply js_find_Some in Hf as [Hin Hi]. apply bool_decide_eq_true in Hi. simpl in Hi.
    subst i. assert (tab = tabId) as -> by by apply (timer_of_one_tab (moveTimers st) timeoutId).
    simpl. rewrite Hp. simpl. do 2 f_equal.
    pose proof (cleared_by_tab tabId st Hinv) as Hc. rewrite Hp in Hc. exact Hc.
  - rewrite js_find_None in Hf. specialize (Hf _ Hlive). simpl in Hf.
    by rewrite bool_decide_eq_true_2 in Hf.
Qed.

Lemma move_timer_fires_inv timeoutId st st' :
  debounce_inv st → move_timer_fires timeoutId st = Some st' → debounce_inv st'.
Proof.
  intros Hinv Hfire. pose proof Hinv as (Hnd & Hlt & Hiff).
  assert (Hlive : ∃ tabId toIndex, pendingTabMoves st !! tabId = Some (toIndex, timeoutId)).
  { unfold move_timer_fires in Hfire.
    destruct (js_find _ (moveTimers st)) as [[i tab]|] eqn:Hf; [|done].
    apply js_find_Some in Hf as [Hin Hi]. apply bool_decide_eq_true in Hi. simpl in Hi.
    subst i. apply Hiff in Hin as [idx Hin]. by exists tab, idx. }
  destruct Hlive as (tabId & toIndex & Hp).
  rewrite (move_timer_fires_live timeoutId tabId toIndex) in Hfire by done.
  injection Hfire as <-. unfold debounce_inv. simpl. split; [|split].
  - eapply sublist_NoDup; [exact Hnd|apply fmap_sublist, sublist_filter].
  - intros t [_ Ht]%list_elem_of_filter. by apply Hlt.
  - intros i tab. rewrite list_elem_of_filter. simpl.
    destruct (decide (tab = tabId)) as [->|Hne].
    + rewrite lookup_delete_eq. split; [by intros [? _]|by intros [? ?]].
    + rewrite lookup_delete_ne by done. rewrite <- Hiff. tauto.
Qed.

Lemma move_event_inv ev st st' :
  debounce_inv st → move_event st ev = Some st' → debounce_inv st'.
Proof.
  intros Hinv. destruct ev as [tabId toIndex|timeoutId| |o s p]; simpl.
  - intros [= <-]. by apply handleTabMove_inv.
  - by apply move_timer_fires_inv.
  - intros [= <-]. destruct Hinv as (Hnd & Hlt & Hiff). unfold debounce_inv. simpl.
    split; [done|]. split; [|done]. intros t Ht. specialize (Hlt t Ht). lia.
  - intros [= <-]. exact Hinv.
Qed.

Lemma move_events_inv evs st st' :
  debounce_inv st → move_events evs st = Some st' → debounce_inv st'.
Proof.
  revert st. induction evs as [|ev rest IH]; intros st Hinv; simpl.
  - by intros [= <-].
  - destruct (move_event st ev) as [st1|] eqn:Hev; simpl; [|done].
    apply IH. by eapply move_event_inv.
Qed.

Lemma quiet_moves_inv : debounce_inv quiet_moves.
Proof.
  unfold debounce_inv, quiet_moves. simpl. split; [constructor|]. split.
  - intros t Ht. by apply elem_of_nil in Ht.
  - intros i tab. rewrite lookup_empty. split.
    + intros Ht. by apply elem_of_nil in Ht.
    + by intros [? ?].
Qed.

(** X28: whatever moves are reported and whatever timers fire after the
    sidebar starts, a tab has a pending move exactly when it has a timer of
    [handleTabMove] still to fire, it has at most one such timer, and the
    timer named by its pending entry, when it fires, calls
    [processTabMove] for that tab with the [moveInfo] stored last and
    leaves the tab without pending move and without timer. *)
Theorem one_timer_per_moved_tab evs st' :
  move_events evs quiet_moves = Some st' →
  NoDup (moveTimers st').*2
  ∧ (∀ tabId, is_Some (pendingTabMoves st' !! tabId) ↔ tabId ∈ (moveTimers st').*2)
  ∧ (∀ timeoutId tabId toIndex,
       pendingTabMoves st' !! tabId = Some (toIndex, timeoutId) →
       ∃ st'', move_timer_fires timeoutId st' = Some st''
               ∧ processTabMove_calls st'' = processTabMove_calls st' ++ [(tabId, toIndex)]
               ∧ pendingTabMoves st'' !! tabId = None
               ∧ tabId ∉ (moveTimers st'').*2).
Proof.
  intros Hrun.
  pose proof (move_events_inv evs _ _ quiet_moves_inv Hrun) as Hinv.
  pose proof Hinv as (Hnd & Hlt & Hiff). split; [|split].
  - apply NoDup_fmap_2_strong; [|by eapply NoDup_fmap_1].
    intros [i a] [j b] Ha Hb. simpl. intros <-.
    apply Hiff in Ha as [? Ha]. apply Hiff in Hb as [? Hb]. congruence.
  - intros tabId. split.
    + intros [[idx tid] Hp]. apply list_elem_of_fmap. exists (tid, tabId). split; [done|].
      apply Hiff. by exists idx.
    + intros ([tid tab] & -> & Hin)%list_elem_of_fmap. simpl.
      apply Hiff in Hin as [idx Hin]. by eexists.
  - intros timeoutId tabId toIndex Hp. eexists. split.
    + by apply (move_timer_fires_live timeoutId tabId toIndex).
    + simpl. split; [done|]. split; [apply lookup_delete_eq|].
      intros ([tid tab] & Ht & [Hne _]%list_elem_of_filter)%list_elem_of_fmap.
      simpl in *. done.
Qed.

(** X28, witness: two moves of tab 3, a move of tab 4, and the timer of
    tab 3 firing. *)
Lemma one_timer_per_moved_tab_sample :
  let st' := default quiet_moves (move_events sample_move_events quiet_moves) in
  NoDup (moveTimers st').*2
  ∧ (∀ tabId, is_Some (pendingTabMoves st' !! tabId) ↔ tabId ∈ (moveTimers st').*2)
  ∧ (∀ timeoutId tabId toIndex,
       pendingTabMoves st' !! tabId = Some (toIndex, timeoutId) →
       ∃ st'', move_timer_fires timeoutId st' = Some st''
               ∧ processTabMove_calls st'' = processTabMove_calls st' ++ [(tabId, toIndex)]
               ∧ pendingTabMoves st'' !! tabId = None
               ∧ tabId ∉ (moveTimers st'').*2).
Proof.
  apply (one_timer_per_moved_tab sample_move_events). vm_compute. reflexivity.
Defined.

Lemma rapid_moves tabId indices last st :
  debounce_inv st →
  isOpeningBookmark st = false → tabId ∉ syncingTabs st → tabId ∉ processingTabMoves st →
  foldl (λ s toIndex, handleTabMove tabId toIndex s) st (indices ++ [last])
  = mkMoveDebounce false (syncingTabs st) (processingTabMoves st)
      (<[tabId := (last, nextMoveTimeoutId st + Z.of_nat (length indices))]> (pendingTabMoves st))
      (filter (λ t, t.2 ≠ tabId) (moveTimers st)
         ++ [(nextMoveTimeoutId st + Z.of_nat (length indices), tabId)])
      (nextMoveTimeoutId st + Z.of_nat (length indices) + 1) (processTabMove_calls st).
Proof.
  revert st. induction indices as [|i rest IH]; intros st Hinv Ho Hs Hp.
  - simpl. rewrite handleTabMove_accepts by done. by rewrite Z.add_0_r.
  - cbn [app foldl]. rewrite handleTabMove_accepts by done.
    rewrite IH; [|by apply accepted_move_inv|done|done|done]. simpl.
    rewrite insert_insert_eq, filter_app, list_filter_filter.
    rewrite (filter_cons_False _ (nextMoveTimeoutId st, tabId)) by (simpl; intros H; by apply H).
    rewrite filter_nil, app_nil_r.
    assert (Hf : filter (λ x : Z * Z, x.2 ≠ tabId ∧ x.2 ≠ tabId) (moveTimers st)
                 = filter (λ t, t.2 ≠ tabId) (moveTimers st)).
    { apply filter_ext_elem. intros x _. tauto. }
    rewrite Hf. rewrite Nat2Z.inj_succ.
    replace (nextMoveTimeoutId st + 1 + Z.of_nat (length rest))
      with (nextMoveTimeoutId st + Z.succ (Z.of_nat (length rest))) by lia. done.
Qed.

Lemma moves_inv tabId l st :
  debounce_inv st → debounce_inv (foldl (λ s toIndex, handleTabMove tabId toIndex s) st l).
Proof.
  revert st. induction l as [|i r IH]; intros st Hinv; simpl; [done|].
  apply IH. by apply handleTabMove_inv.
Qed.

(** X29: move events of one tab that arrive before the timer fires,
    while [handleTabMove] is not held back by its three tests, leave one
    timer for the tab, the one set last; when it fires [processTabMove] is
    called once, with the [moveInfo] of the last event, and the tab has no
    pending move and no timer left. *)
Theorem rapid_moves_processed_once tabId indices last st :
  debounce_inv st →
  isOpeningBookmark st = false → tabId ∉ syncingTabs st → tabId ∉ processingTabMoves st →
  let st1 := foldl (λ s toIndex, handleTabMove tabId toIndex s) st (indices ++ [last]) in
  ∃ timeoutId st2,
    moveTimers st1 = filter (λ t, t.2 ≠ tabId) (moveTimers st) ++ [(timeoutId, tabId)]
    ∧ move_timer_fires timeoutId st1 = Some st2
    ∧ processTabMove_calls st2 = processTabMove_calls st ++ [(tabId, last)]
    ∧ moveTimers st2 = filter (λ t, t.2 ≠ tabId) (moveTimers st)
    ∧ pendingTabMoves st2 = delete tabId (pendingTabMoves st).
Proof.
  intros Hinv Ho Hs Hp st1.
  pose proof (moves_inv tabId (indices ++ [last]) st Hinv) as Hinv1. fold st1 in Hinv1.
  pose proof (rapid_moves tabId indices last st Hinv Ho Hs Hp) as H1. fold st1 in H1.
  set (timeoutId := nextMoveTimeoutId st + Z.of_nat (length indices)) in *.
  assert (Hp1 : pendingTabMoves st1 !! tabId = Some (last, timeoutId)).
  { rewrite H1. simpl. apply lookup_insert_eq. }
  exists timeoutId. eexists. split; [by rewrite H1|]. split.
  - by apply (move_timer_fires_live timeoutId tabId last).
  - rewrite H1. simpl. split; [done|]. split.
    + rewrite filter_app, list_filter_filter.
      rewrite (filter_cons_False _ (timeoutId, tabId)) by (simpl; intros H; by apply H).
      rewrite filter_nil, app_nil_r. apply filter_ext_elem. intros x _. tauto.
    + apply delete_insert_eq.
Qed.

(** X29, witness: three moves of tab 3 after the sidebar starts. *)
Lemma rapid_moves_processed_once_sample :
  let st1 := foldl (λ s toIndex, handleTabMove 3 toIndex s) quiet_moves ([0; 1] ++ [2]) in
  ∃ timeoutId st2,
    moveTimers st1 = filter (λ t, t.2 ≠ 3) (moveTimers quiet_moves) ++ [(timeoutId, 3)]
    ∧ move_timer_fires timeoutId st1 = Some st2
    ∧ processTabMove_calls st2 = processTabMove_calls quiet_moves ++ [(3, 2)]
    ∧ moveTimers st2 = filter (λ t, t.2 ≠ 3) (moveTimers quiet_moves)
    ∧ pendingTabMoves st2 = delete 3 (pendingTabMoves quiet_moves).
Proof.
  apply (rapid_moves_processed_once 3 [0; 1] 2 quiet_moves).
  - exact quiet_moves_inv.
  - reflexivity.
  - by_compute.
  - by_compute.
Defined.

(** ** The two sections of a loaded space *)

(** X30: [loadTabs] gives a temporary tab of the space an element in the
    temporary section exactly when the tab is open and no bookmark row
    holds it, so no tab is shown in both sections; without a folder for the
    space there is no bookmark row; and distinct temporary tabs give
    distinct elements. *)
Theorem loadTabs_one_row_per_tab parse_url tabs states invert pinnedUrls spaceFolder space :
  let r := loadTabs parse_url tabs states invert pinnedUrls spaceFolder space in
  (∀ tabId, tabId ∈ r.2 ↔
     tabId ∈ temporaryTabs space ∧ (∃ t, t ∈ tabs ∧ tab_id t = tabId)
     ∧ Some tabId ∉ row_tabId <$> r.1)
  ∧ (spaceFolder = None → r.1 = [])
  ∧ (NoDup (temporaryTabs space) → NoDup r.2).
Proof.
  intros r. unfold r, loadTabs.
  set (pinned := match spaceFolder with Some node => _ | None => _ end).
  assert (Hrep : representedPinnedTabIds pinned = list_to_set (omap row_tabId (rows pinned))).
  { unfold pinned. destruct spaceFolder as [node|]; [|done].
    by destruct (processBookmarkNode_load_inv parse_url tabs states invert pinnedUrls node). }
  cbn [fst snd]. split; [|split].
  - intros tabId. unfold temporaryRows. rewrite list_elem_of_filter, Hrep.
    rewrite elem_of_list_to_set, list_elem_of_omap.
    assert (Hopen : is_Some (js_find (λ t, bool_decide (tab_id t = tabId)) tabs)
                    ↔ ∃ t, t ∈ tabs ∧ tab_id t = tabId).
    { split.
      - intros [t [Ht Hid%bool_decide_eq_true]%js_find_Some]. by exists t.
      - intros (t & Ht & Hid). apply (js_find_is_Some _ tabs t Ht).
        by apply bool_decide_eq_true_2. }
    assert (Hrow : (∃ row, row ∈ rows pinned ∧ row_tabId row = Some tabId)
                   ↔ Some tabId ∈ row_tabId <$> rows pinned).
    { rewrite list_elem_of_fmap. split; intros (row & ? & ?); by exists row. }
    assert (Hin : tabId ∈ (if invert then reverse (temporaryTabs space)
                           else temporaryTabs space) ↔ tabId ∈ temporaryTabs space).
    { destruct invert; [apply elem_of_reverse|done]. }
    rewrite Hopen, Hrow, Hin. tauto.
  - intros ->. done.
  - intros Hnd. unfold temporaryRows. apply NoDup_filter.
    destruct invert; [by rewrite reverse_Permutation|done].
Qed.
